(** * lautils / latex_converter: a shallow embedding of the LaTeX-to-Markdown
      transformer and the properties of its specification.

    The Python sources embedded here are
      - [latex_converter/latex_processing.py]
      - [latex_converter/converters.py]
      - [latex_converter/formats.py]
      - [latex_converter/main.py]

    A Python [str] is a sequence of Unicode code points: it is modelled as a
    list of code points ([N]).  The functions of module [re] that the sources
    call are modelled by a backtracking matcher with the priorities of
    Python's engine (leftmost match, greedy and lazy repetition, ordered
    alternation), restricted to the constructs that occur in the sources. *)

From Stdlib Require Import String Ascii DecimalString.
From Stdlib Require Import List NArith ZArith Bool Arith Lia.
Import ListNotations.

Set Implicit Arguments.

(** ** Characters and strings *)

Definition char := N.
Definition str := list char.

Definition ch (a : ascii) : char := N_of_ascii a.
Definition lit (s : string) : str := map N_of_ascii (list_ascii_of_string s).

Definition nl : char := 10%N.
Definition cr : char := 13%N.
Definition tab : char := 9%N.
Definition sp : char := 32%N.

Definition is_c (a : ascii) (c : char) : bool := N.eqb c (ch a).
Definition not_c (a : ascii) (c : char) : bool := negb (N.eqb c (ch a)).

(** [str.isspace] on one code point (CPython's [_PyUnicode_IsWhitespace]);
    the same set is what [\s] matches in a [str] pattern. *)
Definition isspace (c : char) : bool :=
  (((9 <=? c) && (c <=? 13)) || ((28 <=? c) && (c <=? 32)) ||
   (c =? 133) || (c =? 160) || (c =? 5760) ||
   ((8192 <=? c) && (c <=? 8202)) || (c =? 8232) || (c =? 8233) ||
   (c =? 8239) || (c =? 8287) || (c =? 12288))%N.

Definition str_eqb (a b : str) : bool :=
  if list_eq_dec N.eq_dec a b then true else false.

(** [a.startswith(b)], used for literals; returns the rest. *)
Fixpoint eat (l s : str) : option str :=
  match l with
  | [] => Some s
  | a :: l' =>
      match s with
      | c :: s' => if N.eqb a c then eat l' s' else None
      | [] => None
      end
  end.

Fixpoint take_while (p : char -> bool) (s : str) : str :=
  match s with
  | c :: s' => if p c then c :: take_while p s' else []
  | [] => []
  end.

Fixpoint drop_while (p : char -> bool) (s : str) : str :=
  match s with
  | c :: s' => if p c then drop_while p s' else s
  | [] => []
  end.

(** [s.lstrip()], [s.rstrip()] *)
Definition lstrip (s : str) : str := drop_while isspace s.
Definition rstrip (s : str) : str := rev (lstrip (rev s)).

(** [s.strip()] *)
Definition strip (s : str) : str := rstrip (lstrip s).

(** [sep.join(l)] *)
Fixpoint join (sep : str) (l : list str) : str :=
  match l with
  | [] => []
  | [x] => x
  | x :: l' => x ++ sep ++ join sep l'
  end.

(** [sub in s] *)
Fixpoint contains (sub s : str) : bool :=
  match eat sub s with
  | Some _ => true
  | None => match s with [] => false | _ :: s' => contains sub s' end
  end.

(** ** The subset of [re] used by the converter *)

Inductive regex : Type :=
| Lit (l : str)                    (* literal text                *)
| Cls (p : char -> bool)           (* one character of a class    *)
| Star (p : char -> bool)          (* greedy  [p*]                *)
| Lazy (p : char -> bool)          (* lazy    [p*?]               *)
| Seq (r1 r2 : regex)
| Alt (r1 r2 : regex)              (* [r1|r2], [r1] tried first   *)
| Opt (r : regex)                  (* greedy  [r?]                *)
| Grp (n : nat) (r : regex)        (* capturing group number [n]  *)
| NotBehind (c : char).            (* [(?<!c)]                    *)

Declare Scope re_scope.
Delimit Scope re_scope with re.
Bind Scope re_scope with regex.
Infix ">>" := Seq (at level 61, right associativity) : re_scope.
Infix "|/" := Alt (at level 62, right associativity) : re_scope.

Definition L (s : string) : regex := Lit (lit s).
Definition Plus (p : char -> bool) : regex := (Cls p >> Star p)%re.
Fixpoint AtLeast (n : nat) (p : char -> bool) : regex :=
  match n with
  | 0 => Star p
  | S n' => (Cls p >> AtLeast n' p)%re
  end.

Definition dot (c : char) : bool := negb (N.eqb c nl).   (* [.]           *)
Definition dotall (_ : char) : bool := true.             (* [.] with DOTALL *)

Definition caps := list (nat * str).

Fixpoint lookup (n : nat) (g : caps) : option str :=
  match g with
  | [] => None
  | (m, v) :: g' => if Nat.eqb n m then Some v else lookup n g'
  end.

(** The character just before the suffix [s] of [text], if any. *)
Definition prev_char (text s : str) : option char :=
  if length s <? length text
  then nth_error text (length text - length s - 1)
  else None.

Section Matcher.
Context {A : Type}.

Fixpoint star_greedy (p : char -> bool) (k : str -> option A) (s : str)
  : option A :=
  match s with
  | c :: s' =>
      if p c then
        match star_greedy p k s' with
        | Some x => Some x
        | None => k s
        end
      else k s
  | [] => k s
  end.

Fixpoint star_lazy (p : char -> bool) (k : str -> option A) (s : str)
  : option A :=
  match k s with
  | Some x => Some x
  | None =>
      match s with
      | c :: s' => if p c then star_lazy p k s' else None
      | [] => None
      end
  end.

(** [mt text r s g k]: match [r] at the suffix [s] of [text], then continue
    with [k] on what is left; backtrack into [r] when [k] fails. *)
Fixpoint mt (text : str) (r : regex) (s : str) (g : caps)
         (k : str -> caps -> option A) : option A :=
  match r with
  | Lit l => match eat l s with Some s' => k s' g | None => None end
  | Cls p =>
      match s with
      | c :: s' => if p c then k s' g else None
      | [] => None
      end
  | Star p => star_greedy p (fun s' => k s' g) s
  | Lazy p => star_lazy p (fun s' => k s' g) s
  | Seq r1 r2 => mt text r1 s g (fun s' g' => mt text r2 s' g' k)
  | Alt r1 r2 =>
      match mt text r1 s g k with
      | Some x => Some x
      | None => mt text r2 s g k
      end
  | Opt r1 =>
      match mt text r1 s g k with
      | Some x => Some x
      | None => k s g
      end
  | Grp n r1 =>
      mt text r1 s g
         (fun s' g' => k s' ((n, firstn (length s - length s') s) :: g'))
  | NotBehind c =>
      match prev_char text s with
      | Some c' => if N.eqb c' c then None else k s g
      | None => k s g
      end
  end.
End Matcher.

(** [pattern.match] at the suffix [s] of [text]: the groups and what follows
    the match. *)
Definition match_here (text : str) (r : regex) (s : str) : option (caps * str) :=
  mt text r s [] (fun s' g => Some (g, s')).

Record rmatch : Type := MkMatch {
  m_start : nat;       (* [m.start()] *)
  m_end : nat;         (* [m.end()]   *)
  m_whole : str;       (* [m.group(0)] *)
  m_groups : caps
}.

(** [m.group(n)]; [None] when the group did not take part in the match. *)
Definition group (n : nat) (m : rmatch) : option str := lookup n (m_groups m).
(** [\n] in a replacement template: empty when the group did not take part. *)
Definition group_str (n : nat) (m : rmatch) : str :=
  match group n m with Some v => v | None => [] end.

Fixpoint search_go (text : str) (r : regex) (i : nat) (s : str) : option rmatch :=
  match match_here text r s with
  | Some (g, rest) =>
      let n := length s - length rest in
      Some (MkMatch i (i + n) (firstn n s) g)
  | None =>
      match s with
      | [] => None
      | _ :: s' => search_go text r (S i) s'
      end
  end.

(** [pattern.search(text, pos)] *)
Definition search (r : regex) (text : str) (pos : nat) : option rmatch :=
  if pos <=? length text then search_go text r pos (skipn pos text) else None.

(** A scan of the subject from left to right, as [sub], [split], [findall]
    and [finditer] do it: every character is either copied ([Gap]) or lies
    in a match ([Hit]); after a match the scan resumes where it ended
    ([skip] counts the characters of the current match still to pass).  After
    an empty match one character is copied. *)
Inductive piece : Type :=
| Gap (c : char)
| Hit (m : rmatch).

Fixpoint scan_go (text : str) (r : regex) (skip i : nat) (s : str) {struct s}
  : list piece :=
  match skip with
  | S k =>
      match s with
      | [] => []
      | _ :: s' => scan_go text r k (S i) s'
      end
  | 0 =>
      match match_here text r s with
      | Some (g, rest) =>
          let n := length s - length rest in
          Hit (MkMatch i (i + n) (firstn n s) g) ::
          match s with
          | [] => []
          | c :: s' =>
              match n with
              | 0 => Gap c :: scan_go text r 0 (S i) s'
              | S k => scan_go text r k (S i) s'
              end
          end
      | None =>
          match s with
          | [] => []
          | c :: s' => Gap c :: scan_go text r 0 (S i) s'
          end
      end
  end.

Definition scan (r : regex) (text : str) : list piece := scan_go text r 0 0 text.

(** What [sub] writes for a piece of the scan. *)
Definition piece_text (repl : rmatch -> str) (p : piece) : str :=
  match p with
  | Gap c => [c]
  | Hit m => repl m
  end.

(** [pattern.sub(repl, text)] with a function [repl]. *)
Definition sub (r : regex) (repl : rmatch -> str) (text : str) : str :=
  flat_map (piece_text repl) (scan r text).

(** [pattern.finditer(text)] as a list. *)
Definition finditer (r : regex) (text : str) : list rmatch :=
  flat_map (fun p => match p with Gap _ => [] | Hit m => [m] end) (scan r text).

(** [pattern.findall(text)] for a pattern without group / with one group. *)
Definition findall0 (r : regex) (text : str) : list str :=
  map m_whole (finditer r text).
Definition findall1 (r : regex) (text : str) : list str :=
  map (group_str 1) (finditer r text).

(** [re.split(pattern, text)] for a pattern without groups: the copied text
    between the matches. *)
Fixpoint split_pieces (cur : str) (ps : list piece) : list str :=
  match ps with
  | [] => [rev cur]
  | Gap c :: ps' => split_pieces (c :: cur) ps'
  | Hit _ :: ps' => rev cur :: split_pieces [] ps'
  end.

Definition split (r : regex) (text : str) : list str :=
  split_pieces [] (scan r text).

(** [s.replace(old, new)] and [s.split(sep)] for a non-empty [old] / [sep]. *)
Definition replace (old new : str) (s : str) : str :=
  sub (Lit old) (fun _ => new) s.
Definition str_split (sep : str) (s : str) : list str := split (Lit sep) s.

(** Python slices with non-negative bounds: [s[a:b]], [s[a:]], [s[:b]]. *)
Definition slice (a b : nat) (s : str) : str := firstn (b - a) (skipn a s).
Definition slice_from (a : nat) (s : str) : str := skipn a s.
Definition slice_to (b : nat) (s : str) : str := firstn b s.

Definition nonempty (s : str) : bool :=
  match s with [] => false | _ => true end.

(** A [while cond: body] loop run for at most [fuel] iterations: the final
    state and the number of iterations made, or [None] when the condition
    still holds after [fuel] iterations. *)
Fixpoint while_loop {St : Type} (fuel : nat) (cond : St -> bool)
         (body : St -> St) (st : St) : option (St * nat) :=
  if cond st then
    match fuel with
    | 0 => None
    | S fuel' =>
        match while_loop fuel' cond body (body st) with
        | Some (st', n) => Some (st', S n)
        | None => None
        end
    end
  else Some (st, 0).

(** ** latex_processing.py *)

Definition begin_abstract : regex := L "\begin{abstract}".
Definition end_abstract : regex := L "\end{abstract}".

Definition preprocess_abstract (text : str) : str :=
  let text := sub begin_abstract (fun _ => lit "\section*{Abstract}") text in
  sub end_abstract (fun _ => []) text.

(** The brace-scanning loop, written four times in the sources (title,
    author, figure caption, table caption) and twice more when a command is
    removed with its argument:
<<
        brace_level = 1
        i = start
        while i < len(text) and brace_level > 0:
            if text[i] == '{':   brace_level += 1
            elif text[i] == '}': brace_level -= 1
            i += 1
>>
    The state of the loop is [(i, brace_level)]. *)
Definition scan_state : Type := nat * Z.

Definition scan_cond (text : str) (st : scan_state) : bool :=
  (fst st <? length text) && (0 <? snd st)%Z.

Definition scan_body (text : str) (st : scan_state) : scan_state :=
  let (i, brace_level) := st in
  let brace_level :=
    match nth_error text i with
    | Some c =>
        if N.eqb c (ch "{") then (brace_level + 1)%Z
        else if N.eqb c (ch "}") then (brace_level - 1)%Z
        else brace_level
    | None => brace_level
    end in
  (i + 1, brace_level).

Definition brace_loop (fuel : nat) (text : str) (start : nat)
  : option (scan_state * nat) :=
  while_loop fuel (scan_cond text) (scan_body text) (start, 1%Z).

(** The loop run to its end ([length text] iterations always suffice, see
    [brace_loop_terminates]). *)
Definition brace_scan (text : str) (start : nat) : scan_state :=
  match brace_loop (length text) text start with
  | Some (st, _) => st
  | None => (start, 1%Z)
  end.

(** One of the two blocks of [extract_title_authors]: the first [\cmd{...}]
    is cut out of the text and its argument returned. *)
Definition extract_command (pattern : regex) (text : str) : str * str :=
  match search pattern text 0 with
  | Some m =>
      let start := m_end m in
      let (i, brace_level) := brace_scan text start in
      if (brace_level =? 0)%Z
      then (slice_to (m_start m) text ++ slice_from i text,
            strip (slice start (i - 1) text))
      else (slice_to (m_start m) text, strip (slice_from start text))
  | None => (text, [])
  end.

Definition title_pattern : regex := L "\title{".
Definition author_pattern : regex := L "\author{".

Definition extract_title_authors (text : str) : str * str * str :=
  let (text, title) := extract_command title_pattern text in
  let (text, authors) := extract_command author_pattern text in
  (text, title, authors).

Definition document_env : regex :=
  (L "\begin{document}" >> Grp 1 (Lazy dotall) >> L "\end{document}")%re.

Definition extract_document_content (content : str) : str :=
  match search document_env content 0 with
  | Some doc_match => group_str 1 doc_match
  | None => content
  end.

Definition PARA_BREAK : str := lit "<<<PARA_BREAK>>>".

Definition comment_pattern : regex :=
  (NotBehind (ch "\") >> L "%" >> Star dot)%re.

Definition remove_comments (text : str) : str :=
  let text := sub comment_pattern (fun _ => []) text in
  let text := sub (Lit [cr; nl]) (fun _ => [nl]) text in
  let text := sub (AtLeast 3 (N.eqb nl)) (fun _ => [nl; nl]) text in
  let text := replace [nl; nl] PARA_BREAK text in
  let text := sub (Lit [nl]) (fun _ => [sp]) text in
  let text := strip (sub (Plus isspace) (fun _ => [sp]) text) in
  replace PARA_BREAK [nl; nl] text.

(** ** converters.py *)

Definition emph_pattern : regex :=
  (L "\" >> (L "emph" |/ L "textit") >> L "{" >> Grp 1 (Lazy dot) >> L "}")%re.
Definition bold_pattern : regex :=
  (L "\textbf{" >> Grp 1 (Lazy dot) >> L "}")%re.
Definition textsc_pattern : regex :=
  (L "\textsc{" >> Grp 1 (Lazy dot) >> L "}")%re.

Definition apply_inline_formats (text : str) : str :=
  let text :=
    sub emph_pattern (fun m => lit "*" ++ strip (group_str 1 m) ++ lit "*") text in
  let text :=
    sub bold_pattern (fun m => lit "**" ++ strip (group_str 1 m) ++ lit "**") text in
  sub textsc_pattern (fun m => lit "`" ++ strip (group_str 1 m) ++ lit "`") text.

Definition and_or_comma : regex := (L "\and" |/ L ",")%re.
Definition maketitle_pattern : regex := L "\maketitle".

(** The list [authors_clean] of [replace_maketitle]. *)
Definition authors_clean (authors : str) : list str :=
  map strip (filter (fun a => nonempty (strip a)) (split and_or_comma authors)).

Definition replace_maketitle (text title authors : str) : str :=
  let replacement := [] in
  let replacement :=
    if nonempty title
    then replacement ++ lit "# " ++ apply_inline_formats title ++ [nl; nl]
    else replacement in
  let replacement :=
    if nonempty authors
    then
      let authors_md := join (lit ", ") (authors_clean authors) in
      replacement ++ lit "**Authors:** " ++ authors_md ++ [nl; nl]
    else replacement in
  sub maketitle_pattern (fun _ => replacement) text.

Definition cap_start_pattern : regex := L "\caption{".
(** [\\label\{[^}]+\}] and the same with its argument in a group. *)
Definition label_marker : regex :=
  (L "\label{" >> Plus (not_c "}") >> L "}")%re.
Definition label_pattern : regex :=
  (L "\label{" >> Grp 1 (Plus (not_c "}")) >> L "}")%re.

Definition strip_labels (caption_text : str) : str :=
  strip (sub label_marker (fun _ => []) caption_text).

(** The caption loop of [figure_repl] and of [table_repl] (the two differ in
    the text of the warning only).  Each iteration but the last moves [pos]
    past a caption, so [fuel] counts the captions still allowed. *)
Fixpoint caption_loop (fuel : nat) (inner : str) (pos : nat)
         (captions : list str) : option (list str) :=
  match search cap_start_pattern inner pos with
  | None => Some captions
  | Some cmatch =>
      let start := m_end cmatch in
      let (i, brace_level) := brace_scan inner start in
      if (brace_level =? 0)%Z then
        let caption_text := strip (slice start (i - 1) inner) in
        let caption_text := strip_labels caption_text in
        match fuel with
        | 0 => None
        | S fuel' => caption_loop fuel' inner i (captions ++ [caption_text])
        end
      else
        let caption_text := strip (slice_from start inner) in
        let caption_text := strip_labels caption_text in
        Some (captions ++ [caption_text])
  end.

Definition extract_captions (inner : str) : list str :=
  match caption_loop (length inner) inner 0 [] with
  | Some captions => captions
  | None => []
  end.

(** [f" \\label{{{label}}}"] without the leading space. *)
Definition label_md (label : str) : str := lit "\label{" ++ label ++ lit "}".

Definition figure_repl (m : rmatch) : str :=
  let inner := group_str 1 m in
  let captions := extract_captions inner in
  let full_caption := strip (join [sp] captions) in
  let full_caption := apply_inline_formats full_caption in
  let labels := findall1 label_pattern inner in
  let figure_markdown := [nl; nl] ++ lit "**Figure:** " ++ full_caption in
  let figure_markdown :=
    fold_left (fun acc label => acc ++ [sp] ++ label_md label) labels
              figure_markdown in
  figure_markdown ++ [nl; nl].

Definition figure_env : regex :=
  (L "\begin{figure" >> Lazy dotall >> L "}" >> Grp 1 (Lazy dotall) >>
   L "\end{figure" >> Lazy dotall >> L "}")%re.

Definition replace_figures (text : str) : str := sub figure_env figure_repl text.

Definition begin_tabular : regex := L "\begin{tabular}".
Definition end_tabular : regex := L "\end{tabular}".

(** The loop of [has_nested_tabulars]; the state is [(open_tabulars, pos)].
    [None]: the loop is still running after [fuel] iterations. *)
Fixpoint has_nested_loop (fuel : nat) (tex : str) (open_tabulars : Z)
         (pos : nat) : option bool :=
  if pos <? length tex then
    let begin_pos :=
      option_map (fun m => pos + m_start m)
                 (search begin_tabular (slice_from pos tex) 0) in
    let end_pos :=
      option_map (fun m => pos + m_start m)
                 (search end_tabular (slice_from pos tex) 0) in
    let next (open_tabulars : Z) (pos : nat) :=
      match fuel with
      | 0 => None
      | S fuel' => has_nested_loop fuel' tex open_tabulars pos
      end in
    let on_end :=
      match end_pos with
      | Some e =>
          next (open_tabulars - 1)%Z (e + length (lit "\end{tabular}"))
      | None => Some false
      end in
    match begin_pos with
    | Some b =>
        if match end_pos with None => true | Some e => b <? e end then
          let open_tabulars := (open_tabulars + 1)%Z in
          if (1 <? open_tabulars)%Z then Some true
          else next open_tabulars (b + length (lit "\begin{tabular}"))
        else on_end
    | None => on_end
    end
  else Some false.

Definition has_nested_tabulars (tex : str) : bool :=
  match has_nested_loop (length tex) tex 0%Z 0 with
  | Some b => b
  | None => false
  end.

Definition scalebox_open : regex :=
  (L "\scalebox{" >> Star (not_c "}") >> L "}{")%re.
Definition scalebox_full : regex :=
  (L "\scalebox{" >> Star (not_c "}") >> L "}{" >> Grp 1 (Lazy dotall) >>
   L "}")%re.

(** The [while True] loop that removes [\scalebox]:
<<
        while True:
            scalebox_match = re.search(r'\\scalebox\{[^\}]*\}\{', inner)
            if not scalebox_match:
                break
            inner = re.sub(r'\\scalebox\{[^\}]*\}\{(.*?)\}', r'\1', inner,
                           flags=re.DOTALL)
>>
    [None]: the loop is still running after [fuel] iterations. *)
Fixpoint scalebox_loop (fuel : nat) (inner : str) : option str :=
  match search scalebox_open inner 0 with
  | None => Some inner
  | Some _ =>
      match fuel with
      | 0 => None
      | S fuel' => scalebox_loop fuel' (sub scalebox_full (group_str 1) inner)
      end
  end.

Definition tabular_env : regex :=
  (L "\begin{tabular}{" >> Lazy dotall >> L "}" >> Grp 1 (Lazy dotall) >>
   L "\end{tabular}")%re.
Definition booktabs_rule : regex :=
  (L "\toprule" |/ L "\midrule" |/ L "\bottomrule")%re.
Definition cmidrule : regex :=
  (L "\cmidrule{" >> Star (not_c "}") >> L "}")%re.
Definition row_sep : regex := L "\\".
Definition textcolor : regex :=
  (L "\textcolor{" >> Star (not_c "}") >> L "}{" >> Grp 1 (Lazy dot) >> L "}")%re.
Definition cell_textbf : regex := (L "\textbf{" >> Grp 1 (Lazy dot) >> L "}")%re.
Definition cell_emph : regex := (L "\emph{" >> Grp 1 (Lazy dot) >> L "}")%re.

(** The cells of one row [r] of a tabular. *)
Definition row_cells (r : str) : list str :=
  let r := sub textcolor (group_str 1) r in
  let r := sub cell_textbf (fun m => lit "**" ++ group_str 1 m ++ lit "**") r in
  let r := sub cell_emph (fun m => lit "*" ++ group_str 1 m ++ lit "*") r in
  let r := replace (lit "\\") (lit "\") (replace (lit "\&") (lit "&") r) in
  map strip (str_split (lit "&") r).

(** One line of a pipe table: ["| " + " | ".join(row) + " |\n"]. *)
Definition md_line (row : list str) : str :=
  lit "| " ++ join (lit " | ") row ++ lit " |" ++ [nl].

(** The body of the loop over [table_rows[1:]]: the row as it is rendered. *)
Definition fit_row (num_cols : nat) (row : list str) : list str :=
  if length row <? num_cols then row ++ repeat [] (num_cols - length row)
  else if num_cols <? length row then firstn num_cols row
  else row.

(** Lines 211-220; [None] stands for the [IndexError] of [table_rows[0]]. *)
Definition render_table (table_rows : list (list str)) : option str :=
  match table_rows with
  | [] => None
  | header :: rest =>
      let num_cols := length header in
      let md_table := [nl; nl] ++ md_line header in
      let md_table := md_table ++ md_line (repeat (lit "---") num_cols) in
      let md_table :=
        fold_left (fun md row => md ++ md_line (fit_row num_cols row))
                  rest md_table in
      Some (md_table ++ [nl; nl])
  end.

(** The list [rows] of the loop over [tabulars], stripped and without the
    empty ones. *)
Definition tabular_rows (tabular : rmatch) : list str :=
  let tabular_content := group_str 1 tabular in
  let tabular_content := sub booktabs_rule (fun _ => []) tabular_content in
  let tabular_content := sub cmidrule (fun _ => []) tabular_content in
  let rows := split row_sep tabular_content in
  map strip (filter (fun r => nonempty (strip r)) rows).

(** The body of the loop over [tabulars]: [Some None] stands for [continue],
    [None] for an exception. *)
Definition tabular_to_md (tabular : rmatch) : option (option str) :=
  match tabular_rows tabular with
  | [] => Some None
  | rows =>
      match render_table (map row_cells rows) with
      | Some md_table => Some (Some md_table)
      | None => None
      end
  end.

(** What [convert_tabular_to_markdown] returns: [None] or a string. *)
Inductive conversion : Type :=
| NestedTabulars                 (* [return None] *)
| Converted (md : str).

(** The results of the loop over [tabulars]; [None] when an iteration raised. *)
Fixpoint collect_tables (l : list (option (option str))) : option (list str) :=
  match l with
  | [] => Some []
  | None :: _ => None
  | Some None :: l' => collect_tables l'
  | Some (Some md) :: l' =>
      match collect_tables l' with
      | Some mds => Some (md :: mds)
      | None => None
      end
  end.

(** [None]: the [\scalebox] loop is still running after [fuel] iterations. *)
Definition convert_tabular_to_markdown (fuel : nat) (inner : str)
  : option conversion :=
  match scalebox_loop fuel inner with
  | None => None
  | Some inner =>
      if has_nested_tabulars inner then Some NestedTabulars
      else
        match finditer tabular_env inner with
        | [] => Some (Converted [])
        | tabulars =>
            match collect_tables (map tabular_to_md tabulars) with
            | Some md_tables => Some (Converted (concat md_tables))
            | None => Some (Converted [])    (* [except Exception] *)
            end
        end
  end.

Fixpoint remove_captions_loop (fuel : nat) (tex : str) (start_idx : nat)
         (out : str) : option str :=
  match search cap_start_pattern tex start_idx with
  | None => Some (out ++ slice_from start_idx tex)
  | Some cmatch =>
      let out := out ++ slice start_idx (m_start cmatch) tex in
      let (pos, _) := brace_scan tex (m_end cmatch) in
      match fuel with
      | 0 => None
      | S fuel' => remove_captions_loop fuel' tex pos out
      end
  end.

Definition remove_captions_and_labels (tex : str) : str :=
  let out :=
    match remove_captions_loop (length tex) tex 0 [] with
    | Some out => out
    | None => []
    end in
  sub label_marker (fun _ => []) out.

Definition nested_source : regex :=
  (L "\begin{tabular}" >> Lazy dotall >> L "\end{tabular}")%re.

Definition labels_str (labels : list str) : str :=
  join [sp] (map label_md labels).

(** The three results of [table_repl]. *)
Definition table_fenced (full_caption : str) (labels : list str) (body : str)
  : str :=
  [nl; nl] ++ lit "**Table:** " ++ full_caption ++ [sp] ++ labels_str labels ++
  [nl; nl] ++ lit "```latex" ++ [nl] ++ body ++ [nl] ++ lit "```" ++ [nl; nl].

Definition table_markdown (full_caption : str) (labels : list str)
           (markdown_table : str) : str :=
  [nl; nl] ++ lit "**Table:** " ++ full_caption ++ [sp] ++ labels_str labels ++
  [nl; nl] ++ markdown_table ++ [nl].

Definition table_repl (fuel : nat) (m : rmatch) : option str :=
  let entire_table := group_str 1 m in
  let captions := extract_captions entire_table in
  let full_caption := strip (join [sp] captions) in
  let full_caption := apply_inline_formats full_caption in
  let labels := findall1 label_pattern entire_table in
  match convert_tabular_to_markdown fuel entire_table with
  | None => None
  | Some NestedTabulars =>
      let tabulars := findall0 nested_source entire_table in
      let tabular_content := join [nl] tabulars in
      Some (table_fenced full_caption labels tabular_content)
  | Some (Converted markdown_table) =>
      if nonempty markdown_table
      then Some (table_markdown full_caption labels markdown_table)
      else
        let cleaned_table := remove_captions_and_labels entire_table in
        Some (table_fenced full_caption labels cleaned_table)
  end.

Definition table_env : regex :=
  Grp 1 (L "\begin{table" >> Lazy dotall >> L "}" >> Lazy dotall >>
         L "\end{table" >> Lazy dotall >> L "}")%re.

(** [pattern.sub(repl, text)] for a [repl] that may not return. *)
Fixpoint sub_pieces (repl : rmatch -> option str) (ps : list piece)
  : option str :=
  match ps with
  | [] => Some []
  | Gap c :: ps' => option_map (cons c) (sub_pieces repl ps')
  | Hit m :: ps' =>
      match repl m with
      | Some s => option_map (app s) (sub_pieces repl ps')
      | None => None
      end
  end.

Definition sub_partial (r : regex) (repl : rmatch -> option str) (text : str)
  : option str :=
  sub_pieces repl (scan r text).

Definition replace_tables (fuel : nat) (text : str) : option str :=
  sub_partial table_env (table_repl fuel) text.

Definition eq_env : regex :=
  (L "\begin{equation}" >> Grp 1 (Lazy dotall) >> L "\end{equation}")%re.
Definition eq_label : regex := (Grp 1 label_marker >> Star isspace)%re.

Definition eq_repl (m : rmatch) : str :=
  let eq_text := strip (group_str 1 m) in
  let eq_text := sub eq_label (fun m => group_str 1 m ++ [nl]) eq_text in
  [nl; nl] ++ lit "$$" ++ [nl] ++ eq_text ++ [nl] ++ lit "$$" ++ [nl; nl].

Definition replace_equations (text : str) : str := sub eq_env eq_repl text.

Definition sec_pattern : regex :=
  (L "\" >>
   Grp 1 (L "section" |/ L "subsection" |/ L "subsubsection" |/
          L "paragraph" |/ L "runningtitle") >>
   Opt (L "*") >> L "{" >> Grp 2 (Lazy dotall) >> L "}" >>
   Opt (Star isspace >> L "\label{" >> Grp 3 (Plus (not_c "}")) >> L "}"))%re.

Definition level_map : list (str * nat) :=
  [ (lit "section", 1); (lit "subsection", 2); (lit "subsubsection", 3);
    (lit "paragraph", 4); (lit "runningtitle", 1) ].

(** [d.get(key, default)] *)
Fixpoint dict_get {V : Type} (d : list (str * V)) (key : str) (default : V) : V :=
  match d with
  | [] => default
  | (k, v) :: d' => if str_eqb k key then v else dict_get d' key default
  end.

Definition sec_repl (m : rmatch) : str :=
  let level := dict_get level_map (group_str 1 m) 2 in
  let title := strip (group_str 2 m) in
  let label := group 3 m in
  let markdown := [nl; nl] ++ concat (repeat (lit "#") level) ++ [sp] ++ title in
  let markdown :=
    match label with
    | Some ((_ :: _) as label) => markdown ++ [nl] ++ lit "\label{" ++ label ++ lit "}"
    | _ => markdown
    end in
  markdown ++ [nl; nl].

Definition replace_headings (text : str) : str := sub sec_pattern sec_repl text.

Definition item_sep : regex := L "\item".
Definition list_options : regex :=
  Opt (Grp 1 (L "[" >> Star (not_c "]") >> L "]"))%re.
Definition enum_env : regex :=
  (L "\begin{enumerate}" >> list_options >> Grp 2 (Lazy dotall) >>
   L "\end{enumerate}")%re.
Definition item_env : regex :=
  (L "\begin{itemize}" >> list_options >> Grp 2 (Lazy dotall) >>
   L "\end{itemize}")%re.

(** [str(idx)] *)
Definition str_of_nat (n : nat) : str :=
  lit (DecimalString.NilEmpty.string_of_uint (Nat.to_uint n)).

Definition list_items (inner : str) : list str :=
  map strip (filter (fun i => nonempty (strip i)) (split item_sep inner)).

Fixpoint enum_lines (idx : nat) (items : list str) : str :=
  match items with
  | [] => []
  | it :: items' =>
      str_of_nat idx ++ lit ". " ++ apply_inline_formats it ++ [nl] ++
      enum_lines (S idx) items'
  end.

Definition enum_repl (m : rmatch) : str :=
  let items := list_items (group_str 2 m) in
  [nl; nl] ++ enum_lines 1 items ++ [nl].

Definition item_repl (m : rmatch) : str :=
  let items := list_items (group_str 2 m) in
  [nl; nl] ++
  flat_map (fun it => lit "- " ++ apply_inline_formats it ++ [nl]) items ++
  [nl].

Definition stray_item : regex := (L "\item" >> Plus isspace)%re.

Definition replace_lists (text : str) : str :=
  let text := sub enum_env enum_repl text in
  let text := sub item_env item_repl text in
  sub stray_item (fun _ => [nl] ++ lit "- ") text.

(** ** formats.py *)

Fixpoint alts (l : list regex) : regex :=
  match l with
  | [] => Lit []
  | [r] => r
  | r :: l' => Alt r (alts l')
  end.

Fixpoint remove_command_loop (fuel : nat) (pattern : regex) (text : str)
         (pos : nat) (result : list str) : option (list str) :=
  match search pattern text pos with
  | None => Some (result ++ [slice_from pos text])
  | Some cmatch =>
      let start := m_start cmatch in
      let result := result ++ [slice pos start text] in
      let (i, _) := brace_scan text (m_end cmatch) in
      match fuel with
      | 0 => None
      | S fuel' => remove_command_loop fuel' pattern text i result
      end
  end.

Definition _remove_latex_command (text : str) (command : string) : str :=
  let pattern := (L "\" >> L command >> L "{")%re in
  match remove_command_loop (length text) pattern text 0 [] with
  | Some result => concat result
  | None => text
  end.

Definition commands_to_remove : list string :=
  [ "vspace"; "hspace"; "bigskip"; "smallskip"; "medskip"; "ignore";
    "bibliographystyle" ]%string.
Definition commands_to_replace_newline : list string :=
  [ "newpage"; "pagebreak"; "linebreak"; "clearpage"; "cleardoublepage" ]%string.

Definition remove_leftover_commands (text : str) : str :=
  let text := fold_left _remove_latex_command commands_to_remove text in
  let remove_pattern :=
    (L "\" >> alts (map L commands_to_remove) >> Star isspace)%re in
  let text := sub remove_pattern (fun _ => []) text in
  let replace_newline_pattern :=
    (L "\" >> alts (map L commands_to_replace_newline) >> Star isspace)%re in
  let text := sub replace_newline_pattern (fun _ => [nl; nl]) text in
  sub (AtLeast 3 (N.eqb nl)) (fun _ => [nl; nl]) text.

Definition formatting_cmds : regex :=
  (L "\" >>
   Grp 1 (alts (map L [ "vspace"; "hspace"; "bigskip"; "newpage"; "smallskip";
                        "medskip"; "pagebreak"; "linebreak"; "clearpage";
                        "cleardoublepage" ]%string)) >>
   Opt (Grp 2 (L "[" >> Star (not_c "]") >> L "]")) >>
   Opt (Grp 3 (L "{" >> Star (not_c "}") >> L "}")))%re.

Definition remove_formatting_cmds (text : str) : str :=
  sub formatting_cmds (fun _ => [sp]) text.

Definition space_or_tab (c : char) : bool := N.eqb c sp || N.eqb c tab.

(** [[ \t]*\n[ \t]*], [ {2,}] and [\n{3,}] *)
Definition around_newline : regex :=
  (Star space_or_tab >> Lit [nl] >> Star space_or_tab)%re.
Definition spaces2 : regex := AtLeast 2 (N.eqb sp).
Definition newlines3 : regex := AtLeast 3 (N.eqb nl).

Definition final_cleanup (text : str) : str :=
  let text := sub around_newline (fun _ => [nl]) text in
  let text := sub spaces2 (fun _ => [sp]) text in
  let text := sub newlines3 (fun _ => [nl; nl]) text in
  strip text ++ [nl].

(** ** main.py *)

(** [clean_latex_file] from the content that [read_input] returns to the
    document that [write_output] receives.  [None]: the transformation is
    still running when [fuel] is used up. *)
Definition clean_latex_file (fuel : nat) (content : str) : option str :=
  let content := preprocess_abstract content in
  let '(content, title, authors) := extract_title_authors content in
  let document_content := extract_document_content content in
  let document_content := remove_comments document_content in
  let document_content := replace_maketitle document_content title authors in
  let document_content := replace_figures document_content in
  match replace_tables fuel document_content with
  | None => None
  | Some document_content =>
      let document_content := replace_equations document_content in
      let document_content := replace_headings document_content in
      let document_content := replace_lists document_content in
      let document_content := apply_inline_formats document_content in
      let document_content := remove_leftover_commands document_content in
      let document_content := remove_formatting_cmds document_content in
      Some (final_cleanup document_content)
  end.

(** ** codesplit.py *)

(** The line boundaries of [str.splitlines]: [\n], [\v], [\f], [\r],
    [\x1c], [\x1d], [\x1e], [\x85], [\u2028] and [\u2029]. *)
Definition is_linebreak (c : char) : bool :=
  N.eqb c 10 || N.eqb c 11 || N.eqb c 12 || N.eqb c 13 || N.eqb c 28 ||
  N.eqb c 29 || N.eqb c 30 || N.eqb c 133 || N.eqb c 8232 || N.eqb c 8233.

(** [s.splitlines()]: [\r\n] is one boundary, and a boundary at the end of
    the text opens no further line; [cur] is the current line, reversed. *)
Fixpoint splitlines_go (cur s : str) : list str :=
  match s with
  | [] => match cur with [] => [] | _ :: _ => [rev cur] end
  | c :: s' =>
      if is_linebreak c then
        rev cur ::
        (if N.eqb c cr then
           match s' with
           | d :: s'' =>
               if N.eqb d nl then splitlines_go [] s'' else splitlines_go [] s'
           | [] => splitlines_go [] s'
           end
         else splitlines_go [] s')
      else splitlines_go (c :: cur) s'
  end.

Definition splitlines (s : str) : list str := splitlines_go [] s.

(** One iteration of the loop of [split_content_into_blocks]; the state is
    [(blocks, current_block)]. *)
Definition block_step (block_size : Z) (st : list str * list str) (line : str)
  : list str * list str :=
  let (blocks, current_block) := st in
  let current_block := current_block ++ [line] in
  let block_len := Z.of_nat (length current_block) in
  if ((block_size <=? block_len) && (block_len <? block_size * 3))%Z then
    if negb (nonempty (strip line))
    then (blocks ++ [join [nl] current_block], [])
    else (blocks, current_block)
  else if (block_size * 3 <=? block_len)%Z
  then (blocks ++ [join [nl] current_block], [])
  else (blocks, current_block).

Definition split_content_into_blocks (content : str) (block_size : Z)
  : list str :=
  let lines := splitlines content in
  let (blocks, current_block) :=
    fold_left (block_step block_size) lines ([], []) in
  match current_block with
  | [] => blocks
  | _ :: _ => blocks ++ [join [nl] current_block]
  end.

(** ** Descriptions used in the statements *)

(** The label marker at the beginning of [s], when there is one: its
    argument and the text after the marker. *)
Definition marker_at (s : str) : option (str * str) :=
  match eat (lit "\label{") s with
  | Some (c :: t) =>
      if not_c "}" c then
        match eat (lit "}") (drop_while (not_c "}") t) with
        | Some rest => Some (c :: take_while (not_c "}") t, rest)
        | None => None
        end
      else None
  | _ => None
  end.

(** The text [s] read from the left: a label marker is copied, followed by
    one newline, and the reading goes on after the whitespace that follows
    the marker; any other character is copied.  [fuel] bounds the number of
    steps; [length s] is enough.  The substitution of [eq_repl] is compared
    with this description. *)
Fixpoint break_after_labels (fuel : nat) (s : str) : str :=
  match fuel with
  | 0 => []
  | S fuel' =>
      match marker_at s with
      | Some (x, rest) =>
          lit "\label{" ++ x ++ lit "}" ++ [nl] ++
          break_after_labels fuel' (lstrip rest)
      | None =>
          match s with
          | [] => []
          | c :: s' => c :: break_after_labels fuel' s'
          end
      end
  end.

(** The whitespace passes of [remove_comments], from the text without its
    comments to the text that is stripped. *)
Definition fold_whitespace (text : str) : str :=
  let text := sub (Lit [cr; nl]) (fun _ => [nl]) text in
  let text := sub (AtLeast 3 (N.eqb nl)) (fun _ => [nl; nl]) text in
  let text := replace [nl; nl] PARA_BREAK text in
  let text := sub (Lit [nl]) (fun _ => [sp]) text in
  sub (Plus isspace) (fun _ => [sp]) text.

(** No proper end of [l] is a beginning of [l]. *)
Definition borderless (l : str) : bool :=
  forallb (fun k => negb (str_eqb (firstn k l) (skipn (length l - k) l)))
          (seq 1 (length l - 1)).

(** * Properties *)

(** ** Loops *)

Section WhileLoop.
Context {St : Type}.
Variables (cond : St -> bool) (body : St -> St).

(** A loop whose body decreases a measure stops within that many
    iterations, in the state reached by iterating the body; an invariant
    of the body holds in that state. *)
Lemma while_loop_measure (mu : St -> nat) (Inv : St -> Prop) :
  (forall st, cond st = true -> mu (body st) < mu st) ->
  (forall st, Inv st -> cond st = true -> Inv (body st)) ->
  forall fuel st, mu st <= fuel -> Inv st ->
  exists n, n <= mu st /\
            while_loop fuel cond body st = Some (Nat.iter n body st, n) /\
            cond (Nat.iter n body st) = false /\
            Inv (Nat.iter n body st).
Proof.
  intros Hdec Hinv fuel.
  induction fuel as [|fuel IH]; intros st Hmu Hst.
  - exists 0. simpl. destruct (cond st) eqn:Hc.
    + apply Hdec in Hc. lia.
    + repeat split; auto; lia.
  - simpl. destruct (cond st) eqn:Hc.
    + pose proof (Hdec st Hc) as Hlt.
      destruct (IH (body st)) as (n & Hn & Hrun & Hstop & Hfin);
        [lia | auto |].
      exists (S n). rewrite Hrun.
      replace (Nat.iter (S n) body st) with (Nat.iter n body (body st))
        by (symmetry; apply Nat.iter_succ_r).
      repeat split; auto; lia.
    + exists 0. simpl. repeat split; auto; lia.
Qed.
End WhileLoop.

Lemma scan_body_fst (text : str) (st : scan_state) :
  fst (scan_body text st) = fst st + 1.
Proof. destruct st as [i l]. reflexivity. Qed.

Lemma scan_iter_fst (text : str) (n : nat) (st : scan_state) :
  fst (Nat.iter n (scan_body text) st) = fst st + n.
Proof.
  induction n as [|n IH]; simpl.
  - lia.
  - rewrite scan_body_fst, IH. lia.
Qed.

(** The brace level never goes below zero while the loop runs. *)
Lemma scan_body_level (text : str) (st : scan_state) :
  (0 <= snd st)%Z -> scan_cond text st = true ->
  (0 <= snd (scan_body text st))%Z.
Proof.
  destruct st as [i l]. unfold scan_cond, scan_body. cbn [fst snd].
  intros _ H. apply andb_prop in H. destruct H as [_ H].
  apply Z.ltb_lt in H.
  destruct (nth_error text i) as [c|]; [|lia].
  destruct (N.eqb c (ch "{")); [lia|].
  destruct (N.eqb c (ch "}")); lia.
Qed.

Lemma brace_loop_run (text : str) (start : nat) :
  exists n,
    n <= length text - start /\
    brace_loop (length text) text start =
      Some (Nat.iter n (scan_body text) (start, 1%Z), n) /\
    scan_cond text (Nat.iter n (scan_body text) (start, 1%Z)) = false /\
    (0 <= snd (Nat.iter n (scan_body text) (start, 1%Z)))%Z.
Proof.
  unfold brace_loop.
  destruct (@while_loop_measure _ (scan_cond text) (scan_body text)
              (fun st => length text - fst st) (fun st => (0 <= snd st)%Z))
    with (fuel := length text) (st := (start, 1%Z))
    as (n & Hn & Hrun & Hstop & Hinv).
  - intros st Hc. rewrite scan_body_fst.
    unfold scan_cond in Hc. apply andb_prop in Hc. destruct Hc as [Hc _].
    apply Nat.ltb_lt in Hc. lia.
  - apply scan_body_level.
  - simpl. lia.
  - simpl. lia.
  - exists n. simpl in Hn. auto.
Qed.

(** What the callers use of the loop: where it stopped. *)
Lemma brace_scan_spec (text : str) (start : nat) :
  exists n,
    n <= length text - start /\
    brace_scan text start = (start + n, snd (brace_scan text start)) /\
    scan_cond text (brace_scan text start) = false /\
    (0 <= snd (brace_scan text start))%Z.
Proof.
  destruct (brace_loop_run text start) as (n & Hn & Hrun & Hstop & Hinv).
  exists n. unfold brace_scan. rewrite Hrun.
  repeat split; auto.
  rewrite (surjective_pairing (Nat.iter n (scan_body text) (start, 1%Z))) at 1.
  rewrite scan_iter_fst. reflexivity.
Qed.

(** C1.  The brace-scanning loop of the title, author and caption extraction:
    each iteration moves the cursor by exactly one character, and from every
    start position the loop stops after at most [length text] iterations
    (at most [length text - start]), with the cursor at [start] plus the
    number of iterations; it stops either with the braces balanced (level 0)
    or, for unbalanced braces, at the end of the text. *)
Theorem brace_loop_terminates (text : str) (start : nat) :
  (forall st, fst (scan_body text st) = fst st + 1) /\
  exists (i : nat) (brace_level : Z) (n : nat),
    brace_loop (length text) text start = Some ((i, brace_level), n) /\
    brace_scan text start = (i, brace_level) /\
    n <= length text - start /\ n <= length text /\
    i = start + n /\
    (brace_level = 0%Z \/ (0 < brace_level)%Z /\ length text <= i).
Proof.
  split; [apply scan_body_fst|].
  destruct (brace_loop_run text start) as (n & Hn & Hrun & Hstop & Hinv).
  unfold brace_scan. rewrite Hrun.
  destruct (Nat.iter n (scan_body text) (start, 1%Z)) as [i l] eqn:Hit.
  exists i, l, n.
  assert (Hi : i = start + n).
  { change i with (fst (i, l)). rewrite <- Hit, scan_iter_fst. reflexivity. }
  repeat split; auto; try lia.
  unfold scan_cond in Hstop. simpl in *.
  apply andb_false_iff in Hstop. destruct Hstop as [H|H].
  - apply Nat.ltb_ge in H. destruct (Z.eq_dec l 0); [left; auto | right; lia].
  - apply Z.ltb_ge in H. left. lia.
Qed.

(** ** Strings *)

(** [a] occurs in [s]. *)
Definition substr (a s : str) : Prop := exists p q, s = p ++ a ++ q.

Lemma eat_app (l s : str) : eat l (l ++ s) = Some s.
Proof.
  induction l as [|a l IH]; simpl; auto.
  rewrite N.eqb_refl. exact IH.
Qed.

Lemma eat_some (l s s' : str) : eat l s = Some s' -> s = l ++ s'.
Proof.
  revert s. induction l as [|a l IH]; intros s H; simpl in *.
  - congruence.
  - destruct s as [|c s]; [discriminate|].
    destruct (N.eqb_spec a c); [|discriminate].
    subst. f_equal. auto.
Qed.

Lemma contains_substr (a s : str) : contains a s = true <-> substr a s.
Proof.
  split.
  - induction s as [|c s IH]; simpl.
    + destruct (eat a []) as [l|] eqn:E; [|discriminate]. intros _.
      apply eat_some in E. exists [], l. exact E.
    + destruct (eat a (c :: s)) as [l|] eqn:E.
      * intros _. apply eat_some in E. exists [], l. exact E.
      * intros H. destruct (IH H) as (p & q & ->). exists (c :: p), q. reflexivity.
  - intros (p & q & ->). induction p as [|c p IH].
    + pose proof (eat_app a q) as E. simpl.
      destruct (a ++ q); simpl; rewrite E; reflexivity.
    + simpl. simpl in IH. rewrite IH.
      destruct (eat a (c :: p ++ a ++ q)); reflexivity.
Qed.

Lemma substr_refl (a : str) : substr a a.
Proof. exists [], []. rewrite app_nil_r. reflexivity. Qed.

Lemma substr_trans (a b c : str) : substr a b -> substr b c -> substr a c.
Proof.
  intros (p & q & ->) (p' & q' & ->).
  exists (p' ++ p), (q ++ q'). repeat rewrite <- app_assoc. reflexivity.
Qed.

Lemma substr_app_l (a s t : str) : substr a s -> substr a (s ++ t).
Proof.
  intros (p & q & ->). exists p, (q ++ t). repeat rewrite <- app_assoc. reflexivity.
Qed.

Lemma substr_app_r (a s t : str) : substr a t -> substr a (s ++ t).
Proof.
  intros (p & q & ->). exists (s ++ p), q. repeat rewrite <- app_assoc. reflexivity.
Qed.

Lemma take_drop_while (p : char -> bool) (s : str) :
  take_while p s ++ drop_while p s = s.
Proof.
  induction s as [|c s IH]; simpl; auto.
  destruct (p c); simpl; congruence.
Qed.

Lemma take_while_all (p : char -> bool) (s : str) :
  forallb p (take_while p s) = true.
Proof.
  induction s as [|c s IH]; simpl; auto.
  destruct (p c) eqn:E; simpl; auto. rewrite E. auto.
Qed.

Lemma drop_while_head (p : char -> bool) (s : str) (c : char) (t : str) :
  drop_while p s = c :: t -> p c = false.
Proof.
  induction s as [|d s IH]; simpl; [discriminate|].
  destruct (p d) eqn:E; auto. intros H. inversion H. subst. exact E.
Qed.

Lemma drop_while_app (p : char -> bool) (a s : str) :
  forallb p a = true -> drop_while p (a ++ s) = drop_while p s.
Proof.
  induction a as [|c a IH]; simpl; auto.
  intros H. apply andb_prop in H. destruct H as [Hc Ha]. rewrite Hc. auto.
Qed.

Lemma take_while_app (p : char -> bool) (a s : str) :
  forallb p a = true -> take_while p (a ++ s) = a ++ take_while p s.
Proof.
  induction a as [|c a IH]; simpl; auto.
  intros H. apply andb_prop in H. destruct H as [Hc Ha]. rewrite Hc.
  f_equal. auto.
Qed.

Lemma drop_while_stop (p : char -> bool) (c : char) (s : str) :
  p c = false -> drop_while p (c :: s) = c :: s.
Proof. intros H. simpl. rewrite H. reflexivity. Qed.

Lemma firstn_length_diff (a b : str) :
  firstn (length (a ++ b) - length b) (a ++ b) = a.
Proof.
  rewrite length_app. replace (length a + length b - length b) with (length a) by lia.
  rewrite firstn_app, firstn_all, Nat.sub_diag. simpl. apply app_nil_r.
Qed.

(** ** The matcher *)

Section StarLemmas.
Context {A : Type}.
Variables (p : char -> bool) (k : str -> option A).

(** When what follows cannot start with a character of the class, [p*]
    takes the whole run. *)
Lemma star_greedy_max (s : str) :
  (forall c s', p c = true -> k (c :: s') = None) ->
  star_greedy p k s = k (drop_while p s).
Proof.
  intros Hk. induction s as [|c s IH]; simpl; auto.
  destruct (p c) eqn:E; auto.
  rewrite IH. destruct (k (drop_while p s)) eqn:E'; auto.
Qed.

(** When what follows always succeeds, [p*] takes the whole run. *)
Lemma star_greedy_total (s : str) :
  (forall s', k s' <> None) ->
  star_greedy p k s = k (drop_while p s).
Proof.
  intros Hk. induction s as [|c s IH]; simpl; auto.
  destruct (p c) eqn:E; auto.
  rewrite IH. destruct (k (drop_while p s)) eqn:E'; auto.
  exfalso. eapply Hk; eauto.
Qed.

Lemma star_greedy_some (s : str) (x : A) :
  star_greedy p k s = Some x ->
  exists a b, s = a ++ b /\ forallb p a = true /\ k b = Some x.
Proof.
  revert x. induction s as [|c s IH]; intros x; simpl.
  - intros H. exists [], []. auto.
  - destruct (p c) eqn:E.
    + destruct (star_greedy p k s) eqn:E'.
      * intros H. inversion H. subst.
        destruct (IH x eq_refl) as (a & b & -> & Ha & Hb).
        exists (c :: a), b. simpl. rewrite E. auto.
      * intros H. exists [], (c :: s). auto.
    + intros H. exists [], (c :: s). auto.
Qed.

Lemma star_lazy_some (s : str) (x : A) :
  star_lazy p k s = Some x ->
  exists a b, s = a ++ b /\ forallb p a = true /\ k b = Some x.
Proof.
  revert x. induction s as [|c s IH]; intros x; simpl.
  - destruct (k []) eqn:E; [|discriminate].
    intros H. inversion H. subst. exists [], []. auto.
  - destruct (k (c :: s)) eqn:E.
    + intros H. inversion H. subst. exists [], (c :: s). auto.
    + destruct (p c) eqn:E'; [|discriminate].
      intros H. destruct (IH x H) as (a & b & -> & Ha & Hb).
      exists (c :: a), b. simpl. rewrite E'. auto.
Qed.
End StarLemmas.

(** Whatever a pattern matches is a prefix of the subject, and the
    continuation is run on the rest. *)
Lemma mt_some {A : Type} (text : str) (r : regex) :
  forall (s : str) (g : caps) (k : str -> caps -> option A) (x : A),
    mt text r s g k = Some x ->
    exists m s' g', s = m ++ s' /\ k s' g' = Some x.
Proof.
  induction r as [l | p | p | p | r1 IH1 r2 IH2 | r1 IH1 r2 IH2 | r1 IH1
                 | n r1 IH1 | c]; intros s g k x H; simpl in H.
  - destruct (eat l s) as [s'|] eqn:E; [|discriminate].
    apply eat_some in E. eauto.
  - destruct s as [|c s]; [discriminate|].
    destruct (p c); [|discriminate]. exists [c], s, g. auto.
  - apply star_greedy_some in H. destruct H as (a & b & -> & _ & H). eauto.
  - apply star_lazy_some in H. destruct H as (a & b & -> & _ & H). eauto.
  - apply IH1 in H. destruct H as (m1 & s1 & g1 & -> & H).
    apply IH2 in H. destruct H as (m2 & s2 & g2 & -> & H).
    exists (m1 ++ m2), s2, g2. rewrite <- app_assoc. auto.
  - destruct (mt text r1 s g k) eqn:E.
    + inversion H. subst. eauto.
    + eauto.
  - destruct (mt text r1 s g k) eqn:E.
    + inversion H. subst. eauto.
    + exists [], s, g. auto.
  - apply IH1 in H. destruct H as (m1 & s1 & g1 & -> & H). eauto.
  - exists [], s, g. split; auto.
    destruct (prev_char text s) as [c'|]; auto.
    destruct (N.eqb c' c); [discriminate | auto].
Qed.

Lemma match_here_some (text : str) (r : regex) (s rest : str) (g : caps) :
  match_here text r s = Some (g, rest) -> exists m, s = m ++ rest.
Proof.
  unfold match_here. intros H. apply mt_some in H.
  destruct H as (m & s' & g' & -> & H). inversion H. subst. eauto.
Qed.

(** ** The scan *)

Definition hit (i : nat) (m : str) (g : caps) : piece :=
  Hit (MkMatch i (i + length m) m g).

Lemma scan_go_skip (text : str) (r : regex) (a s : str) (i : nat) :
  scan_go text r (length a) i (a ++ s) = scan_go text r 0 (i + length a) s.
Proof.
  revert i. induction a as [|c a IH]; intros i; simpl.
  - rewrite Nat.add_0_r. destruct s; reflexivity.
  - rewrite IH. f_equal. lia.
Qed.

Lemma scan_go_nil (text : str) (r : regex) (i : nat) :
  match_here text r [] = None -> scan_go text r 0 i [] = [].
Proof. intros H. simpl. rewrite H. reflexivity. Qed.

Lemma scan_go_gap (text : str) (r : regex) (i : nat) (c : char) (s : str) :
  match_here text r (c :: s) = None ->
  scan_go text r 0 i (c :: s) = Gap c :: scan_go text r 0 (S i) s.
Proof. intros H. simpl. rewrite H. reflexivity. Qed.

Lemma scan_go_hit (text : str) (r : regex) (i : nat) (c : char) (m rest : str)
      (g : caps) :
  match_here text r (c :: m ++ rest) = Some (g, rest) ->
  scan_go text r 0 i (c :: m ++ rest) =
    hit i (c :: m) g :: scan_go text r 0 (i + length (c :: m)) rest.
Proof.
  intros H. cbn [scan_go]. rewrite H.
  assert (E : length (c :: m ++ rest) - length rest = S (length m)).
  { replace (length (c :: m ++ rest)) with (S (length m) + length rest)
      by (simpl; rewrite length_app; lia).
    lia. }
  rewrite E.
  pose proof (firstn_length_diff (c :: m) rest) as F.
  change ((c :: m) ++ rest) with (c :: m ++ rest) in F.
  rewrite E in F. rewrite F.
  rewrite scan_go_skip. unfold hit.
  cbn [length]. replace (S i + length m) with (i + S (length m)) by lia. reflexivity.
Qed.

(** ** The table grid (C4) *)

Lemma fit_row_length (num_cols : nat) (row : list str) :
  length (fit_row num_cols row) = num_cols.
Proof.
  unfold fit_row.
  destruct (length row <? num_cols) eqn:E1.
  - apply Nat.ltb_lt in E1. rewrite length_app, repeat_length. lia.
  - apply Nat.ltb_ge in E1. destruct (num_cols <? length row) eqn:E2.
    + apply Nat.ltb_lt in E2. rewrite length_firstn. lia.
    + apply Nat.ltb_ge in E2. lia.
Qed.

(** Padding and truncation in one formula. *)
Lemma fit_row_pad_truncate (num_cols : nat) (row : list str) :
  fit_row num_cols row =
    firstn num_cols row ++ repeat [] (num_cols - length row).
Proof.
  unfold fit_row.
  destruct (length row <? num_cols) eqn:E1.
  - apply Nat.ltb_lt in E1. rewrite firstn_all2 by lia. reflexivity.
  - apply Nat.ltb_ge in E1.
    replace (num_cols - length row) with 0 by lia. simpl. rewrite app_nil_r.
    destruct (num_cols <? length row) eqn:E2; auto.
    apply Nat.ltb_ge in E2. rewrite firstn_all2 by lia. reflexivity.
Qed.

Lemma fold_left_append {X : Type} (f : X -> str) (l : list X) (acc : str) :
  fold_left (fun md x => md ++ f x) l acc = acc ++ flat_map f l.
Proof.
  revert acc. induction l as [|x l IH]; intros acc; simpl.
  - symmetry. apply app_nil_r.
  - rewrite IH, <- app_assoc. reflexivity.
Qed.

Lemma flat_map_map {X Y : Type} (g : X -> Y) (f : Y -> str) (l : list X) :
  flat_map f (map g l) = flat_map (fun x => f (g x)) l.
Proof. induction l as [|x l IH]; simpl; congruence. Qed.

(** The text of a pipe table with the given header and the given rows. *)
Definition pipe_table (header : list str) (rows : list (list str)) : str :=
  [nl; nl] ++ md_line header ++ md_line (repeat (lit "---") (length header)) ++
  flat_map md_line rows ++ [nl; nl].

Lemma render_table_rows (header : list str) (rest : list (list str)) :
  render_table (header :: rest) =
    Some (pipe_table header (map (fit_row (length header)) rest)).
Proof.
  unfold render_table, pipe_table. rewrite fold_left_append.
  rewrite flat_map_map.
  repeat rewrite <- app_assoc. reflexivity.
Qed.


(** ** [strip] *)

Lemma rstrip_snoc (s : str) (c : char) :
  rstrip (s ++ [c]) = if isspace c then rstrip s else s ++ [c].
Proof.
  unfold rstrip, lstrip. rewrite rev_app_distr. simpl.
  destruct (isspace c); auto.
  simpl. rewrite rev_involutive. reflexivity.
Qed.

Lemma rstrip_nil : rstrip [] = [].
Proof. reflexivity. Qed.

Lemma rstrip_cons (h : char) (u : str) :
  isspace h = false -> rstrip (h :: u) = h :: rstrip u.
Proof.
  intros Hh. induction u as [|c u IH] using rev_ind.
  - unfold rstrip, lstrip. simpl. rewrite Hh. reflexivity.
  - change (h :: u ++ [c]) with ((h :: u) ++ [c]).
    rewrite !rstrip_snoc. destruct (isspace c); auto.
Qed.

(** [rstrip] cuts a run of whitespace off the end. *)
Lemma rstrip_split (s : str) :
  exists w, s = rstrip s ++ w /\ forallb isspace w = true.
Proof.
  induction s as [|c s IH] using rev_ind.
  - exists []. auto.
  - rewrite rstrip_snoc. destruct (isspace c) eqn:E.
    + destruct IH as (w & Hs & Hw). exists (w ++ [c]). split.
      * rewrite app_assoc, <- Hs. reflexivity.
      * rewrite forallb_app, Hw. simpl. rewrite E. reflexivity.
    + exists []. rewrite app_nil_r. auto.
Qed.

Lemma rstrip_last (s a : str) (c : char) :
  rstrip s = a ++ [c] -> isspace c = false.
Proof.
  unfold rstrip, lstrip. intros H.
  apply (f_equal (@rev char)) in H. rewrite rev_involutive, rev_app_distr in H.
  simpl in H. eapply drop_while_head; eauto.
Qed.

Lemma rstrip_fixed (a : str) (c : char) :
  isspace c = false -> rstrip (a ++ [c]) = a ++ [c].
Proof. intros H. rewrite rstrip_snoc, H. reflexivity. Qed.

Lemma rstrip_idem (s : str) : rstrip (rstrip s) = rstrip s.
Proof.
  destruct (rstrip s) as [|c t] eqn:E using rev_ind; [reflexivity|].
  apply rstrip_fixed. eapply rstrip_last; eauto.
Qed.

Lemma lstrip_split (s : str) :
  exists w, s = w ++ lstrip s /\ forallb isspace w = true.
Proof.
  exists (take_while isspace s). split.
  - symmetry. apply take_drop_while.
  - apply take_while_all.
Qed.

Lemma lstrip_fixed (c : char) (s : str) :
  isspace c = false -> lstrip (c :: s) = c :: s.
Proof. apply drop_while_stop. Qed.

(** A stripped string is empty, or begins and ends with characters that are
    not whitespace. *)
Inductive trimmed : str -> Prop :=
| trimmed_nil : trimmed []
| trimmed_one (c : char) : isspace c = false -> trimmed [c]
| trimmed_more (c d : char) (s : str) :
    isspace c = false -> isspace d = false -> trimmed (c :: s ++ [d]).

Lemma strip_trimmed (s : str) : trimmed (strip s).
Proof.
  unfold strip. destruct (lstrip s) as [|h u] eqn:E.
  - constructor.
  - pose proof (drop_while_head _ _ E) as Hh.
    rewrite rstrip_cons by exact Hh.
    destruct (rstrip u) as [|d t] eqn:E' using rev_ind.
    + constructor. exact Hh.
    + constructor; auto. eapply rstrip_last; eauto.
Qed.

Lemma trimmed_strip (s : str) : trimmed s -> strip s = s.
Proof.
  intros H. unfold strip. destruct H as [|c Hc|c d s Hc Hd].
  - reflexivity.
  - rewrite lstrip_fixed by auto. change [c] with ([] ++ [c]).
    apply rstrip_fixed. auto.
  - rewrite lstrip_fixed by auto.
    change (c :: s ++ [d]) with ((c :: s) ++ [d]). apply rstrip_fixed. auto.
Qed.

Lemma strip_idem (s : str) : strip (strip s) = strip s.
Proof. apply trimmed_strip, strip_trimmed. Qed.

(** What [strip] removes is whitespace on both sides. *)
Lemma strip_split (s : str) :
  exists w1 w2, s = w1 ++ strip s ++ w2 /\
                forallb isspace w1 = true /\ forallb isspace w2 = true.
Proof.
  destruct (lstrip_split s) as (w1 & H1 & Hw1).
  destruct (rstrip_split (lstrip s)) as (w2 & H2 & Hw2).
  exists w1, w2. unfold strip. rewrite <- H2. auto.
Qed.

(** ** Headings (C8) and authors (C9) *)

(** C8.  The depth of each sectioning command, the same heading for the
    starred form of each command, and the heading of
    [\section{Intro}\label{sec:intro}]: [# Intro] with the label marker on
    the next line. *)
Theorem heading_levels :
  dict_get level_map (lit "section") 2 = 1 /\
  dict_get level_map (lit "subsection") 2 = 2 /\
  dict_get level_map (lit "subsubsection") 2 = 3 /\
  dict_get level_map (lit "paragraph") 2 = 4 /\
  dict_get level_map (lit "runningtitle") 2 = 1 /\
  replace_headings (lit "\section{Intro}\label{sec:intro}") =
    [nl; nl] ++ lit "# Intro" ++ [nl] ++ lit "\label{sec:intro}" ++ [nl; nl] /\
  map replace_headings
      [ lit "\section{T}"; lit "\subsection{T}"; lit "\subsubsection{T}";
        lit "\paragraph{T}"; lit "\runningtitle{T}" ] =
    [ [nl; nl] ++ lit "# T" ++ [nl; nl]; [nl; nl] ++ lit "## T" ++ [nl; nl];
      [nl; nl] ++ lit "### T" ++ [nl; nl]; [nl; nl] ++ lit "#### T" ++ [nl; nl];
      [nl; nl] ++ lit "# T" ++ [nl; nl] ] /\
  map replace_headings
      [ lit "\section*{T}"; lit "\subsection*{T}"; lit "\subsubsection*{T}";
        lit "\paragraph*{T}"; lit "\runningtitle*{T}" ] =
    [ [nl; nl] ++ lit "# T" ++ [nl; nl]; [nl; nl] ++ lit "## T" ++ [nl; nl];
      [nl; nl] ++ lit "### T" ++ [nl; nl]; [nl; nl] ++ lit "#### T" ++ [nl; nl];
      [nl; nl] ++ lit "# T" ++ [nl; nl] ].
Proof. repeat split; vm_compute; reflexivity. Qed.


(** ** The [\scalebox] loop (C2) *)

(** An iteration that finds a [\scalebox] and removes none leaves the loop
    where it was: the loop does not end. *)
Lemma scalebox_loop_stuck (inner : str) :
  search scalebox_open inner 0 <> None ->
  sub scalebox_full (group_str 1) inner = inner ->
  forall fuel, scalebox_loop fuel inner = None.
Proof.
  intros Hfound Hsame fuel. induction fuel as [|fuel IH]; simpl.
  - destruct (search scalebox_open inner 0); [reflexivity | congruence].
  - destruct (search scalebox_open inner 0); [|congruence].
    rewrite Hsame. exact IH.
Qed.

(** A table whose second [\scalebox] has an argument that is never closed. *)
Definition unbalanced_scalebox : str :=
  lit "\begin{table}\scalebox{0.5}\scalebox{0.8}{{x\end{table}".

Lemma scalebox_loop_unbalanced (fuel : nat) :
  scalebox_loop fuel unbalanced_scalebox = None.
Proof.
  destruct fuel as [|fuel].
  - vm_compute. reflexivity.
  - cbn [scalebox_loop].
    replace (search scalebox_open unbalanced_scalebox 0)
      with (Some (MkMatch 27 42 (lit "\scalebox{0.8}{") []))
      by (vm_compute; reflexivity).
    replace (sub scalebox_full (group_str 1) unbalanced_scalebox)
      with (lit "\begin{table}\scalebox{0.5}{x\end{table")
      by (vm_compute; reflexivity).
    apply scalebox_loop_stuck.
    + vm_compute. discriminate.
    + vm_compute. reflexivity.
Qed.

(** C2 (evaluation of the code).  On a document that is this table, the
    transformation is still in the [\scalebox] loop of the table converter
    after any number of iterations: it produces no output document. *)
Theorem scalebox_loop_diverges (fuel : nat) :
  scalebox_loop fuel unbalanced_scalebox = None /\
  replace_tables fuel unbalanced_scalebox = None /\
  clean_latex_file fuel (unbalanced_scalebox ++ [nl]) = None.
Proof.
  assert (Htab : replace_tables fuel unbalanced_scalebox = None).
  { unfold replace_tables, sub_partial.
    replace (scan table_env unbalanced_scalebox)
      with [Hit (MkMatch 0 55 unbalanced_scalebox [(1, unbalanced_scalebox)])]
      by (vm_compute; reflexivity).
    cbn [sub_pieces]. unfold table_repl.
    replace (group_str 1 (MkMatch 0 55 unbalanced_scalebox
                                  [(1, unbalanced_scalebox)]))
      with unbalanced_scalebox by reflexivity.
    unfold convert_tabular_to_markdown.
    rewrite scalebox_loop_unbalanced. reflexivity. }
  repeat apply conj.
  - apply scalebox_loop_unbalanced.
  - exact Htab.
  - unfold clean_latex_file.
    replace (extract_title_authors
               (preprocess_abstract (unbalanced_scalebox ++ [nl])))
      with (unbalanced_scalebox ++ [nl], @nil char, @nil char)
      by (vm_compute; reflexivity).
    replace (replace_figures
               (replace_maketitle
                  (remove_comments
                     (extract_document_content (unbalanced_scalebox ++ [nl])))
                  [] []))
      with unbalanced_scalebox by (vm_compute; reflexivity).
    rewrite Htab. reflexivity.
Qed.

(** ** Nested tabulars (C3) *)

(** A table whose tabular holds another tabular in its first cell. *)
Definition nested_tabular_source : str :=
  lit "\begin{tabular}{cc}\begin{tabular}{c}a\end{tabular} & b \\ c & d\end{tabular}".
Definition nested_table : str :=
  lit "\begin{table}\caption{Cap}\label{t:2}" ++ nested_tabular_source ++
  lit "\end{table}".

(** The same nested tabular inside [\scalebox]. *)
Definition scaled_nested_table : str :=
  lit "\begin{table}\scalebox{0.5}{\begin{tabular}{c}\begin{tabular}{c}a\end{tabular}\end{tabular}}\end{table}".

(** C3 (evaluation of the code).  For the nested table the fenced block
    holds the tabular source only up to the first [\end{tabular}]: the rest
    of the outer tabular is lost, and the original tabular source does not
    occur in the output.  The nested tabular inside [\scalebox] is rendered
    as a pipe table. *)
Theorem nested_source_truncated (fuel : nat) :
  replace_tables fuel nested_table =
    Some (table_fenced (lit "Cap") [lit "t:2"]
            (lit "\begin{tabular}{cc}\begin{tabular}{c}a\end{tabular}")) /\
  contains nested_tabular_source
    (table_fenced (lit "Cap") [lit "t:2"]
       (lit "\begin{tabular}{cc}\begin{tabular}{c}a\end{tabular}")) = false /\
  replace_tables (S fuel) scaled_nested_table =
    Some (table_markdown [] [] (pipe_table [lit "a"] [])).
Proof.
  repeat apply conj.
  - destruct fuel; vm_compute; reflexivity.
  - vm_compute. reflexivity.
  - destruct fuel; vm_compute; reflexivity.
Qed.

(** ** Label markers (C5) *)

(** The argument of a label marker: not empty and without [}]. *)
Definition label_arg (x : str) : Prop :=
  x <> [] /\ forallb (not_c "}") x = true.

Lemma eat_brace_not (c : char) (s : str) :
  not_c "}" c = true -> eat (lit "}") (c :: s) = None.
Proof.
  unfold not_c. intros H. apply negb_true_iff in H.
  change (lit "}") with [ch "}"]. cbn [eat]. rewrite N.eqb_sym, H. reflexivity.
Qed.

Lemma label_pattern_match (text s : str) :
  match_here text label_pattern s =
    match eat (lit "\label{") s with
    | Some (c :: t) =>
        if not_c "}" c then
          match eat (lit "}") (drop_while (not_c "}") t) with
          | Some rest => Some ([(1, c :: take_while (not_c "}") t)], rest)
          | None => None
          end
        else None
    | _ => None
    end.
Proof.
  unfold match_here, label_pattern, L, Plus. cbn [mt].
  destruct (eat (lit "\label{") s) as [[|c t]|]; try reflexivity.
  destruct (not_c "}" c) eqn:Hc; [|reflexivity].
  rewrite star_greedy_max.
  - destruct (eat (lit "}") (drop_while (not_c "}") t)) as [rest|] eqn:E;
      [|reflexivity].
    apply eat_some in E.
    pose proof (take_drop_while (not_c "}") t) as Ht.
    pose proof (firstn_length_diff (c :: take_while (not_c "}") t)
                                   (drop_while (not_c "}") t)) as F.
    cbn [app] in F. rewrite Ht in F. rewrite F. reflexivity.
  - intros d s' Hd. rewrite eat_brace_not by exact Hd. reflexivity.
Qed.

Lemma label_match_intro (text x q : str) :
  label_arg x ->
  match_here text label_pattern (label_md x ++ q) = Some ([(1, x)], q).
Proof.
  intros [Hne Hall]. rewrite label_pattern_match.
  unfold label_md. rewrite <- !app_assoc, eat_app.
  destruct x as [|c t]; [congruence|].
  cbn [forallb] in Hall. apply andb_prop in Hall. destruct Hall as [Hc Ht].
  cbn [app]. rewrite Hc.
  rewrite drop_while_app by exact Ht.
  rewrite take_while_app by exact Ht.
  change (lit "}" ++ q) with (ch "}" :: q).
  rewrite drop_while_stop by reflexivity.
  cbn [take_while]. change (not_c "}" (ch "}")) with false. cbn iota.
  change (ch "}" :: q) with (lit "}" ++ q). rewrite eat_app, app_nil_r.
  reflexivity.
Qed.

Lemma label_match_elim (text s rest : str) (g : caps) :
  match_here text label_pattern s = Some (g, rest) ->
  exists x, label_arg x /\ s = label_md x ++ rest /\ g = [(1, x)].
Proof.
  rewrite label_pattern_match.
  destruct (eat (lit "\label{") s) as [[|c t]|] eqn:E; try discriminate.
  destruct (not_c "}" c) eqn:Hc; [|discriminate].
  destruct (eat (lit "}") (drop_while (not_c "}") t)) as [r|] eqn:E';
    [|discriminate].
  intros H. inversion H. subst. clear H.
  apply eat_some in E. apply eat_some in E'.
  exists (c :: take_while (not_c "}") t). repeat split.
  - discriminate.
  - cbn [forallb]. rewrite Hc, take_while_all. reflexivity.
  - rewrite E. unfold label_md. rewrite <- !app_assoc. f_equal.
    cbn [app]. f_equal. rewrite <- E'. symmetry. apply take_drop_while.
Qed.

(** The first occurrence of a character splits a string in one way only. *)
Lemma first_occurrence_unique (p : char -> bool) (b : char) :
  p b = false ->
  forall a a' r r' : str,
    forallb p a = true -> forallb p a' = true ->
    a ++ b :: r = a' ++ b :: r' -> a = a' /\ r = r'.
Proof.
  intros Hb. induction a as [|c a IH]; intros a' r r' Ha Ha' H.
  - destruct a' as [|c' a']; simpl in *.
    + inversion H. auto.
    + inversion H. subst. apply andb_prop in Ha'. destruct Ha'. congruence.
  - destruct a' as [|c' a']; simpl in *.
    + inversion H. subst. apply andb_prop in Ha. destruct Ha. congruence.
    + inversion H. subst. apply andb_prop in Ha. apply andb_prop in Ha'.
      destruct Ha, Ha'. destruct (IH a' r r') as [-> ->]; auto.
Qed.

Lemma label_md_nonempty (x : str) : label_md x <> [].
Proof. unfold label_md. discriminate. Qed.

Lemma label_md_in_nil (x p q : str) : [] <> p ++ label_md x ++ q.
Proof. destruct p; [|discriminate]. unfold label_md. discriminate. Qed.

(** Every label marker of the text lies in a match of the scan: it is the
    marker the scan found, or the end of it. *)
Lemma label_scan_cover (text : str) (x : str) :
  label_arg x ->
  forall n s i p q,
    length s <= n -> s = p ++ label_md x ++ q ->
    exists m, In (Hit m) (scan_go text label_pattern 0 i s) /\
              substr (label_md x) (label_md (group_str 1 m)).
Proof.
  intros Hx. induction n as [|n IH]; intros s i p q Hlen Hs.
  - destruct s; [|simpl in Hlen; lia].
    exfalso. exact (label_md_in_nil _ _ _ Hs).
  - destruct s as [|c s'].
    { exfalso. exact (label_md_in_nil _ _ _ Hs). }
    destruct (match_here text label_pattern (c :: s')) as [[g rest]|] eqn:E.
    + destruct (label_match_elim _ _ E) as (l & Hl & Hsl & ->).
      assert (Hm : exists m', label_md l = c :: m').
      { destruct (label_md l) as [|c' m'] eqn:El.
        - exfalso. exact (label_md_nonempty El).
        - cbn [app] in Hsl. inversion Hsl. eauto. }
      destruct Hm as (m' & Hm).
      assert (Hscan : scan_go text label_pattern 0 i (c :: s') =
                      hit i (c :: m') [(1, l)] ::
                      scan_go text label_pattern 0 (i + length (c :: m')) rest).
      { rewrite Hsl, Hm in E. cbn [app] in E.
        rewrite Hsl, Hm. cbn [app]. apply scan_go_hit. exact E. }
      rewrite Hscan.
      assert (Hshort : length rest <= n).
      { pose proof (f_equal (@length char) Hsl) as Hlen'.
        rewrite Hm in Hlen'. cbn [app length] in Hlen', Hlen.
        rewrite length_app in Hlen'. lia. }
      rewrite Hsl in Hs.
      apply app_eq_app in Hs. destruct Hs as (u & [[Hp Hr] | [Hp Hr]]).
      * (* the marker starts inside the match *)
        destruct u as [|d u] using rev_ind.
        { rewrite app_nil_r in Hp. cbn [app] in Hr.
          destruct (IH rest (i + length (c :: m')) [] q) as (m & Hin & Hsub).
          - exact Hshort.
          - rewrite <- Hr. reflexivity.
          - exists m. split; [right; exact Hin | exact Hsub]. }
        clear IHu.
        exists (MkMatch i (i + length (c :: m')) (c :: m') [(1, l)]).
        split; [left; reflexivity|].
        change (group_str 1 (MkMatch i (i + length (c :: m')) (c :: m') [(1, l)]))
          with l.
        assert (Hd : p ++ u = lit "\label{" ++ l /\ d = ch "}").
        { unfold label_md in Hp. rewrite !app_assoc in Hp.
          change (lit "}") with [ch "}"] in Hp.
          apply app_inj_tail in Hp. destruct Hp as [Hp Hd].
          split; symmetry; assumption. }
        destruct Hd as [Hpu ->].
        assert (Hu : forallb (not_c "}") u = true).
        { assert (Hall : forallb (not_c "}") (p ++ u) = true).
          { rewrite Hpu, forallb_app. destruct Hl as [_ ->]. reflexivity. }
          rewrite forallb_app in Hall. apply andb_prop in Hall. tauto. }
        assert (Hux : u = lit "\label{" ++ x).
        { unfold label_md in Hr. rewrite <- !app_assoc in Hr.
          change (lit "}" ++ q) with (ch "}" :: q) in Hr.
          rewrite app_assoc in Hr. cbn [app] in Hr.
          symmetry in Hr.
          assert (Hx' : forallb (not_c "}") (lit "\label{" ++ x) = true).
          { rewrite forallb_app. destruct Hx as [_ ->]. reflexivity. }
          exact (proj1 (@first_occurrence_unique (not_c "}") (ch "}") eq_refl
                          u (lit "\label{" ++ x) rest q Hu Hx' Hr)). }
        exists p, []. rewrite app_nil_r. rewrite Hp, Hux. unfold label_md.
        rewrite <- !app_assoc. reflexivity.
      * (* the marker starts after the match *)
        destruct (IH rest (i + length (c :: m')) u q) as (m & Hin & Hsub).
        -- exact Hshort.
        -- exact Hr.
        -- exists m. split; [right; exact Hin | exact Hsub].
    + rewrite scan_go_gap by exact E.
      destruct p as [|c' p'].
      * cbn [app] in Hs. rewrite Hs in E.
        rewrite label_match_intro in E by exact Hx. discriminate.
      * cbn [app] in Hs. injection Hs as -> Hs'.
        destruct (IH s' (S i) p' q) as (m & Hin & Hsub);
          [cbn [length] in Hlen; lia | exact Hs' |].
        exists m. split; [right; exact Hin | exact Hsub].
Qed.

Lemma finditer_in (r : regex) (text : str) (m : rmatch) :
  In (Hit m) (scan r text) -> In m (finditer r text).
Proof.
  unfold finditer. intros H. apply in_flat_map.
  exists (Hit m). split; [exact H | left; reflexivity].
Qed.

(** Every label marker of the text is the marker of a label that [findall]
    returns, or the end of it. *)
Lemma findall_labels_cover (inner x : str) :
  label_arg x -> substr (label_md x) inner ->
  exists l, In l (findall1 label_pattern inner) /\
            substr (label_md x) (label_md l).
Proof.
  intros Hx (p & q & Hs).
  destruct (@label_scan_cover inner x Hx (length inner) inner 0 p q
              (Nat.le_refl _) Hs) as (m & Hin & Hsub).
  exists (group_str 1 m). split; [|exact Hsub].
  unfold findall1. apply in_map. apply finditer_in. exact Hin.
Qed.

Lemma labels_in_figure (labels : list str) (l : str) :
  In l labels ->
  substr (label_md l) (flat_map (fun label => [sp] ++ label_md label) labels).
Proof.
  induction labels as [|y labels IH]; intros Hin; [contradiction|].
  cbn [flat_map]. destruct Hin as [-> | Hin].
  - apply substr_app_l, substr_app_r, substr_refl.
  - apply substr_app_r. auto.
Qed.

Lemma labels_in_table (labels : list str) (l : str) :
  In l labels -> substr (label_md l) (labels_str labels).
Proof.
  unfold labels_str.
  induction labels as [|y labels IH]; intros Hin; [contradiction|].
  destruct labels as [|z labels].
  - destruct Hin as [-> | []]. apply substr_refl.
  - change (join [sp] (map label_md (y :: z :: labels)))
      with (label_md y ++ [sp] ++ join [sp] (map label_md (z :: labels))).
    destruct Hin as [-> | Hin].
    + apply substr_app_l, substr_refl.
    + apply substr_app_r, substr_app_r. auto.
Qed.

Lemma figure_repl_labels (m : rmatch) :
  exists head,
    figure_repl m =
      head ++
      flat_map (fun label => [sp] ++ label_md label)
               (findall1 label_pattern (group_str 1 m)) ++ [nl; nl].
Proof.
  exists ([nl; nl] ++ lit "**Figure:** " ++
          apply_inline_formats
            (strip (join [sp] (extract_captions (group_str 1 m))))).
  unfold figure_repl. rewrite fold_left_append.
  symmetry. apply app_assoc.
Qed.

Lemma table_fenced_labels (caption : str) (labels : list str) (body : str) :
  substr (labels_str labels) (table_fenced caption labels body).
Proof.
  unfold table_fenced.
  do 4 apply substr_app_r. apply substr_app_l, substr_refl.
Qed.

Lemma table_markdown_labels (caption : str) (labels : list str) (md : str) :
  substr (labels_str labels) (table_markdown caption labels md).
Proof.
  unfold table_markdown.
  do 4 apply substr_app_r. apply substr_app_l, substr_refl.
Qed.

Lemma table_repl_labels (fuel : nat) (m : rmatch) (out : str) :
  table_repl fuel m = Some out ->
  substr (labels_str (findall1 label_pattern (group_str 1 m))) out.
Proof.
  unfold table_repl.
  destruct (convert_tabular_to_markdown fuel (group_str 1 m)) as [[|md]|];
    [| |discriminate].
  - intros H. inversion H. apply table_fenced_labels.
  - destruct (nonempty md); intros H; inversion H.
    + apply table_markdown_labels.
    + apply table_fenced_labels.
Qed.

(** Without a [\scalebox{...}{] in the table the loop ends at once. *)
Lemma scalebox_loop_none (fuel : nat) (inner : str) :
  search scalebox_open inner 0 = None -> scalebox_loop fuel inner = Some inner.
Proof. intros H. destruct fuel; simpl; rewrite H; reflexivity. Qed.

Lemma table_repl_total (m : rmatch) :
  search scalebox_open (group_str 1 m) 0 = None ->
  exists out, forall fuel, table_repl fuel m = Some out.
Proof.
  intros H.
  assert (Hc : exists c, forall fuel,
             convert_tabular_to_markdown fuel (group_str 1 m) = Some c).
  { unfold convert_tabular_to_markdown.
    destruct (has_nested_tabulars (group_str 1 m)) eqn:En.
    - exists NestedTabulars. intros fuel.
      rewrite scalebox_loop_none by exact H. rewrite En. reflexivity.
    - destruct (finditer tabular_env (group_str 1 m)) as [|t ts] eqn:Et.
      + exists (Converted []). intros fuel.
        rewrite scalebox_loop_none by exact H. rewrite En, Et. reflexivity.
      + destruct (collect_tables (map tabular_to_md (t :: ts))) as [mds|] eqn:Ec.
        * exists (Converted (concat mds)). intros fuel.
          rewrite scalebox_loop_none by exact H. rewrite En, Et, Ec.
          reflexivity.
        * exists (Converted []). intros fuel.
          rewrite scalebox_loop_none by exact H. rewrite En, Et, Ec.
          reflexivity. }
  destruct Hc as (c & Hc). unfold table_repl.
  destruct c as [|md].
  - eexists. intros fuel. rewrite Hc. reflexivity.
  - destruct (nonempty md) eqn:Emd.
    + eexists. intros fuel. rewrite Hc, Emd. reflexivity.
    + eexists. intros fuel. rewrite Hc, Emd. reflexivity.
Qed.

(** Labels in the blocks that are written.  A label marker [\label{x}]
    (with [x] not empty and without [}]) that occurs in the body of a figure
    environment occurs in the paragraph that [figure_repl] writes for it; one
    that occurs in a table environment occurs in whatever block [table_repl]
    writes for it (pipe table or fenced block), and [table_repl] does write
    a block when the table has no [\scalebox{...}{]. *)
Theorem labels_preserved (m : rmatch) (x : str) :
  label_arg x ->
  contains (label_md x) (group_str 1 m) = true ->
  contains (label_md x) (figure_repl m) = true /\
  (forall fuel out,
     table_repl fuel m = Some out -> contains (label_md x) out = true) /\
  (search scalebox_open (group_str 1 m) 0 = None ->
   exists out, forall fuel, table_repl fuel m = Some out).
Proof.
  intros Hx Hin. apply contains_substr in Hin.
  destruct (findall_labels_cover Hx Hin) as (l & Hl & Hsub).
  repeat apply conj.
  - apply contains_substr.
    destruct (figure_repl_labels m) as (head & ->).
    apply substr_app_r, substr_app_l.
    eapply substr_trans; [exact Hsub|]. apply labels_in_figure. exact Hl.
  - intros fuel out Hout. apply contains_substr.
    eapply substr_trans; [exact Hsub|].
    eapply substr_trans; [apply labels_in_table; exact Hl|].
    eapply table_repl_labels; eauto.
  - apply table_repl_total.
Qed.

Lemma labels_preserved_witness :
  let m := MkMatch 0 0 [] [(1, lit "\begin{table}\caption{c\label{t:1}}\end{table}")] in
  contains (label_md (lit "t:1")) (figure_repl m) = true /\
  (forall fuel out,
     table_repl fuel m = Some out ->
     contains (label_md (lit "t:1")) out = true) /\
  (search scalebox_open (group_str 1 m) 0 = None ->
   exists out, forall fuel, table_repl fuel m = Some out).
Proof.
  intros m. apply (@labels_preserved m (lit "t:1")).
  - split; [discriminate | reflexivity].
  - vm_compute. reflexivity.
Defined.

(** A table with a label whose second [\scalebox] has an argument that is
    never closed. *)
Definition labelled_scalebox_table : str :=
  lit "\begin{table}\label{t:1}\scalebox{0.5}\scalebox{0.8}{{x\end{table}".

Lemma scalebox_loop_labelled (fuel : nat) :
  scalebox_loop fuel labelled_scalebox_table = None.
Proof.
  destruct fuel as [|fuel].
  - vm_compute. reflexivity.
  - cbn [scalebox_loop].
    replace (search scalebox_open labelled_scalebox_table 0)
      with (Some (MkMatch 38 53 (lit "\scalebox{0.8}{") []))
      by (vm_compute; reflexivity).
    replace (sub scalebox_full (group_str 1) labelled_scalebox_table)
      with (lit "\begin{table}\label{t:1}\scalebox{0.5}{x\end{table")
      by (vm_compute; reflexivity).
    apply scalebox_loop_stuck.
    + vm_compute. discriminate.
    + vm_compute. reflexivity.
Qed.

(** C5 (evaluation of the code).  This document is one table environment
    whose source holds the label marker [\label{t:1}].  The table converter
    is still in its [\scalebox] loop after any number of iterations, so it
    writes no block for the table, neither a pipe table nor a fenced block,
    and the whole transformation writes no document: the label marker is in
    no output. *)
Theorem labelled_table_not_written (fuel : nat) :
  let m := MkMatch 0 66 labelled_scalebox_table
                   [(1, labelled_scalebox_table)] in
  contains (lit "\label{t:1}") labelled_scalebox_table = true /\
  scan table_env labelled_scalebox_table = [Hit m] /\
  table_repl fuel m = None /\
  replace_tables fuel labelled_scalebox_table = None /\
  clean_latex_file fuel (labelled_scalebox_table ++ [nl]) = None.
Proof.
  intros m.
  assert (Hscan : scan table_env labelled_scalebox_table = [Hit m])
    by (vm_compute; reflexivity).
  assert (Hrepl : table_repl fuel m = None).
  { unfold table_repl.
    replace (group_str 1 m) with labelled_scalebox_table by reflexivity.
    unfold convert_tabular_to_markdown.
    rewrite scalebox_loop_labelled. reflexivity. }
  assert (Htab : replace_tables fuel labelled_scalebox_table = None).
  { unfold replace_tables, sub_partial. rewrite Hscan.
    cbn [sub_pieces]. rewrite Hrepl. reflexivity. }
  repeat apply conj.
  - vm_compute. reflexivity.
  - exact Hscan.
  - exact Hrepl.
  - exact Htab.
  - unfold clean_latex_file.
    replace (extract_title_authors
               (preprocess_abstract (labelled_scalebox_table ++ [nl])))
      with (labelled_scalebox_table ++ [nl], @nil char, @nil char)
      by (vm_compute; reflexivity).
    replace (replace_figures
               (replace_maketitle
                  (remove_comments
                     (extract_document_content
                        (labelled_scalebox_table ++ [nl])))
                  [] []))
      with labelled_scalebox_table by (vm_compute; reflexivity).
    rewrite Htab. reflexivity.
Qed.

(** ** Substitution along the scan *)

(** What [sub] writes from the suffix [s] of [text] on, at index [i]. *)
Definition sub_from (text : str) (r : regex) (repl : rmatch -> str) (i : nat)
           (s : str) : str :=
  flat_map (piece_text repl) (scan_go text r 0 i s).

Lemma sub_sub_from (r : regex) (repl : rmatch -> str) (text : str) :
  sub r repl text = sub_from text r repl 0 text.
Proof. reflexivity. Qed.

Lemma sub_from_nil (text : str) (r : regex) (repl : rmatch -> str) (i : nat) :
  match_here text r [] = None -> sub_from text r repl i [] = [].
Proof. intros H. unfold sub_from. rewrite scan_go_nil by exact H. reflexivity. Qed.

Lemma sub_from_gap (text : str) (r : regex) (repl : rmatch -> str) (i : nat)
      (c : char) (s : str) :
  match_here text r (c :: s) = None ->
  sub_from text r repl i (c :: s) = c :: sub_from text r repl (S i) s.
Proof. intros H. unfold sub_from. rewrite scan_go_gap by exact H. reflexivity. Qed.

Lemma sub_from_hit (text : str) (r : regex) (repl : rmatch -> str) (i : nat)
      (m rest : str) (g : caps) :
  m <> [] ->
  match_here text r (m ++ rest) = Some (g, rest) ->
  sub_from text r repl i (m ++ rest) =
    repl (MkMatch i (i + length m) m g) ++
    sub_from text r repl (i + length m) rest.
Proof.
  intros Hm H. destruct m as [|c m]; [congruence|].
  unfold sub_from. cbn [app] in *. rewrite (@scan_go_hit text r i c m rest g H).
  reflexivity.
Qed.

(** Where no match begins, the text is copied. *)
Lemma sub_from_gaps (text : str) (r : regex) (repl : rmatch -> str) (p s : str) :
  (forall p1 p2, p = p1 ++ p2 -> p2 <> [] -> match_here text r (p2 ++ s) = None) ->
  forall i, sub_from text r repl i (p ++ s) =
            p ++ sub_from text r repl (i + length p) s.
Proof.
  induction p as [|c p IH]; intros H i.
  - cbn [app length]. rewrite Nat.add_0_r. reflexivity.
  - cbn [app length]. rewrite sub_from_gap.
    + rewrite IH.
      * replace (S i + length p) with (i + S (length p)) by lia. reflexivity.
      * intros p1 p2 Hp Hne. apply (H (c :: p1) p2); [rewrite Hp; reflexivity | exact Hne].
    + apply (H [] (c :: p)); [reflexivity | discriminate].
Qed.

Lemma sub_from_id (text : str) (r : regex) (repl : rmatch -> str) (s : str) :
  (forall p1 p2, s = p1 ++ p2 -> match_here text r p2 = None) ->
  forall i, sub_from text r repl i s = s.
Proof.
  intros H i.
  rewrite <- (app_nil_r s) at 1. rewrite sub_from_gaps.
  - rewrite sub_from_nil; [apply app_nil_r|].
    apply (H s []). symmetry. apply app_nil_r.
  - intros p1 p2 Hp _. rewrite app_nil_r. eauto.
Qed.

Lemma contains_false_eat (a s : str) : contains a s = false -> eat a s = None.
Proof.
  destruct s; simpl; destruct (eat a _); congruence.
Qed.

Lemma contains_false_suffix (a p1 p2 : str) :
  contains a (p1 ++ p2) = false -> contains a p2 = false.
Proof.
  intros H. destruct (contains a p2) eqn:E; [|reflexivity].
  apply contains_substr in E.
  apply (substr_app_r p1) in E. apply contains_substr in E. congruence.
Qed.

(** A literal at the head of [p ++ s] lies in [p], or begins with the whole
    of [p] and goes on in [s]. *)
Lemma eat_app_split (l p s r : str) :
  eat l (p ++ s) = Some r ->
  (exists p', p = l ++ p') \/
  (exists l1 l2, l = l1 ++ l2 /\ p = l1 /\ l2 <> [] /\ eat l2 s = Some r).
Proof.
  revert p. induction l as [|a l IH]; intros p H.
  - left. exists p. reflexivity.
  - destruct p as [|c p].
    + right. exists [], (a :: l). repeat split; auto. discriminate.
    + cbn [app eat] in H. destruct (N.eqb_spec a c) as [->|]; [|discriminate].
      destruct (IH p H) as [(p' & ->) | (l1 & l2 & -> & -> & Hne & He)].
      * left. exists p'. reflexivity.
      * right. exists (c :: l1), l2. repeat split; auto.
Qed.

(** ** Equations (C7) *)

Lemma label_marker_mt {A : Type} (text s : str) (g : caps)
      (k : str -> caps -> option A) :
  mt text label_marker s g k =
    match eat (lit "\label{") s with
    | Some (c :: t) =>
        if not_c "}" c then
          match eat (lit "}") (drop_while (not_c "}") t) with
          | Some rest => k rest g
          | None => None
          end
        else None
    | _ => None
    end.
Proof.
  unfold label_marker, L, Plus. cbn [mt].
  destruct (eat (lit "\label{") s) as [[|c t]|]; try reflexivity.
  destruct (not_c "}" c) eqn:Hc; [|reflexivity].
  apply star_greedy_max.
  intros d s' Hd. rewrite eat_brace_not by exact Hd. reflexivity.
Qed.

Lemma eq_label_none (text s : str) :
  eat (lit "\label{") s = None -> match_here text eq_label s = None.
Proof.
  intros H. unfold match_here, eq_label. cbn [mt].
  rewrite label_marker_mt, H. reflexivity.
Qed.

Lemma eq_label_match (text x q : str) :
  label_arg x ->
  match_here text eq_label (label_md x ++ q) =
    Some ([(1, label_md x)], drop_while isspace q).
Proof.
  intros [Hne Hall]. unfold match_here, eq_label. cbn [mt].
  rewrite label_marker_mt.
  unfold label_md at 1. rewrite <- !app_assoc, eat_app.
  destruct x as [|c t]; [congruence|].
  cbn [forallb] in Hall. apply andb_prop in Hall. destruct Hall as [Hc Ht].
  cbn [app]. rewrite Hc.
  rewrite drop_while_app by exact Ht.
  change (lit "}" ++ q) with (ch "}" :: q).
  rewrite drop_while_stop by reflexivity.
  change (ch "}" :: q) with (lit "}" ++ q). rewrite eat_app.
  rewrite star_greedy_total by discriminate.
  rewrite firstn_length_diff. reflexivity.
Qed.


Lemma label_open_straddle (p t : str) :
  p <> [] -> contains (lit "\label{") p = false ->
  eat (lit "\label{") (p ++ ch "\" :: t) = None.
Proof.
  intros Hp Hc.
  destruct (eat (lit "\label{") (p ++ ch "\" :: t)) as [r|] eqn:E;
    [|reflexivity].
  exfalso. apply eat_app_split in E.
  destruct E as [(p' & ->) | (l1 & l2 & Hl & -> & Hne & He)].
  - assert (Hs : substr (lit "\label{") (lit "\label{" ++ p'))
      by (exists [], p'; reflexivity).
    apply contains_substr in Hs. congruence.
  - destruct l2 as [|d l2]; [congruence|].
    cbn [eat] in He. destruct (N.eqb_spec d (ch "\")) as [->|]; [|discriminate].
    destruct l1 as [|c l1]; [congruence|].
    change (lit "\label{") with (ch "\" :: lit "label{") in Hl.
    cbn [app] in Hl. injection Hl as _ Hl.
    assert (Hall : forallb (not_c "\") (lit "label{") = true) by reflexivity.
    rewrite Hl, forallb_app in Hall. apply andb_prop in Hall.
    destruct Hall as [_ Hall]. cbn [forallb] in Hall.
    apply andb_prop in Hall. destruct Hall as [Hall _]. discriminate.
Qed.

Definition eq_label_repl (m : rmatch) : str := group_str 1 m ++ [nl].

Lemma eq_label_sub_none (text s : str) (i : nat) :
  contains (lit "\label{") s = false ->
  sub_from text eq_label eq_label_repl i s = s.
Proof.
  intros Hno. apply sub_from_id.
  intros p1 p2 Hp. apply eq_label_none, contains_false_eat.
  rewrite Hp in Hno. eapply contains_false_suffix; eauto.
Qed.

Lemma eq_label_sub_one (text pre x ws rest : str) (i : nat) :
  contains (lit "\label{") pre = false -> label_arg x ->
  forallb isspace ws = true -> lstrip rest = rest ->
  contains (lit "\label{") rest = false ->
  sub_from text eq_label eq_label_repl i (pre ++ label_md x ++ ws ++ rest) =
    pre ++ label_md x ++ [nl] ++ rest.
Proof.
  intros Hpre Hx Hws Hrest Hno.
  rewrite sub_from_gaps.
  - assert (Hm : match_here text eq_label ((label_md x ++ ws) ++ rest) =
                 Some ([(1, label_md x)], rest)).
    { rewrite <- app_assoc, eq_label_match by exact Hx.
      rewrite drop_while_app by exact Hws.
      unfold lstrip in Hrest. rewrite Hrest. reflexivity. }
    rewrite (app_assoc (label_md x) ws rest).
    rewrite (@sub_from_hit text eq_label eq_label_repl (i + length pre)
               (label_md x ++ ws) rest [(1, label_md x)]).
    + rewrite eq_label_sub_none by exact Hno.
      unfold eq_label_repl, group_str, group. cbn [m_groups lookup Nat.eqb].
      rewrite <- !app_assoc. reflexivity.
    + intros E. apply app_eq_nil in E. destruct E as [E _].
      exact (label_md_nonempty E).
    + exact Hm.
  - intros p1 p2 Hp Hne. apply eq_label_none.
    unfold label_md. rewrite <- !app_assoc.
    change (lit "\label{" ++ x ++ lit "}" ++ ws ++ rest)
      with (ch "\" :: lit "label{" ++ x ++ lit "}" ++ ws ++ rest).
    apply label_open_straddle; [exact Hne|].
    rewrite Hp in Hpre. eapply contains_false_suffix; eauto.
Qed.

(** A label marker with argument [x], the whitespace [ws] after it and the
    text [seg] up to the next marker. *)
Definition labelled_item : Type := (str * str * str)%type.

Definition item_source (it : labelled_item) : str :=
  let '(x, ws, seg) := it in lit "\label{" ++ x ++ lit "}" ++ ws ++ seg.

Definition item_block (it : labelled_item) : str :=
  let '(x, ws, seg) := it in lit "\label{" ++ x ++ lit "}" ++ [nl] ++ seg.

Definition item_ok (it : labelled_item) : Prop :=
  let '(x, ws, seg) := it in
  label_arg x /\ forallb isspace ws = true /\ lstrip seg = seg /\
  contains (lit "\label{") seg = false.

Lemma marker_at_some (s x rest : str) :
  marker_at s = Some (x, rest) -> label_arg x /\ s = label_md x ++ rest.
Proof.
  unfold marker_at. intros H.
  destruct (eat (lit "\label{") s) as [[|c t]|] eqn:E; try discriminate.
  destruct (not_c "}" c) eqn:Hc; [|discriminate].
  destruct (eat (lit "}") (drop_while (not_c "}") t)) as [r|] eqn:E2;
    [|discriminate].
  injection H as <- <-.
  apply eat_some in E. apply eat_some in E2. split.
  - split; [discriminate|]. cbn [forallb]. rewrite Hc. apply take_while_all.
  - subst s. unfold label_md. rewrite <- !app_assoc. f_equal.
    cbn [app]. f_equal.
    rewrite <- E2. symmetry. apply take_drop_while.
Qed.

Lemma eq_label_at (text s : str) :
  match_here text eq_label s =
    match marker_at s with
    | Some (x, rest) => Some ([(1, label_md x)], lstrip rest)
    | None => None
    end.
Proof.
  destruct (marker_at s) as [[x rest]|] eqn:E.
  - apply marker_at_some in E. destruct E as [Hx ->].
    apply eq_label_match. exact Hx.
  - unfold match_here, eq_label. cbn [mt]. rewrite label_marker_mt.
    unfold marker_at in E.
    destruct (eat (lit "\label{") s) as [[|c t]|]; try reflexivity.
    destruct (not_c "}" c); [|reflexivity].
    destruct (eat (lit "}") (drop_while (not_c "}") t)); [discriminate|].
    reflexivity.
Qed.

Lemma eq_label_sub_all (text : str) (n : nat) :
  forall (s : str) (i : nat), length s <= n ->
    sub_from text eq_label eq_label_repl i s = break_after_labels n s.
Proof.
  induction n as [|n IH]; intros s i Hlen.
  - destruct s; [|cbn [length] in Hlen; lia].
    apply sub_from_nil. rewrite eq_label_at. reflexivity.
  - cbn [break_after_labels].
    pose proof (eq_label_at text s) as Hm.
    destruct (marker_at s) as [[x rest]|] eqn:E.
    + apply marker_at_some in E. destruct E as [Hx Hs].
      destruct (lstrip_split rest) as (w & Hw & _).
      assert (Hs' : s = (label_md x ++ w) ++ lstrip rest).
      { rewrite <- app_assoc, <- Hw. exact Hs. }
      rewrite Hs' in Hm |- *.
      rewrite (@sub_from_hit text eq_label eq_label_repl i
                 (label_md x ++ w) (lstrip rest) [(1, label_md x)]).
      * rewrite IH.
        -- unfold eq_label_repl, group_str, group.
           cbn [m_groups lookup Nat.eqb]. unfold label_md.
           rewrite <- !app_assoc. reflexivity.
        -- rewrite Hs' in Hlen. rewrite !length_app in Hlen.
           pose proof (@label_md_nonempty x) as Hne.
           destruct (label_md x); [congruence|]. cbn [length] in Hlen. lia.
      * intros H0. apply app_eq_nil in H0. destruct H0 as [H0 _].
        exact (label_md_nonempty H0).
      * exact Hm.
    + destruct s as [|c s].
      * apply sub_from_nil. exact Hm.
      * rewrite sub_from_gap by exact Hm. f_equal. apply IH.
        cbn [length] in Hlen. lia.
Qed.

Lemma lstrip_not_space_head (seg more : str) :
  lstrip seg = seg ->
  (seg = [] -> more = [] \/ exists t, more = ch "\" :: t) ->
  drop_while isspace (seg ++ more) = seg ++ more.
Proof.
  intros Hseg Hmore. destruct seg as [|c seg].
  - destruct (Hmore eq_refl) as [->|(t & ->)]; reflexivity.
  - cbn [app]. destruct (isspace c) eqn:Hc.
    + exfalso. unfold lstrip in Hseg. cbn [drop_while] in Hseg.
      rewrite Hc in Hseg.
      pose proof (f_equal (@length char) (take_drop_while isspace seg)) as Hl.
      rewrite length_app, Hseg in Hl. cbn [length] in Hl. lia.
    + apply drop_while_stop. exact Hc.
Qed.

Lemma items_source_head (items : list labelled_item) :
  flat_map item_source items = [] \/
  exists t, flat_map item_source items = ch "\" :: t.
Proof.
  destruct items as [|[[x ws] seg] items]; [left; reflexivity|].
  right. cbn [flat_map item_source]. eexists. reflexivity.
Qed.

Lemma eq_label_sub_items (text : str) (items : list labelled_item) :
  Forall item_ok items ->
  forall (seg0 : str) (i : nat),
    contains (lit "\label{") seg0 = false ->
    sub_from text eq_label eq_label_repl i
      (seg0 ++ flat_map item_source items) =
    seg0 ++ flat_map item_block items.
Proof.
  induction items as [|[[x ws] seg] items IH]; intros Hok seg0 i Hno.
  - cbn [flat_map]. rewrite !app_nil_r. apply eq_label_sub_none. exact Hno.
  - inversion Hok as [|it its Hit Hits]; subst.
    destruct Hit as (Hx & Hws & Hseg & Hsegno).
    cbn [flat_map item_source item_block].
    set (more := flat_map item_source items).
    rewrite sub_from_gaps.
    + f_equal.
      assert (Hm : match_here text eq_label
                     ((label_md x ++ ws) ++ seg ++ more) =
                   Some ([(1, label_md x)], seg ++ more)).
      { rewrite <- app_assoc, eq_label_match by exact Hx.
        rewrite drop_while_app by exact Hws.
        rewrite lstrip_not_space_head; [reflexivity | exact Hseg |].
        intros _. apply items_source_head. }
      replace ((lit "\label{" ++ x ++ lit "}" ++ ws ++ seg) ++ more)
        with ((label_md x ++ ws) ++ seg ++ more)
        by (unfold label_md; rewrite <- !app_assoc; reflexivity).
      rewrite (@sub_from_hit text eq_label eq_label_repl (i + length seg0)
                 (label_md x ++ ws) (seg ++ more) [(1, label_md x)]).
      * unfold more. rewrite IH by assumption.
        unfold eq_label_repl, group_str, group.
        cbn [m_groups lookup Nat.eqb]. unfold label_md.
        rewrite <- !app_assoc. reflexivity.
      * intros H0. apply app_eq_nil in H0. destruct H0 as [H0 _].
        exact (label_md_nonempty H0).
      * exact Hm.
    + intros p1 p2 Hp Hne. apply eq_label_none.
      rewrite <- !app_assoc.
      change (lit "\label{" ++ x ++ lit "}" ++ ws ++ seg ++ more)
        with (ch "\" :: lit "label{" ++ x ++ lit "}" ++ ws ++ seg ++ more).
      apply label_open_straddle; [exact Hne|].
      rewrite Hp in Hno. eapply contains_false_suffix; eauto.
Qed.

(** C7, as the code has it.  The body is trimmed and wrapped in [$$] lines
    with blank lines around.  No label marker is moved: the trimmed body is
    copied from left to right, and after each label marker the whitespace
    that follows it is replaced by one newline; nothing else is changed
    ([break_after_labels]).  So for a body made of a text without [\label{]
    and any number of markers, each followed by whitespace and by a text
    without [\label{], the block holds the same texts and markers in the
    same order, each marker followed by one newline; a body without a marker
    (no item) is passed through unchanged. *)
Theorem equation_block (m : rmatch) :
  eq_repl m =
    [nl; nl] ++ lit "$$" ++ [nl] ++
    break_after_labels (length (strip (group_str 1 m)))
                       (strip (group_str 1 m)) ++
    [nl] ++ lit "$$" ++ [nl; nl] /\
  (forall (seg0 : str) (items : list labelled_item),
     strip (group_str 1 m) = seg0 ++ flat_map item_source items ->
     contains (lit "\label{") seg0 = false ->
     Forall item_ok items ->
     eq_repl m =
       [nl; nl] ++ lit "$$" ++ [nl] ++
       seg0 ++ flat_map item_block items ++
       [nl] ++ lit "$$" ++ [nl; nl]).
Proof.
  split.
  - unfold eq_repl. rewrite sub_sub_from.
    change (fun m0 : rmatch => group_str 1 m0 ++ [nl]) with eq_label_repl.
    rewrite (@eq_label_sub_all _ (length (strip (group_str 1 m)))) by lia.
    reflexivity.
  - intros seg0 items Hbody Hno Hok.
    unfold eq_repl. rewrite sub_sub_from.
    change (fun m0 : rmatch => group_str 1 m0 ++ [nl]) with eq_label_repl.
    rewrite Hbody at 2. rewrite eq_label_sub_items by assumption.
    rewrite <- !app_assoc. reflexivity.
Qed.

Lemma equation_block_witness :
  let m := MkMatch 0 0 []
             [(1, lit " a = b \label{eq:1}  c = d\label{eq:2}\label{eq:3} e ")] in
  eq_repl m =
    [nl; nl] ++ lit "$$" ++ [nl] ++
    lit "a = b \label{eq:1}" ++ [nl] ++
    lit "c = d\label{eq:2}" ++ [nl] ++
    lit "\label{eq:3}" ++ [nl] ++ lit "e" ++
    [nl] ++ lit "$$" ++ [nl; nl].
Proof.
  intros m.
  apply (proj2 (equation_block m) (lit "a = b ")
           [ (lit "eq:1", lit "  ", lit "c = d");
             (lit "eq:2", [], []);
             (lit "eq:3", lit " ", lit "e") ]).
  - vm_compute. reflexivity.
  - reflexivity.
  - repeat constructor; discriminate.
Defined.

(** C7 as stated fails: a label marker after the formula stays after it, on
    the line of the formula; it is on no line of its own. *)
Lemma equation_label_not_moved :
  replace_equations (lit "\begin{equation}E=mc^2 \label{eq:1}\end{equation}") =
    [nl; nl] ++ lit "$$" ++ [nl] ++ lit "E=mc^2 \label{eq:1}" ++ [nl] ++
    [nl] ++ lit "$$" ++ [nl; nl] /\
  str_split [nl]
    (replace_equations
       (lit "\begin{equation}E=mc^2 \label{eq:1}\end{equation}")) =
    [ []; []; lit "$$"; lit "E=mc^2 \label{eq:1}"; []; lit "$$"; []; [] ] /\
  ~ In (lit "\label{eq:1}")
       (str_split [nl]
          (replace_equations
             (lit "\begin{equation}E=mc^2 \label{eq:1}\end{equation}"))).
Proof.
  repeat apply conj.
  - vm_compute. reflexivity.
  - vm_compute. reflexivity.
  - vm_compute. intros H.
    repeat (destruct H as [H|H]; [discriminate|]). exact H.
Qed.

(** ** The sentinel of [remove_comments] (C10) *)

Lemma match_here_lit (text l s : str) :
  match_here text (Lit l) s =
    match eat l s with Some s' => Some ([], s') | None => None end.
Proof. reflexivity. Qed.

Section Replace.
Variables (text old : str).
Hypothesis old_nonempty : old <> [].
Hypothesis old_no_nl : forallb dot old = true.

Let out (i : nat) (s : str) : str :=
  sub_from text (Lit old) (fun _ => [nl; nl]) i s.

Lemma replace_step_nil (i : nat) : out i [] = [].
Proof.
  apply sub_from_nil. rewrite match_here_lit.
  destruct old; [congruence | reflexivity].
Qed.

Lemma replace_step_hit (i : nat) (rest : str) :
  out i (old ++ rest) = nl :: nl :: out (i + length old) rest.
Proof.
  unfold out. rewrite (@sub_from_hit text (Lit old) _ i old rest []).
  - reflexivity.
  - exact old_nonempty.
  - rewrite match_here_lit, eat_app. reflexivity.
Qed.

Lemma replace_step_gap (i : nat) (c : char) (s : str) :
  eat old (c :: s) = None -> out i (c :: s) = c :: out (S i) s.
Proof.
  intros H. apply sub_from_gap. rewrite match_here_lit, H. reflexivity.
Qed.

Lemma eat_nl_old (s : str) : eat old (nl :: s) = None.
Proof.
  destruct old as [|o l]; [congruence|].
  cbn [forallb] in old_no_nl. apply andb_prop in old_no_nl.
  destruct old_no_nl as [Ho _]. unfold dot in Ho. apply negb_true_iff in Ho.
  cbn [eat]. rewrite Ho. reflexivity.
Qed.

(** What the result begins with (without newline), the text began with. *)
Lemma replace_keeps_prefix (l : str) :
  forallb dot l = true ->
  forall s i, eat l (out i s) <> None -> eat l s <> None.
Proof.
  induction l as [|c0 l IH]; intros Hl s i H.
  - discriminate.
  - cbn [forallb] in Hl. apply andb_prop in Hl. destruct Hl as [Hc0 Hl].
    destruct s as [|c s].
    + rewrite replace_step_nil in H. exact H.
    + destruct (eat old (c :: s)) as [rest|] eqn:E.
      * apply eat_some in E. rewrite E, replace_step_hit in H.
        cbn [eat] in H. unfold dot in Hc0. apply negb_true_iff in Hc0.
        rewrite Hc0 in H. congruence.
      * rewrite replace_step_gap in H by exact E.
        cbn [eat] in *. destruct (N.eqb c0 c); [|exact H].
        eapply IH; eauto.
Qed.

(** After [s.replace(old, "\n\n")] no [old] is left. *)
Lemma replace_removes_all (n : nat) :
  forall s i, length s <= n -> contains old (out i s) = false.
Proof.
  induction n as [|n IH]; intros s i Hlen.
  - destruct s; [|simpl in Hlen; lia].
    rewrite replace_step_nil. simpl.
    destruct old; [congruence | reflexivity].
  - destruct s as [|c s].
    { rewrite replace_step_nil. simpl.
      destruct old; [congruence | reflexivity]. }
    destruct (eat old (c :: s)) as [rest|] eqn:E.
    + pose proof E as E'. apply eat_some in E'. rewrite E', replace_step_hit.
      cbn [contains]. rewrite !eat_nl_old. apply IH.
      apply (f_equal (@length char)) in E'. rewrite length_app in E'.
      cbn [length] in E', Hlen.
      destruct old; [congruence|]. cbn [length] in E'. lia.
    + rewrite replace_step_gap by exact E. cbn [contains].
      destruct (eat old (c :: out (S i) s)) as [r|] eqn:E2.
      * exfalso.
        apply (@replace_keeps_prefix old old_no_nl (c :: s) i);
          [|exact E].
        rewrite replace_step_gap by exact E. congruence.
      * apply IH. cbn [length] in Hlen. lia.
Qed.
End Replace.

Lemma replace_no_occurrence (old s : str) :
  old <> [] -> forallb dot old = true ->
  contains old (replace old [nl; nl] s) = false.
Proof.
  intros Hne Hnl. unfold replace. rewrite sub_sub_from.
  apply (@replace_removes_all s old Hne Hnl (length s) s 0). lia.
Qed.

(** Where no character can begin a match, [sub] changes nothing. *)
Lemma sub_id_heads (text : str) (r : regex) (repl : rmatch -> str)
      (ok : char -> bool) (s : str) (i : nat) :
  match_here text r [] = None ->
  (forall c s', ok c = true -> match_here text r (c :: s') = None) ->
  forallb ok s = true ->
  sub_from text r repl i s = s.
Proof.
  intros Hnil Hhead Hs. apply sub_from_id.
  intros p1 p2 ->. rewrite forallb_app in Hs. apply andb_prop in Hs.
  destruct Hs as [_ Hs]. destruct p2 as [|c p2]; [exact Hnil|].
  cbn [forallb] in Hs. apply andb_prop in Hs. destruct Hs as [Hc _]. auto.
Qed.

Lemma comment_pattern_none (text s : str) :
  eat (lit "%") s = None -> match_here text comment_pattern s = None.
Proof.
  intros H. unfold match_here, comment_pattern, L. cbn [mt].
  destruct (prev_char text s) as [c'|]; [destruct (N.eqb c' (ch "\"))|];
    rewrite ?H; reflexivity.
Qed.

Lemma cls_head_none (text : str) (p : char -> bool) (r : regex) (c : char)
      (s : str) :
  p c = false -> match_here text (Cls p >> r) (c :: s) = None.
Proof. intros H. unfold match_here. cbn [mt]. rewrite H. reflexivity. Qed.

Lemma cls_nil_none (text : str) (p : char -> bool) (r : regex) :
  match_here text (Cls p >> r) [] = None.
Proof. reflexivity. Qed.

(** A character of a word: no whitespace, no [%], no [<]. *)
Definition word_char (c : char) : bool :=
  negb (isspace c) && not_c "%" c && not_c "<" c.

(** No whitespace and no [%]: nothing for the normalizer to rewrite. *)
Definition solid (c : char) : bool := negb (isspace c) && not_c "%" c.

Lemma solid_trimmed (s : str) : forallb solid s = true -> trimmed s.
Proof.
  intros H. destruct s as [|c s]; [constructor|].
  cbn [forallb] in H. apply andb_prop in H. destruct H as [Hc Hs].
  unfold solid in Hc. apply andb_prop in Hc. destruct Hc as [Hc _].
  apply negb_true_iff in Hc.
  destruct s as [|d s _] using rev_ind; [constructor; exact Hc|].
  rewrite forallb_app in Hs. apply andb_prop in Hs. destruct Hs as [_ Hd].
  cbn [forallb] in Hd. apply andb_prop in Hd. destruct Hd as [Hd _].
  unfold solid in Hd. apply andb_prop in Hd. destruct Hd as [Hd _].
  apply negb_true_iff in Hd. constructor; assumption.
Qed.

Lemma solid_not (c : char) (d : char) :
  solid c = true -> isspace d = true -> N.eqb d c = false.
Proof.
  unfold solid. intros H Hd. apply andb_prop in H. destruct H as [H _].
  apply negb_true_iff in H. destruct (N.eqb_spec d c); congruence.
Qed.

(** The steps of [remove_comments] before the sentinel is put back leave a
    text without whitespace and without [%] as it is. *)
Lemma fold_solid (t : str) :
  forallb solid t = true ->
  strip
    (sub (Plus isspace) (fun _ => [sp])
       (sub (Lit [nl]) (fun _ => [sp])
          (replace [nl; nl] PARA_BREAK
             (sub (AtLeast 3 (N.eqb nl)) (fun _ => [nl; nl])
                (sub (Lit [cr; nl]) (fun _ => [nl])
                   (sub comment_pattern (fun _ => []) t)))))) = t.
Proof.
  intros Ht.
  assert (H1 : sub comment_pattern (fun _ => []) t = t).
  { rewrite sub_sub_from.
    apply sub_id_heads with (ok := solid);
      [apply comment_pattern_none; reflexivity | | exact Ht].
    intros c s' Hc. apply comment_pattern_none.
    unfold solid in Hc. apply andb_prop in Hc. destruct Hc as [_ Hc].
    unfold not_c in Hc. apply negb_true_iff in Hc.
    change (lit "%") with [ch "%"]. cbn [eat]. rewrite N.eqb_sym, Hc.
    reflexivity. }
  assert (H2 : sub (Lit [cr; nl]) (fun _ => [nl]) t = t).
  { rewrite sub_sub_from.
    apply sub_id_heads with (ok := solid); [reflexivity | | exact Ht].
    intros c s' Hc. rewrite match_here_lit. cbn [eat].
    rewrite (@solid_not c cr Hc eq_refl). reflexivity. }
  assert (H3 : sub (AtLeast 3 (N.eqb nl)) (fun _ => [nl; nl]) t = t).
  { rewrite sub_sub_from.
    apply sub_id_heads with (ok := solid); [reflexivity | | exact Ht].
    intros c s' Hc. apply cls_head_none.
    apply (@solid_not c nl Hc eq_refl). }
  assert (H4 : replace [nl; nl] PARA_BREAK t = t).
  { unfold replace. rewrite sub_sub_from.
    apply sub_id_heads with (ok := solid); [reflexivity | | exact Ht].
    intros c s' Hc. rewrite match_here_lit. cbn [eat].
    rewrite (@solid_not c nl Hc eq_refl). reflexivity. }
  assert (H5 : sub (Lit [nl]) (fun _ => [sp]) t = t).
  { rewrite sub_sub_from.
    apply sub_id_heads with (ok := solid); [reflexivity | | exact Ht].
    intros c s' Hc. rewrite match_here_lit. cbn [eat].
    rewrite (@solid_not c nl Hc eq_refl). reflexivity. }
  assert (H6 : sub (Plus isspace) (fun _ => [sp]) t = t).
  { rewrite sub_sub_from.
    apply sub_id_heads with (ok := solid); [reflexivity | | exact Ht].
    intros c s' Hc. apply cls_head_none.
    unfold solid in Hc. apply andb_prop in Hc. destruct Hc as [Hc _].
    apply negb_true_iff in Hc. exact Hc. }
  rewrite H1, H2, H3, H4, H5, H6.
  apply trimmed_strip, solid_trimmed, Ht.
Qed.

Lemma word_solid (s : str) : forallb word_char s = true -> forallb solid s = true.
Proof.
  intros H. apply forallb_forall. intros c Hc.
  rewrite forallb_forall in H. specialize (H c Hc).
  unfold word_char in H. apply andb_prop in H. tauto.
Qed.

Lemma word_no_sentinel (text s : str) (i : nat) :
  forallb word_char s = true ->
  sub_from text (Lit PARA_BREAK) (fun _ => [nl; nl]) i s = s.
Proof.
  intros H. apply sub_id_heads with (ok := word_char); [reflexivity | | exact H].
  intros c s' Hc. rewrite match_here_lit.
  unfold word_char in Hc. apply andb_prop in Hc. destruct Hc as [_ Hc].
  unfold not_c in Hc. apply negb_true_iff in Hc.
  change PARA_BREAK with (ch "<" :: lit "<<PARA_BREAK>>>").
  cbn [eat]. rewrite N.eqb_sym, Hc. reflexivity.
Qed.

Lemma atleast_mt {A : Type} (text : str) (p : char -> bool) (g : caps)
      (k : str -> caps -> option A) :
  (forall s', k s' g <> None) ->
  forall n s,
    mt text (AtLeast n p) s g k =
      if n <=? length (take_while p s) then k (drop_while p s) g else None.
Proof.
  intros Hk. induction n as [|n IH]; intros s.
  - cbn [AtLeast mt Nat.leb]. apply star_greedy_total. exact Hk.
  - cbn [AtLeast mt]. destruct s as [|c s]; [reflexivity|].
    cbn [take_while drop_while]. destruct (p c); [|reflexivity].
    rewrite IH. reflexivity.
Qed.

Lemma atleast_match (text : str) (p : char -> bool) (n : nat) (s : str) :
  match_here text (AtLeast n p) s =
    if n <=? length (take_while p s) then Some ([], drop_while p s) else None.
Proof. unfold match_here. apply atleast_mt. discriminate. Qed.

Lemma remove_comments_passes (text : str) :
  remove_comments text =
    replace PARA_BREAK [nl; nl]
      (strip (fold_whitespace (sub comment_pattern (fun _ => []) text))).
Proof. reflexivity. Qed.

Lemma take_while_barrier (p : char -> bool) (a : str) (c : char) (s : str) :
  p c = false -> take_while p (a ++ c :: s) = take_while p a.
Proof.
  intros Hc. induction a as [|x a IH]; cbn [app take_while].
  - rewrite Hc. reflexivity.
  - destruct (p x); [rewrite IH|]; reflexivity.
Qed.

Lemma drop_while_barrier (p : char -> bool) (a : str) (c : char) (s : str) :
  p c = false -> drop_while p (a ++ c :: s) = drop_while p a ++ c :: s.
Proof.
  intros Hc. induction a as [|x a IH]; cbn [app drop_while].
  - rewrite Hc. reflexivity.
  - destruct (p x); [exact IH | reflexivity].
Qed.

Lemma eat_barrier (l a : str) (c : char) (s : str) :
  forallb isspace l = true -> isspace c = false ->
  eat l (a ++ c :: s) =
    match eat l a with Some rest => Some (rest ++ c :: s) | None => None end.
Proof.
  intros Hl Hc. revert a. induction l as [|x l IH]; intros a.
  - reflexivity.
  - cbn [forallb] in Hl. apply andb_prop in Hl. destruct Hl as [Hx Hl].
    destruct a as [|y a]; cbn [app eat].
    + destruct (N.eqb_spec x c) as [->|]; [congruence | reflexivity].
    + destruct (N.eqb x y); [apply IH; exact Hl | reflexivity].
Qed.

(** A substitution by a constant, for a pattern whose matches depend on the
    text at the position only, are not empty and neither begin at nor run
    over a character that is not whitespace: such a character cuts the text
    in two parts that are rewritten apart. *)
Section Barrier.
Variables (r : regex) (new : str) (f : str -> option (caps * str)).
Hypothesis match_at : forall text s, match_here text r s = f s.
Hypothesis match_nil : f [] = None.
Hypothesis match_cons :
  forall s g rest, f s = Some (g, rest) -> exists m, m <> [] /\ s = m ++ rest.
Hypothesis match_cut :
  forall a c s, isspace c = false ->
    f (a ++ c :: s) =
      match f a with Some (g, rest) => Some (g, rest ++ c :: s) | None => None end.

Lemma sub_from_const_indep (n : nat) :
  forall (s t t' : str) (i i' : nat), length s <= n ->
    sub_from t r (fun _ => new) i s = sub_from t' r (fun _ => new) i' s.
Proof.
  induction n as [|n IH]; intros s t t' i i' Hlen.
  - destruct s; [|cbn [length] in Hlen; lia].
    rewrite !sub_from_nil by (rewrite match_at; exact match_nil). reflexivity.
  - destruct (f s) as [[g rest]|] eqn:E.
    + destruct (match_cons E) as (m & Hne & ->).
      rewrite (@sub_from_hit t r _ i m rest g)
        by (try exact Hne; rewrite match_at; exact E).
      rewrite (@sub_from_hit t' r _ i' m rest g)
        by (try exact Hne; rewrite match_at; exact E).
      f_equal. apply IH. rewrite length_app in Hlen.
      destruct m; [congruence|]. cbn [length] in Hlen. lia.
    + destruct s as [|c s].
      * rewrite !sub_from_nil by (rewrite match_at; exact match_nil).
        reflexivity.
      * rewrite !sub_from_gap by (rewrite match_at; exact E).
        f_equal. apply IH. cbn [length] in Hlen. lia.
Qed.

Lemma sub_from_barrier (bar b : str) :
  bar <> [] -> forallb (fun c => negb (isspace c)) bar = true ->
  forall (n : nat) (a t t' t'' : str) (i i' i'' : nat), length a <= n ->
    sub_from t r (fun _ => new) i (a ++ bar ++ b) =
      sub_from t' r (fun _ => new) i' a ++ bar ++
      sub_from t'' r (fun _ => new) i'' b.
Proof.
  intros Hne Hbar.
  assert (Hnil : forall t t' t'' i i' i'',
             sub_from t r (fun _ => new) i ([] ++ bar ++ b) =
               sub_from t' r (fun _ => new) i' [] ++ bar ++
               sub_from t'' r (fun _ => new) i'' b).
  { intros t t' t'' i i' i''.
    rewrite (@sub_from_nil t') by (rewrite match_at; exact match_nil).
    cbn [app]. rewrite sub_from_gaps.
    - f_equal. apply (@sub_from_const_indep (length b)). lia.
    - intros p1 p2 Hp Hp2. rewrite match_at.
      rewrite Hp, forallb_app in Hbar. apply andb_prop in Hbar.
      destruct Hbar as [_ Hbar]. destruct p2 as [|d p2]; [congruence|].
      cbn [forallb] in Hbar. apply andb_prop in Hbar.
      destruct Hbar as [Hd _]. apply negb_true_iff in Hd.
      change ((d :: p2) ++ b) with ([] ++ d :: (p2 ++ b)).
      rewrite match_cut by exact Hd. rewrite match_nil. reflexivity. }
  destruct bar as [|c bar']; [congruence|].
  assert (Hc : isspace c = false).
  { cbn [forallb] in Hbar. apply andb_prop in Hbar.
    destruct Hbar as [Hc _]. apply negb_true_iff in Hc. exact Hc. }
  induction n as [|n IH]; intros a t t' t'' i i' i'' Hlen.
  - destruct a; [|cbn [length] in Hlen; lia]. apply Hnil.
  - destruct a as [|x a]; [apply Hnil|].
    pose proof (@match_cut (x :: a) c (bar' ++ b) Hc) as Hcut.
    destruct (f (x :: a)) as [[g rest]|] eqn:E.
    + destruct (match_cons E) as (m & Hm & Hs).
      rewrite Hs in *.
      replace ((m ++ rest) ++ (c :: bar') ++ b)
        with (m ++ rest ++ (c :: bar') ++ b)
        by (rewrite <- !app_assoc; reflexivity).
      rewrite (@sub_from_hit t r _ i m (rest ++ (c :: bar') ++ b) g).
      * rewrite (@sub_from_hit t' r _ i' m rest g)
          by (try exact Hm; rewrite match_at; exact E).
        rewrite <- app_assoc. f_equal. apply IH.
        rewrite length_app in Hlen.
        destruct m; [congruence|]. cbn [length] in Hlen. lia.
      * exact Hm.
      * rewrite match_at.
        replace (m ++ rest ++ (c :: bar') ++ b)
          with ((m ++ rest) ++ c :: bar' ++ b)
          by (rewrite <- !app_assoc; reflexivity).
        exact Hcut.
    + cbn [app]. rewrite sub_from_gap by (rewrite match_at; exact Hcut).
      rewrite (@sub_from_gap t') by (rewrite match_at; exact E).
      cbn [app]. f_equal. apply IH. cbn [length] in Hlen. lia.
Qed.

Lemma sub_barrier (a bar b : str) :
  bar <> [] -> forallb (fun c => negb (isspace c)) bar = true ->
  sub r (fun _ => new) (a ++ bar ++ b) =
    sub r (fun _ => new) a ++ bar ++ sub r (fun _ => new) b.
Proof.
  intros Hne Hbar. rewrite !sub_sub_from.
  apply (@sub_from_barrier bar b Hne Hbar (length a)). lia.
Qed.
End Barrier.

Lemma lit_barrier (l new a bar b : str) :
  l <> [] -> forallb isspace l = true ->
  bar <> [] -> forallb (fun c => negb (isspace c)) bar = true ->
  sub (Lit l) (fun _ => new) (a ++ bar ++ b) =
    sub (Lit l) (fun _ => new) a ++ bar ++ sub (Lit l) (fun _ => new) b.
Proof.
  intros Hl Hsp Hne Hbar.
  apply (@sub_barrier (Lit l) new
           (fun s => match eat l s with
                     | Some s' => Some ([], s')
                     | None => None
                     end)).
  - intros text s. apply match_here_lit.
  - destruct l; [congruence | reflexivity].
  - intros s g rest H. destruct (eat l s) as [s'|] eqn:E; [|discriminate].
    injection H as <- <-. apply eat_some in E. exists l. split; assumption.
  - intros x c s Hc. rewrite eat_barrier by assumption.
    destruct (eat l x); reflexivity.
  - exact Hne.
  - exact Hbar.
Qed.

Lemma atleast_barrier (n : nat) (p : char -> bool) (new a bar b : str) :
  (forall c, isspace c = false -> p c = false) ->
  bar <> [] -> forallb (fun c => negb (isspace c)) bar = true ->
  sub (AtLeast (S n) p) (fun _ => new) (a ++ bar ++ b) =
    sub (AtLeast (S n) p) (fun _ => new) a ++ bar ++
    sub (AtLeast (S n) p) (fun _ => new) b.
Proof.
  intros Hp Hne Hbar.
  apply (@sub_barrier (AtLeast (S n) p) new
           (fun s => if S n <=? length (take_while p s)
                     then Some ([], drop_while p s) else None)).
  - intros text s. apply atleast_match.
  - reflexivity.
  - intros s g rest H.
    destruct (S n <=? length (take_while p s)) eqn:E; [|discriminate].
    injection H as <- <-. exists (take_while p s). split.
    + apply Nat.leb_le in E. destruct (take_while p s);
        [cbn [length] in E; lia | discriminate].
    + symmetry. apply take_drop_while.
  - intros x c s Hc.
    rewrite take_while_barrier, drop_while_barrier by (apply Hp; exact Hc).
    destruct (S n <=? length (take_while p x)); reflexivity.
  - exact Hne.
  - exact Hbar.
Qed.

Lemma sentinel_not_space :
  forallb (fun c => negb (isspace c)) PARA_BREAK = true.
Proof. vm_compute. reflexivity. Qed.

Lemma sentinel_nonempty : PARA_BREAK <> [].
Proof. discriminate. Qed.

(** The whitespace passes rewrite the text before a sentinel and the text
    after it apart, and leave the sentinel. *)
Lemma fold_whitespace_sentinel (a b : str) :
  fold_whitespace (a ++ PARA_BREAK ++ b) =
    fold_whitespace a ++ PARA_BREAK ++ fold_whitespace b.
Proof.
  unfold fold_whitespace, replace.
  rewrite (@lit_barrier [cr; nl]) by
    (try discriminate; try reflexivity; apply sentinel_not_space).
  rewrite (@atleast_barrier 2 (N.eqb nl)).
  - rewrite (@lit_barrier [nl; nl]) by
      (try discriminate; try reflexivity; apply sentinel_not_space).
    rewrite (@lit_barrier [nl]) by
      (try discriminate; try reflexivity; apply sentinel_not_space).
    apply (@atleast_barrier 0 isspace).
    + intros c Hc. exact Hc.
    + exact sentinel_nonempty.
    + exact sentinel_not_space.
  - intros c Hc. destruct (N.eqb_spec nl c) as [<-|]; [discriminate|reflexivity].
  - exact sentinel_nonempty.
  - exact sentinel_not_space.
Qed.

Lemma rstrip_barrier (x bar : str) (d : char) (y : str) :
  isspace d = false ->
  rstrip (x ++ (bar ++ [d]) ++ y) = x ++ (bar ++ [d]) ++ rstrip y.
Proof.
  intros Hd. induction y as [|c y IH] using rev_ind.
  - rewrite rstrip_nil, !app_nil_r, app_assoc. apply rstrip_fixed. exact Hd.
  - replace (x ++ (bar ++ [d]) ++ y ++ [c])
      with ((x ++ (bar ++ [d]) ++ y) ++ [c])
      by (rewrite <- !app_assoc; reflexivity).
    rewrite !rstrip_snoc. destruct (isspace c); [exact IH|].
    rewrite <- !app_assoc. reflexivity.
Qed.

Lemma strip_sentinel (x y : str) :
  strip (x ++ PARA_BREAK ++ y) = lstrip x ++ PARA_BREAK ++ rstrip y.
Proof.
  unfold strip.
  assert (Hl : lstrip (x ++ PARA_BREAK ++ y) = lstrip x ++ PARA_BREAK ++ y).
  { unfold lstrip.
    change (PARA_BREAK ++ y) with (ch "<" :: lit "<<PARA_BREAK>>>" ++ y).
    apply drop_while_barrier. reflexivity. }
  rewrite Hl.
  change PARA_BREAK with (lit "<<<PARA_BREAK>>" ++ [ch ">"]).
  apply rstrip_barrier. reflexivity.
Qed.

Lemma borderless_overlap (l l1 l2 p : str) :
  borderless l = true -> l1 <> [] -> l2 <> [] ->
  l = l1 ++ l2 -> l = l2 ++ p -> False.
Proof.
  intros Hb H1 H2 E1 E2. unfold borderless in Hb.
  rewrite forallb_forall in Hb. specialize (Hb (length l2)).
  assert (Hlen : length l = length l1 + length l2)
    by (rewrite E1 at 1; apply length_app).
  assert (Hin : In (length l2) (seq 1 (length l - 1))).
  { apply in_seq. destruct l1; [congruence|]. destruct l2; [congruence|].
    cbn [length] in *. lia. }
  specialize (Hb Hin). apply negb_true_iff in Hb.
  assert (Hf : firstn (length l2) l = l2).
  { rewrite E2 at 1. rewrite firstn_app, Nat.sub_diag, firstn_all.
    cbn [firstn]. apply app_nil_r. }
  assert (Hs : skipn (length l - length l2) l = l2).
  { replace (length l - length l2) with (length l1) by lia.
    rewrite E1 at 1. rewrite skipn_app, Nat.sub_diag, skipn_all.
    reflexivity. }
  rewrite Hf, Hs in Hb. unfold str_eqb in Hb.
  destruct (list_eq_dec N.eq_dec l2 l2); congruence.
Qed.

(** The replacement of a borderless literal at one of its occurrences. *)
Section Occurrence.
Variables (l new : str).
Hypothesis l_nonempty : l <> [].
Hypothesis l_borderless : borderless l = true.

Lemma eat_before_occurrence (x y : str) :
  x <> [] -> eat l x = None -> eat l (x ++ l ++ y) = None.
Proof.
  intros Hx Hn.
  destruct (eat l (x ++ l ++ y)) as [r|] eqn:E; [|reflexivity].
  exfalso. apply eat_app_split in E.
  destruct E as [(p' & ->) | (l1 & l2 & El & -> & Hl2 & E)].
  - rewrite eat_app in Hn. discriminate.
  - apply eat_app_split in E.
    destruct E as [(p' & Ep) | (l3 & l4 & El2 & El3 & Hl4 & _)].
    + exact (@borderless_overlap l l1 l2 p' l_borderless Hx Hl2 El Ep).
    + apply (f_equal (@length char)) in El, El2.
      rewrite length_app in El, El2. rewrite <- El3 in El2.
      destruct l1; [congruence|]. destruct l4; [congruence|].
      cbn [length] in *. lia.
Qed.

Lemma lit_from_indep (n : nat) :
  forall (s t t' : str) (i i' : nat), length s <= n ->
    sub_from t (Lit l) (fun _ => new) i s =
    sub_from t' (Lit l) (fun _ => new) i' s.
Proof.
  apply (@sub_from_const_indep (Lit l) new
           (fun s => match eat l s with
                     | Some s' => Some ([], s')
                     | None => None
                     end)).
  - intros text s. apply match_here_lit.
  - destruct l; [congruence | reflexivity].
  - intros s g rest H. destruct (eat l s) as [s'|] eqn:E; [|discriminate].
    injection H as <- <-. apply eat_some in E. exists l. split; assumption.
Qed.

Lemma replace_from_occurrence (y : str) (n : nat) :
  forall (x t t' t'' : str) (i i' i'' : nat), length x <= n ->
    sub_from t (Lit l) (fun _ => new) i (x ++ l ++ y) =
      sub_from t' (Lit l) (fun _ => new) i' x ++ new ++
      sub_from t'' (Lit l) (fun _ => new) i'' y.
Proof.
  assert (Hnil : forall t t' t'' i i' i'',
             sub_from t (Lit l) (fun _ => new) i ([] ++ l ++ y) =
               sub_from t' (Lit l) (fun _ => new) i' [] ++ new ++
               sub_from t'' (Lit l) (fun _ => new) i'' y).
  { intros t t' t'' i i' i''.
    rewrite (@sub_from_nil t')
      by (rewrite match_here_lit; destruct l; [congruence | reflexivity]).
    cbn [app].
    rewrite (@sub_from_hit t (Lit l) _ i l y [])
      by (try exact l_nonempty; rewrite match_here_lit, eat_app; reflexivity).
    f_equal. apply (@lit_from_indep (length y)). lia. }
  induction n as [|n IH]; intros x t t' t'' i i' i'' Hlen.
  - destruct x; [|cbn [length] in Hlen; lia]. apply Hnil.
  - destruct x as [|c x]; [apply Hnil|].
    destruct (eat l (c :: x)) as [rest|] eqn:E.
    + apply eat_some in E. rewrite E.
      rewrite <- app_assoc.
      rewrite (@sub_from_hit t (Lit l) _ i l (rest ++ l ++ y) [])
        by (try exact l_nonempty; rewrite match_here_lit, eat_app; reflexivity).
      rewrite (@sub_from_hit t' (Lit l) _ i' l rest [])
        by (try exact l_nonempty; rewrite match_here_lit, eat_app; reflexivity).
      rewrite <- app_assoc. f_equal. apply IH.
      apply (f_equal (@length char)) in E. rewrite length_app in E.
      destruct l; [congruence|]. cbn [length] in *. lia.
    + assert (E' : eat l ((c :: x) ++ l ++ y) = None)
        by (apply eat_before_occurrence; [discriminate | exact E]).
      cbn [app] in E' |- *.
      rewrite sub_from_gap by (rewrite match_here_lit, E'; reflexivity).
      rewrite (@sub_from_gap t') by (rewrite match_here_lit, E; reflexivity).
      cbn [app]. f_equal. apply IH. cbn [length] in Hlen. lia.
Qed.

Lemma replace_occurrence (x y : str) :
  replace l new (x ++ l ++ y) = replace l new x ++ new ++ replace l new y.
Proof.
  unfold replace. rewrite !sub_sub_from.
  apply (@replace_from_occurrence y (length x)). lia.
Qed.
End Occurrence.

Lemma sentinel_borderless : borderless PARA_BREAK = true.
Proof. vm_compute. reflexivity. Qed.

Lemma no_percent_no_comment (text : str) :
  forallb (not_c "%") text = true ->
  sub comment_pattern (fun _ => []) text = text.
Proof.
  intros H. rewrite sub_sub_from.
  apply sub_id_heads with (ok := not_c "%").
  - apply comment_pattern_none. reflexivity.
  - intros c s' Hc. apply comment_pattern_none.
    unfold not_c in Hc. apply negb_true_iff in Hc.
    change (lit "%") with [ch "%"]. cbn [eat].
    rewrite N.eqb_sym, Hc. reflexivity.
  - exact H.
Qed.




(** ** Final cleanup (C6) *)

Lemma take_while_eqb (c : char) (s : str) :
  take_while (N.eqb c) s = repeat c (length (take_while (N.eqb c) s)).
Proof.
  induction s as [|d s IH]; [reflexivity|].
  cbn [take_while]. destruct (N.eqb_spec c d) as [<-|]; [|reflexivity].
  cbn [length repeat]. f_equal. exact IH.
Qed.

Lemma drop_while_idem (p : char -> bool) (s : str) :
  drop_while p (drop_while p s) = drop_while p s.
Proof.
  destruct (drop_while p s) as [|c t] eqn:E; [reflexivity|].
  apply drop_while_stop. eapply drop_while_head; eauto.
Qed.

Lemma take_while_drop_while (p : char -> bool) (s : str) :
  take_while p (drop_while p s) = [].
Proof.
  destruct (drop_while p s) as [|c t] eqn:E; [reflexivity|].
  cbn [take_while]. rewrite (drop_while_head _ _ E). reflexivity.
Qed.

Lemma drop_while_length (p : char -> bool) (s : str) :
  length s = length (take_while p s) + length (drop_while p s).
Proof. rewrite <- length_app, take_drop_while. reflexivity. Qed.

(** Adjacent characters all in the relation [R]. *)
Fixpoint adj (R : char -> char -> bool) (s : str) : bool :=
  match s with
  | a :: (b :: _) as t => R a b && adj R t
  | _ => true
  end.

Lemma adj_cons (R : char -> char -> bool) (a : char) (s : str) :
  adj R (a :: s) = match s with b :: _ => R a b && adj R s | [] => true end.
Proof. destruct s; reflexivity. Qed.

Lemma adj_tail (R : char -> char -> bool) (a : char) (s : str) :
  adj R (a :: s) = true -> adj R s = true.
Proof.
  rewrite adj_cons. destruct s; [reflexivity|].
  intros H. apply andb_prop in H. tauto.
Qed.

Lemma adj_suffix (R : char -> char -> bool) (p s : str) :
  adj R (p ++ s) = true -> adj R s = true.
Proof.
  induction p as [|a p IH]; [auto|]. intros H. apply IH.
  cbn [app] in H. eapply adj_tail; eauto.
Qed.

Lemma adj_prefix (R : char -> char -> bool) (s w : str) :
  adj R (s ++ w) = true -> adj R s = true.
Proof.
  induction s as [|a s IH]; [reflexivity|].
  cbn [app]. rewrite !adj_cons. destruct s as [|b s].
  - reflexivity.
  - cbn [app]. intros H. apply andb_prop in H. destruct H as [Hab H].
    rewrite Hab. apply IH. exact H.
Qed.

(** Appending one character to a string that ends well. *)
Lemma adj_snoc (R : char -> char -> bool) (s : str) (d e : char) :
  adj R (s ++ [d]) = true -> R d e = true -> adj R (s ++ [d; e]) = true.
Proof.
  induction s as [|a s IH]; intros H Hde.
  - cbn. rewrite Hde. reflexivity.
  - cbn [app] in *. rewrite adj_cons in *.
    destruct s as [|b s].
    + cbn [app] in *. apply andb_prop in H. destruct H as [Hab _].
      rewrite Hab. cbn. rewrite Hde. reflexivity.
    + cbn [app] in *. apply andb_prop in H. destruct H as [Hab H].
      rewrite Hab. apply IH; assumption.
Qed.

(** No [n] characters [c] in a row. *)
Definition short_runs (c : char) (n : nat) (s : str) : Prop :=
  forall p1 p2, s = p1 ++ p2 -> length (take_while (N.eqb c) p2) < n.

Lemma short_runs_suffix (c : char) (n : nat) (p s : str) :
  short_runs c n (p ++ s) -> short_runs c n s.
Proof.
  intros H p1 p2 ->. apply (H (p ++ p1) p2). apply app_assoc.
Qed.

Lemma take_while_app_le (p : char -> bool) (a b : str) :
  length (take_while p a) <= length (take_while p (a ++ b)).
Proof.
  induction a as [|x a IH]; cbn [app take_while length]; [lia|].
  destruct (p x); cbn [length]; lia.
Qed.

Lemma short_runs_prefix (c : char) (n : nat) (s w : str) :
  short_runs c n (s ++ w) -> short_runs c n s.
Proof.
  intros H p1 p2 ->.
  pose proof (H p1 (p2 ++ w) (eq_sym (app_assoc _ _ _))) as Hlt.
  pose proof (take_while_app_le (N.eqb c) p2 w). lia.
Qed.

Lemma short_runs_cons (c : char) (n : nat) (d : char) (s : str) :
  length (take_while (N.eqb c) (d :: s)) < n -> short_runs c n s ->
  short_runs c n (d :: s).
Proof.
  intros Hd Hs p1 p2 Hp. destruct p1 as [|x p1].
  - cbn [app] in Hp. subst p2. exact Hd.
  - cbn [app] in Hp. injection Hp as _ Hp. eapply Hs; eauto.
Qed.

Lemma take_while_repeat (c : char) (k : nat) (X : str) :
  take_while (N.eqb c) X = [] ->
  take_while (N.eqb c) (repeat c k ++ X) = repeat c k.
Proof.
  intros HX. rewrite take_while_app.
  - rewrite HX. apply app_nil_r.
  - apply forallb_forall. intros x Hx. apply repeat_spec in Hx.
    subst. apply N.eqb_refl.
Qed.

Lemma short_runs_repeat (c : char) (n k : nat) (X : str) :
  k < n -> take_while (N.eqb c) X = [] -> short_runs c n X ->
  short_runs c n (repeat c k ++ X).
Proof.
  intros Hk Hhead HX. induction k as [|k IH]; [exact HX|].
  cbn [repeat app]. apply short_runs_cons.
  - change (c :: repeat c k ++ X) with (repeat c (S k) ++ X).
    rewrite take_while_repeat by exact Hhead.
    rewrite repeat_length. exact Hk.
  - apply IH. lia.
Qed.

Section Collapse.
Variables (text : str) (c : char) (n m : nat).
Hypothesis m_pos : 1 <= m.
Hypothesis m_lt_n : m < n.

Let run (s : str) : nat := length (take_while (N.eqb c) s).
Let out (i : nat) (s : str) : str :=
  sub_from text (AtLeast n (N.eqb c)) (fun _ => repeat c m) i s.

Lemma collapse_nil (i : nat) : out i [] = [].
Proof.
  apply sub_from_nil. rewrite atleast_match. cbn [take_while length].
  destruct n; [lia | reflexivity].
Qed.

Lemma collapse_hit (i : nat) (s : str) :
  n <= run s ->
  out i s = repeat c m ++ out (i + run s) (drop_while (N.eqb c) s).
Proof.
  intros Hn. unfold out.
  rewrite <- (take_drop_while (N.eqb c) s) at 1.
  rewrite (@sub_from_hit text (AtLeast n (N.eqb c)) _ i
             (take_while (N.eqb c) s) (drop_while (N.eqb c) s) []).
  - reflexivity.
  - intros E. unfold run in Hn. rewrite E in Hn. cbn [length] in Hn. lia.
  - rewrite take_drop_while, atleast_match.
    apply Nat.leb_le in Hn. unfold run in Hn. rewrite Hn. reflexivity.
Qed.

Lemma collapse_gap (i : nat) (d : char) (s : str) :
  run (d :: s) < n -> out i (d :: s) = d :: out (S i) s.
Proof.
  intros Hn. apply sub_from_gap. rewrite atleast_match.
  apply Nat.leb_gt in Hn. unfold run in Hn. rewrite Hn. reflexivity.
Qed.

Lemma run_head (d : char) (s : str) : 1 <= run (d :: s) -> d = c.
Proof.
  unfold run. cbn [take_while]. destruct (N.eqb_spec c d); [auto|].
  cbn [length]. lia.
Qed.

Lemma collapse_head (i : nat) (s : str) : hd_error (out i s) = hd_error s.
Proof.
  destruct s as [|d s]; [rewrite collapse_nil; reflexivity|].
  destruct (Nat.le_gt_cases n (run (d :: s))) as [Hn|Hn].
  - rewrite collapse_hit by exact Hn.
    rewrite (@run_head d s) by lia.
    destruct m; [lia | reflexivity].
  - rewrite collapse_gap by exact Hn. reflexivity.
Qed.

Lemma collapse_rest_head (i : nat) (s : str) :
  take_while (N.eqb c) (out i (drop_while (N.eqb c) s)) = [].
Proof.
  pose proof (collapse_head i (drop_while (N.eqb c) s)) as Hh.
  destruct (out i (drop_while (N.eqb c) s)) as [|y X]; [reflexivity|].
  cbn [hd_error] in Hh.
  destruct (drop_while (N.eqb c) s) as [|y' r'] eqn:Ed; [discriminate|].
  cbn [hd_error] in Hh. injection Hh as ->.
  cbn [take_while]. rewrite (drop_while_head _ _ Ed). reflexivity.
Qed.

Lemma adj_repeat_boundary (R : char -> char -> bool) (r : nat) (y : char)
      (rest : str) :
  1 <= r -> adj R (repeat c r ++ y :: rest) = true -> R c y = true.
Proof.
  induction r as [|r IH]; [lia|]. intros _ H.
  destruct r as [|r].
  - cbn in H. apply andb_prop in H. tauto.
  - apply IH; [lia|]. cbn [repeat app] in *. eapply adj_tail; eauto.
Qed.

Lemma adj_repeat_build (R : char -> char -> bool) (k : nat) (X : str) :
  R c c = true ->
  (forall y X', X = y :: X' -> R c y = true) ->
  adj R X = true -> adj R (repeat c k ++ X) = true.
Proof.
  intros Hcc Hb HX. induction k as [|k IH]; [exact HX|].
  cbn [repeat app]. rewrite adj_cons.
  destruct (repeat c k ++ X) as [|b t] eqn:E; [reflexivity|].
  rewrite IH, andb_true_r.
  destruct k as [|k].
  - cbn [repeat app] in E. eauto.
  - cbn [repeat app] in E. injection E as <- _. exact Hcc.
Qed.

(** Collapsing runs keeps every relation between neighbours. *)
Lemma collapse_adj (R : char -> char -> bool) (k : nat) :
  forall s i, length s <= k -> adj R s = true -> adj R (out i s) = true.
Proof.
  induction k as [|k IH]; intros s i Hlen Hs.
  - destruct s; [|cbn [length] in Hlen; lia]. rewrite collapse_nil. reflexivity.
  - destruct s as [|d s]; [rewrite collapse_nil; reflexivity|].
    destruct (Nat.le_gt_cases n (run (d :: s))) as [Hn|Hn].
    + rewrite collapse_hit by exact Hn.
      pose proof (take_drop_while (N.eqb c) (d :: s)) as Hsplit.
      rewrite take_while_eqb in Hsplit. fold (run (d :: s)) in Hsplit.
      set (rest := drop_while (N.eqb c) (d :: s)) in *.
      assert (Hrest : adj R rest = true).
      { rewrite <- Hsplit in Hs. eapply adj_suffix; eauto. }
      assert (Hcc : R c c = true).
      { rewrite <- Hsplit in Hs.
        destruct (run (d :: s)) as [|[|r]]; [lia | lia |].
        cbn [repeat app] in Hs. rewrite adj_cons in Hs.
        apply andb_prop in Hs. tauto. }
      apply adj_repeat_build; [exact Hcc | |].
      * intros y X' HX.
        pose proof (collapse_head (i + run (d :: s)) rest) as Hh.
        rewrite HX in Hh. cbn [hd_error] in Hh.
        destruct rest as [|y' rest'] eqn:Er; [discriminate|].
        cbn [hd_error] in Hh. injection Hh as ->.
        rewrite <- Hsplit in Hs.
        apply (@adj_repeat_boundary R (run (d :: s)) y' rest'); [lia | exact Hs].
      * apply IH; [|exact Hrest].
        pose proof (drop_while_length (N.eqb c) (d :: s)) as Hl.
        fold rest in Hl. fold (run (d :: s)) in Hl. lia.
    + rewrite collapse_gap by exact Hn. rewrite adj_cons.
      destruct (out (S i) s) as [|b t] eqn:E; [reflexivity|].
      pose proof (collapse_head (S i) s) as Hh. rewrite E in Hh.
      cbn [hd_error] in Hh. destruct s as [|b' s']; [discriminate|].
      cbn [hd_error] in Hh. injection Hh as ->.
      rewrite adj_cons in Hs. apply andb_prop in Hs. destruct Hs as [Hdb Hs].
      rewrite Hdb. cbn [andb]. rewrite <- E. apply IH; [|exact Hs].
      cbn [length] in *. lia.
Qed.

Lemma collapse_run_le (s : str) : forall i, run (out i s) <= run s.
Proof.
  induction s as [|d s IH]; intros i.
  - rewrite collapse_nil. lia.
  - destruct (Nat.le_gt_cases n (run (d :: s))) as [Hn|Hn].
    + rewrite collapse_hit by exact Hn.
      unfold run at 1.
      rewrite take_while_repeat by apply collapse_rest_head.
      rewrite repeat_length. lia.
    + rewrite collapse_gap by exact Hn.
      specialize (IH (S i)). unfold run in *. cbn [take_while].
      destruct (N.eqb c d); cbn [length]; lia.
Qed.

(** After the collapse no run of [n] is left. *)
Lemma collapse_short (k : nat) :
  forall s i, length s <= k -> short_runs c n (out i s).
Proof.
  induction k as [|k IH]; intros s i Hlen.
  - destruct s; [|cbn [length] in Hlen; lia]. rewrite collapse_nil.
    intros p1 p2 Hp. symmetry in Hp. apply app_eq_nil in Hp.
    destruct Hp as [_ ->]. cbn [take_while length]. lia.
  - destruct s as [|d s].
    { rewrite collapse_nil. intros p1 p2 Hp. symmetry in Hp.
      apply app_eq_nil in Hp. destruct Hp as [_ ->].
      cbn [take_while length]. lia. }
    destruct (Nat.le_gt_cases n (run (d :: s))) as [Hn|Hn].
    + rewrite collapse_hit by exact Hn.
      set (rest := drop_while (N.eqb c) (d :: s)).
      assert (HX : short_runs c n (out (i + run (d :: s)) rest)).
      { apply IH.
        pose proof (drop_while_length (N.eqb c) (d :: s)) as Hl.
        fold rest in Hl. fold (run (d :: s)) in Hl. lia. }
      assert (Hhead : take_while (N.eqb c) (out (i + run (d :: s)) rest) = [])
        by apply collapse_rest_head.
      apply short_runs_repeat; assumption.
    + rewrite collapse_gap by exact Hn. apply short_runs_cons.
      * pose proof (collapse_run_le s (S i)) as Hle.
        unfold run in *. cbn [take_while] in *.
        destruct (N.eqb c d); cbn [length] in *; lia.
      * apply IH. cbn [length] in Hlen. lia.
Qed.

(** A text without a run of [n] is left as it is. *)
Lemma collapse_fixed (s : str) (i : nat) :
  short_runs c n s -> out i s = s.
Proof.
  intros H. apply sub_from_id. intros p1 p2 Hp.
  rewrite atleast_match. specialize (H p1 p2 Hp).
  apply Nat.leb_gt in H. rewrite H. reflexivity.
Qed.
End Collapse.

(** No space or tab next to a newline. *)
Definition ok1 (a b : char) : bool :=
  negb ((space_or_tab a && N.eqb nl b) || (N.eqb nl a && space_or_tab b)).

(** No two spaces in a row. *)
Definition ok2 (a b : char) : bool := negb (N.eqb sp a && N.eqb sp b).

Lemma sot_not_nl (d : char) : space_or_tab d = true -> N.eqb nl d = false.
Proof.
  unfold space_or_tab. intros H. apply orb_prop in H.
  destruct H as [H|H]; apply N.eqb_eq in H; subst; reflexivity.
Qed.

Lemma sot_isspace (d : char) : isspace d = false -> space_or_tab d = false.
Proof.
  intros H. destruct (space_or_tab d) eqn:E; [|reflexivity].
  unfold space_or_tab in E. apply orb_prop in E.
  destruct E as [E|E]; apply N.eqb_eq in E; subst; discriminate.
Qed.

Lemma around_match (text s : str) :
  match_here text around_newline s =
    match drop_while space_or_tab s with
    | c :: t =>
        if N.eqb nl c then Some ([], drop_while space_or_tab t) else None
    | [] => None
    end.
Proof.
  unfold match_here, around_newline. cbn [mt].
  rewrite star_greedy_max.
  - destruct (drop_while space_or_tab s) as [|c t]; [reflexivity|].
    cbn [eat]. destruct (N.eqb nl c); [|reflexivity].
    apply star_greedy_total. discriminate.
  - intros c s' Hc. cbn [eat]. rewrite sot_not_nl by exact Hc. reflexivity.
Qed.

(** A match of [[ \t]*\n[ \t]*] begins here. *)
Definition starts1 (s : str) : bool :=
  match drop_while space_or_tab s with
  | c :: _ => N.eqb nl c
  | [] => false
  end.

Section AroundNewline.
Variable text : str.

Let out1 (i : nat) (s : str) : str :=
  sub_from text around_newline (fun _ => [nl]) i s.

Lemma around_nil (i : nat) : out1 i [] = [].
Proof. apply sub_from_nil. reflexivity. Qed.

Lemma around_gap (i : nat) (d : char) (s : str) :
  starts1 (d :: s) = false -> out1 i (d :: s) = d :: out1 (S i) s.
Proof.
  intros H. apply sub_from_gap. rewrite around_match.
  unfold starts1 in H. destruct (drop_while space_or_tab (d :: s)); [reflexivity|].
  rewrite H. reflexivity.
Qed.

Lemma around_hit (i : nat) (s t : str) :
  drop_while space_or_tab s = nl :: t ->
  exists j, out1 i s = nl :: out1 j (drop_while space_or_tab t) /\
            length (drop_while space_or_tab t) < length s.
Proof.
  intros H.
  set (m := take_while space_or_tab s ++ nl :: take_while space_or_tab t).
  set (rest := drop_while space_or_tab t).
  assert (Hs : s = m ++ rest).
  { unfold m, rest. rewrite <- app_assoc. cbn [app].
    rewrite take_drop_while, <- H, take_drop_while. reflexivity. }
  exists (i + length m). split.
  - unfold out1. rewrite Hs at 1.
    rewrite (@sub_from_hit text around_newline _ i m rest []).
    + reflexivity.
    + unfold m. destruct (take_while space_or_tab s); discriminate.
    + rewrite <- Hs, around_match, H. reflexivity.
  - rewrite Hs, length_app. unfold m. rewrite length_app. cbn [length]. lia.
Qed.

Lemma around_head (i : nat) (s : str) :
  hd_error (out1 i s) = if starts1 s then Some nl else hd_error s.
Proof.
  destruct (starts1 s) eqn:E.
  - unfold starts1 in E.
    destruct (drop_while space_or_tab s) as [|c t] eqn:Ed; [discriminate|].
    apply N.eqb_eq in E. subst c.
    destruct (around_hit i _ Ed) as (j & -> & _). reflexivity.
  - destruct s as [|d s]; [rewrite around_nil; reflexivity|].
    rewrite around_gap by exact E. reflexivity.
Qed.

(** After the first substitution no space or tab is next to a newline. *)
Lemma around_clean (k : nat) :
  forall s i, length s <= k -> adj ok1 (out1 i s) = true.
Proof.
  induction k as [|k IH]; intros s i Hlen.
  - destruct s; [|cbn [length] in Hlen; lia]. rewrite around_nil. reflexivity.
  - destruct (starts1 s) eqn:E.
    + unfold starts1 in E.
      destruct (drop_while space_or_tab s) as [|c t] eqn:Ed; [discriminate|].
      apply N.eqb_eq in E. subst c.
      destruct (around_hit i _ Ed) as (j & -> & Hshort).
      rewrite adj_cons.
      pose proof (around_head j (drop_while space_or_tab t)) as Hh.
      destruct (out1 j (drop_while space_or_tab t)) as [|b X] eqn:EX;
        [reflexivity|].
      rewrite <- EX, IH by lia. rewrite andb_true_r.
      cbn [hd_error] in Hh.
      destruct (starts1 (drop_while space_or_tab t)) eqn:E2.
      * injection Hh as ->. reflexivity.
      * destruct (drop_while space_or_tab t) as [|b' r'] eqn:Er; [discriminate|].
        cbn [hd_error] in Hh. injection Hh as ->.
        unfold ok1. rewrite (drop_while_head _ _ Er).
        change (space_or_tab nl) with false. rewrite andb_false_r. reflexivity.
    + destruct s as [|d s]; [rewrite around_nil; reflexivity|].
      rewrite around_gap by exact E. rewrite adj_cons.
      pose proof (around_head (S i) s) as Hh.
      destruct (out1 (S i) s) as [|b X] eqn:EX; [reflexivity|].
      rewrite <- EX, IH by (cbn [length] in Hlen; lia). rewrite andb_true_r.
      cbn [hd_error] in Hh. unfold starts1 in E. cbn [drop_while] in E.
      destruct (space_or_tab d) eqn:Ed.
      * fold (starts1 s) in E. rewrite E in Hh.
        destruct s as [|b' s']; [discriminate|].
        cbn [hd_error] in Hh. injection Hh as ->.
        unfold starts1 in E. cbn [drop_while] in E.
        unfold ok1. rewrite Ed, (@sot_not_nl d Ed).
        cbn [andb]. rewrite orb_false_r.
        destruct (space_or_tab b') eqn:Eb.
        -- rewrite (@sot_not_nl b' Eb). reflexivity.
        -- rewrite E. reflexivity.
      * unfold ok1. rewrite Ed, E. reflexivity.
Qed.

Lemma sot_run_no_nl (s : str) :
  adj ok1 s = true ->
  (forall d s', s = d :: s' -> space_or_tab d = true) ->
  starts1 s = false.
Proof.
  induction s as [|d s IH]; intros Hadj Hd; [reflexivity|].
  pose proof (Hd d s eq_refl) as Hsot.
  unfold starts1. cbn [drop_while]. rewrite Hsot. fold (starts1 s).
  destruct s as [|b s']; [reflexivity|].
  rewrite adj_cons in Hadj. apply andb_prop in Hadj. destruct Hadj as [Hdb Hadj].
  unfold ok1 in Hdb. rewrite Hsot in Hdb. cbn [andb] in Hdb.
  apply negb_true_iff in Hdb. apply orb_false_iff in Hdb. destruct Hdb as [Hb _].
  destruct (space_or_tab b) eqn:Eb.
  - apply IH; [exact Hadj|]. intros d0 s0 H0. injection H0 as <- _. exact Eb.
  - unfold starts1. cbn [drop_while]. rewrite Eb. exact Hb.
Qed.

(** A text without space or tab next to a newline is left as it is. *)
Lemma around_fixed (s : str) :
  adj ok1 s = true -> forall i, out1 i s = s.
Proof.
  induction s as [|d s IH]; intros Hadj i; [apply around_nil|].
  destruct (N.eqb nl d) eqn:Ed.
  - apply N.eqb_eq in Ed. subst d.
    assert (Hs : drop_while space_or_tab s = s).
    { destruct s as [|b s']; [reflexivity|].
      rewrite adj_cons in Hadj. apply andb_prop in Hadj. destruct Hadj as [Hb _].
      unfold ok1 in Hb. rewrite N.eqb_refl in Hb.
      change (space_or_tab nl) with false in Hb. cbn [andb orb] in Hb.
      apply negb_true_iff in Hb. apply drop_while_stop. exact Hb. }
    destruct (@around_hit i (nl :: s) s eq_refl) as (j & -> & _).
    rewrite Hs. f_equal. apply IH. eapply adj_tail; eauto.
  - rewrite around_gap.
    + f_equal. apply IH. eapply adj_tail; eauto.
    + destruct (space_or_tab d) eqn:Esot.
      * apply sot_run_no_nl; [exact Hadj|].
        intros d0 s0 H0. injection H0 as <- _. exact Esot.
      * unfold starts1. cbn [drop_while]. rewrite Esot. exact Ed.
Qed.
End AroundNewline.

Lemma short2_adj (s : str) : short_runs sp 2 s -> adj ok2 s = true.
Proof.
  induction s as [|a s IH]; intros H; [reflexivity|].
  rewrite adj_cons. destruct s as [|b s]; [reflexivity|].
  rewrite IH by (eapply (@short_runs_suffix sp 2 [a]); exact H).
  rewrite andb_true_r.
  specialize (H [] (a :: b :: s) eq_refl). cbn [take_while] in H.
  unfold ok2. destruct (N.eqb sp a); [|reflexivity].
  destruct (N.eqb sp b); [|reflexivity].
  cbn [length] in H. lia.
Qed.

Lemma adj_short2 (s : str) : adj ok2 s = true -> short_runs sp 2 s.
Proof.
  intros H p1 p2 ->. apply adj_suffix in H.
  destruct p2 as [|a [|b p2]]; cbn [take_while].
  - cbn [length]. lia.
  - destruct (N.eqb sp a); cbn [length]; lia.
  - rewrite adj_cons in H. apply andb_prop in H. destruct H as [H _].
    unfold ok2 in H. destruct (N.eqb sp a); [|cbn [length]; lia].
    destruct (N.eqb sp b); [discriminate | cbn [length]; lia].
Qed.

(** The form of a text after the three substitutions of [final_cleanup]. *)
Definition cleaned (s : str) : Prop :=
  adj ok1 s = true /\ short_runs sp 2 s /\ short_runs nl 3 s.

Lemma final_steps_cleaned (text : str) :
  cleaned (sub newlines3 (fun _ => [nl; nl])
             (sub spaces2 (fun _ => [sp])
                (sub around_newline (fun _ => [nl]) text))).
Proof.
  set (t1 := sub around_newline (fun _ => [nl]) text).
  set (t2 := sub spaces2 (fun _ => [sp]) t1).
  assert (H1 : adj ok1 t1 = true).
  { unfold t1. rewrite sub_sub_from. apply (@around_clean text (length text)). lia. }
  assert (H2 : adj ok1 t2 = true /\ short_runs sp 2 t2).
  { unfold t2, spaces2. rewrite sub_sub_from. split.
    - apply (@collapse_adj t1 sp 2 1) with (k := length t1); auto; lia.
    - apply (@collapse_short t1 sp 2 1) with (k := length t1); auto; lia. }
  destruct H2 as [H2 H2'].
  unfold newlines3. rewrite sub_sub_from. repeat split.
  - apply (@collapse_adj t2 nl 3 2) with (k := length t2); auto; lia.
  - apply adj_short2.
    apply (@collapse_adj t2 nl 3 2) with (k := length t2); auto; try lia.
    apply short2_adj. exact H2'.
  - apply (@collapse_short t2 nl 3 2) with (k := length t2); auto; lia.
Qed.

Lemma cleaned_strip (s : str) : cleaned s -> cleaned (strip s).
Proof.
  intros (H1 & H2 & H3).
  destruct (strip_split s) as (w1 & w2 & Hs & _ & _).
  rewrite Hs in H1, H2, H3. repeat split.
  - eapply adj_prefix, adj_suffix; eauto.
  - eapply short_runs_prefix, short_runs_suffix; eauto.
  - eapply short_runs_prefix, short_runs_suffix; eauto.
Qed.

Lemma take_while_stop_app (p : char -> bool) (q : str) (d : char) (r : str) :
  p d = false -> take_while p ((q ++ [d]) ++ r) = take_while p (q ++ [d]).
Proof.
  intros Hd. induction q as [|x q IH]; cbn [app take_while].
  - rewrite Hd. reflexivity.
  - destruct (p x); [f_equal; exact IH | reflexivity].
Qed.

(** The suffixes of [u ++ [e]]. *)
Lemma suffix_snoc (u p1 p2 : str) (e : char) :
  u ++ [e] = p1 ++ p2 ->
  p2 = [] \/ exists p2', p2 = p2' ++ [e] /\ u = p1 ++ p2'.
Proof.
  intros H. destruct p2 as [|x p2 _] using rev_ind; [left; reflexivity|].
  right. rewrite app_assoc in H. apply app_inj_tail in H.
  destruct H as [-> ->]. eauto.
Qed.

Lemma trimmed_last (u p : str) (d : char) :
  trimmed u -> u = p ++ [d] -> isspace d = false.
Proof.
  intros Ht Hu. destruct Ht as [|c Hc|c e s Hc He].
  - destruct p; discriminate.
  - change [c] with ([] ++ [c]) in Hu. apply app_inj_tail in Hu.
    destruct Hu as [_ <-]. exact Hc.
  - change (c :: s ++ [e]) with ((c :: s) ++ [e]) in Hu.
    apply app_inj_tail in Hu. destruct Hu as [_ <-]. exact He.
Qed.

Lemma cleaned_newline (u : str) :
  cleaned u -> trimmed u -> cleaned (u ++ [nl]).
Proof.
  intros (H1 & H2 & H3) Ht. repeat split.
  - destruct u as [|x u _] using rev_ind; [reflexivity|].
    rewrite <- app_assoc. cbn [app]. apply adj_snoc; [exact H1|].
    pose proof (@trimmed_last _ _ _ Ht eq_refl) as Hx.
    unfold ok1. rewrite (@sot_isspace _ Hx). change (space_or_tab nl) with false.
    rewrite andb_false_r. reflexivity.
  - intros p1 p2 Hp. apply suffix_snoc in Hp.
    destruct Hp as [-> | (p2' & -> & Hu)]; [cbn [take_while length]; lia|].
    specialize (H2 p1 p2' Hu).
    destruct p2' as [|y q _] using rev_ind; [cbn; lia|].
    destruct (N.eqb sp y) eqn:Ey.
    + apply N.eqb_eq in Ey. subst y. rewrite app_assoc in Hu.
      pose proof (@trimmed_last _ _ _ Ht Hu). discriminate.
    + rewrite take_while_stop_app by exact Ey. exact H2.
  - intros p1 p2 Hp. apply suffix_snoc in Hp.
    destruct Hp as [-> | (p2' & -> & Hu)]; [cbn [take_while length]; lia|].
    specialize (H3 p1 p2' Hu).
    destruct p2' as [|y q _] using rev_ind; [cbn; lia|].
    destruct (N.eqb nl y) eqn:Ey.
    + apply N.eqb_eq in Ey. subst y. rewrite app_assoc in Hu.
      pose proof (@trimmed_last _ _ _ Ht Hu). discriminate.
    + rewrite take_while_stop_app by exact Ey. exact H3.
Qed.

Lemma cleaned_fixed (s : str) :
  cleaned s ->
  sub newlines3 (fun _ => [nl; nl])
      (sub spaces2 (fun _ => [sp])
           (sub around_newline (fun _ => [nl]) s)) = s.
Proof.
  intros (H1 & H2 & H3).
  assert (E1 : sub around_newline (fun _ => [nl]) s = s).
  { rewrite sub_sub_from. apply around_fixed. exact H1. }
  assert (E2 : sub spaces2 (fun _ => [sp]) s = s).
  { unfold spaces2. rewrite sub_sub_from.
    apply (@collapse_fixed s sp 2 1). exact H2. }
  assert (E3 : sub newlines3 (fun _ => [nl; nl]) s = s).
  { unfold newlines3. rewrite sub_sub_from.
    apply (@collapse_fixed s nl 3 2). exact H3. }
  rewrite E1, E2, E3. reflexivity.
Qed.

Lemma strip_newline (u : str) : trimmed u -> strip (u ++ [nl]) = u.
Proof.
  intros Ht. unfold strip.
  assert (Hl : lstrip (u ++ [nl]) = u ++ [nl] \/ u = []).
  { destruct Ht as [|c Hc|c d s Hc Hd]; [right; reflexivity | left | left].
    - apply lstrip_fixed. exact Hc.
    - cbn [app]. apply lstrip_fixed. exact Hc. }
  destruct Hl as [-> | ->]; [|reflexivity].
  rewrite rstrip_snoc. change (isspace nl) with true. cbn iota.
  destruct Ht as [|c Hc|c d s Hc Hd]; [reflexivity | |].
  - change [c] with ([] ++ [c]). apply rstrip_fixed. exact Hc.
  - change (c :: s ++ [d]) with ((c :: s) ++ [d]). apply rstrip_fixed. exact Hd.
Qed.

(** C6.  [final_cleanup] applied twice gives what it gives applied once,
    and every result is a text that does not end in whitespace (so not in a
    newline) followed by one newline. *)
Theorem final_cleanup_idempotent (text : str) :
  final_cleanup (final_cleanup text) = final_cleanup text /\
  exists u, final_cleanup text = u ++ [nl] /\ rstrip u = u /\
            forall v, u <> v ++ [nl].
Proof.
  unfold final_cleanup at 2 3.
  set (z := sub newlines3 (fun _ => [nl; nl])
              (sub spaces2 (fun _ => [sp])
                 (sub around_newline (fun _ => [nl]) text))).
  assert (Hz : cleaned z) by apply final_steps_cleaned.
  assert (Ht : trimmed (strip z)) by apply strip_trimmed.
  assert (Hu : cleaned (strip z)) by (apply cleaned_strip; exact Hz).
  split.
  - unfold final_cleanup.
    rewrite cleaned_fixed by (apply cleaned_newline; assumption).
    rewrite strip_newline by exact Ht. reflexivity.
  - exists (strip z). repeat split.
    + unfold strip. apply rstrip_idem.
    + intros v Hv. pose proof (@trimmed_last _ _ _ Ht Hv). discriminate.
Qed.

(** ** The bounded loops run to their end *)

(** A pattern that begins with a literal character matches no empty text. *)
Definition consumes (r : regex) : Prop :=
  forall text s g rest,
    match_here text r s = Some (g, rest) -> length rest < length s.

Lemma lit_consumes (c : char) (l : str) : consumes (Lit (c :: l)).
Proof.
  intros text s g rest H. rewrite match_here_lit in H.
  destruct (eat (c :: l) s) as [s'|] eqn:E; [|discriminate].
  injection H as _ <-. apply eat_some in E. subst s.
  rewrite length_app. cbn [length]. lia.
Qed.

Lemma lit_seq_consumes (c : char) (l : str) (r : regex) :
  consumes (Lit (c :: l) >> r).
Proof.
  intros text s g rest H. unfold match_here in H. cbn [mt] in H.
  destruct (eat (c :: l) s) as [s'|] eqn:E; [|discriminate].
  apply mt_some in H. destruct H as (m & s2 & g2 & -> & H).
  injection H as _ <-. apply eat_some in E. subst s.
  rewrite !length_app. cbn [length]. lia.
Qed.

Lemma search_go_bounds (text : str) (r : regex) :
  consumes r ->
  forall s i m,
    search_go text r i s = Some m ->
    i <= m_start m /\ m_start m < m_end m /\ m_end m <= i + length s.
Proof.
  intros Hr. induction s as [|c s IH]; intros i m H.
  - cbn [search_go] in H.
    destruct (match_here text r []) as [[g rest]|] eqn:E; [|discriminate].
    apply Hr in E. cbn [length] in E. lia.
  - cbn [search_go] in H.
    destruct (match_here text r (c :: s)) as [[g rest]|] eqn:E.
    + injection H as <-. cbn [m_start m_end].
      pose proof (Hr _ _ _ _ E) as Hlt.
      destruct (length rest); cbn [length] in *; lia.
    + apply IH in H. cbn [length]. lia.
Qed.

Lemma search_bounds (r : regex) (text : str) (pos : nat) (m : rmatch) :
  consumes r ->
  search r text pos = Some m ->
  pos <= m_start m /\ m_start m < m_end m /\ m_end m <= length text.
Proof.
  intros Hr H. unfold search in H.
  destruct (pos <=? length text) eqn:E; [|discriminate].
  apply Nat.leb_le in E.
  apply (@search_go_bounds text r Hr) in H. rewrite length_skipn in H. lia.
Qed.

Lemma brace_scan_from (text : str) (start : nat) :
  start <= fst (brace_scan text start).
Proof.
  destruct (brace_scan_spec text start) as (n & _ & -> & _). cbn [fst]. lia.
Qed.

Lemma cap_start_consumes : consumes cap_start_pattern.
Proof. apply lit_consumes. Qed.

(** The caption loop ends within [length inner - pos] further captions. *)
Lemma caption_loop_total (inner : str) :
  forall fuel pos captions,
    length inner - pos <= fuel ->
    exists result, caption_loop fuel inner pos captions = Some result.
Proof.
  induction fuel as [|fuel IH]; intros pos captions Hfuel.
  - cbn [caption_loop].
    destruct (search cap_start_pattern inner pos) as [m|] eqn:E; [|eauto].
    apply (@search_bounds _ _ _ _ cap_start_consumes) in E. lia.
  - cbn [caption_loop].
    destruct (search cap_start_pattern inner pos) as [m|] eqn:E; [|eauto].
    apply (@search_bounds _ _ _ _ cap_start_consumes) in E.
    pose proof (brace_scan_from inner (m_end m)) as Hi.
    destruct (brace_scan inner (m_end m)) as [i lvl]. cbn [fst] in Hi.
    destruct (lvl =? 0)%Z; [|eauto].
    apply IH. lia.
Qed.

Lemma extract_captions_total (inner : str) :
  exists captions,
    caption_loop (length inner) inner 0 [] = Some captions /\
    extract_captions inner = captions.
Proof.
  destruct (@caption_loop_total inner (length inner) 0 []) as (c & Hc); [lia|].
  exists c. unfold extract_captions. rewrite Hc. auto.
Qed.

Lemma remove_captions_loop_total (tex : str) :
  forall fuel start_idx out,
    length tex - start_idx <= fuel ->
    exists result, remove_captions_loop fuel tex start_idx out = Some result.
Proof.
  induction fuel as [|fuel IH]; intros start_idx out Hfuel.
  - cbn [remove_captions_loop].
    destruct (search cap_start_pattern tex start_idx) as [m|] eqn:E; [|eauto].
    apply (@search_bounds _ _ _ _ cap_start_consumes) in E. lia.
  - cbn [remove_captions_loop].
    destruct (search cap_start_pattern tex start_idx) as [m|] eqn:E; [|eauto].
    apply (@search_bounds _ _ _ _ cap_start_consumes) in E.
    pose proof (brace_scan_from tex (m_end m)) as Hi.
    destruct (brace_scan tex (m_end m)) as [i lvl]. cbn [fst] in Hi.
    apply IH. lia.
Qed.

Lemma remove_command_loop_total (pattern : regex) (text : str) :
  consumes pattern ->
  forall fuel pos result,
    length text - pos <= fuel ->
    exists l, remove_command_loop fuel pattern text pos result = Some l.
Proof.
  intros Hp. induction fuel as [|fuel IH]; intros pos result Hfuel.
  - cbn [remove_command_loop].
    destruct (search pattern text pos) as [m|] eqn:E; [|eauto].
    apply (@search_bounds _ _ _ _ Hp) in E. lia.
  - cbn [remove_command_loop].
    destruct (search pattern text pos) as [m|] eqn:E; [|eauto].
    apply (@search_bounds _ _ _ _ Hp) in E.
    pose proof (brace_scan_from text (m_end m)) as Hi.
    destruct (brace_scan text (m_end m)) as [i lvl]. cbn [fst] in Hi.
    apply IH. lia.
Qed.

Lemma has_nested_loop_total (tex : str) :
  forall fuel open_tabulars pos,
    length tex - pos <= fuel ->
    exists b, has_nested_loop fuel tex open_tabulars pos = Some b.
Proof.
  induction fuel as [|fuel IH]; intros open_tabulars pos Hfuel.
  - cbn [has_nested_loop].
    destruct (pos <? length tex) eqn:E; [|eauto].
    apply Nat.ltb_lt in E. lia.
  - cbn [has_nested_loop].
    destruct (pos <? length tex) eqn:E; [|eauto].
    apply Nat.ltb_lt in E.
    assert (Hend :
      exists b,
        match option_map (fun m => pos + m_start m)
                (search end_tabular (slice_from pos tex) 0) with
        | Some e =>
            has_nested_loop fuel tex (open_tabulars - 1)
                            (e + length (lit "\end{tabular}"))
        | None => Some false
        end = Some b).
    { destruct (search end_tabular (slice_from pos tex) 0) as [m|];
        cbn [option_map]; [|eauto].
      apply IH. change (length (lit "\end{tabular}")) with 13. lia. }
    destruct (search begin_tabular (slice_from pos tex) 0) as [mb|];
      cbn [option_map]; [|exact Hend].
    destruct (match option_map (fun m => pos + m_start m)
                      (search end_tabular (slice_from pos tex) 0) with
              | Some e => pos + m_start mb <? e
              | None => true
              end); [|exact Hend].
    destruct (1 <? open_tabulars + 1)%Z; [eauto|].
    apply IH. change (length (lit "\begin{tabular}")) with 15. lia.
Qed.

(** * Further properties of the converter *)

(** ** Patterns that begin with a literal character *)

(** The character every match of the pattern begins with, when the pattern
    begins with a literal. *)
Fixpoint head_char (r : regex) : option char :=
  match r with
  | Lit (c :: _) => Some c
  | Seq r1 _ => head_char r1
  | Grp _ r1 => head_char r1
  | _ => None
  end.

Lemma mt_head {A : Type} (text : str) (r : regex) (c : char) :
  head_char r = Some c ->
  forall (s : str) (g : caps) (k : str -> caps -> option A) (x : A),
    mt text r s g k = Some x -> exists s', s = c :: s'.
Proof.
  induction r as [l | p | p | p | r1 IH1 r2 IH2 | r1 IH1 r2 IH2 | r1 IH1
                 | n r1 IH1 | d]; intros Hh s g k x H;
    cbn [head_char] in Hh; try discriminate.
  - destruct l as [|c0 l]; [discriminate|]. injection Hh as ->.
    cbn [mt] in H. destruct (eat (c :: l) s) as [s'|] eqn:E; [|discriminate].
    apply eat_some in E. subst s. cbn [app]. eauto.
  - cbn [mt] in H. eapply IH1; eauto.
  - cbn [mt] in H. eapply IH1; eauto.
Qed.

Lemma head_no_match (text : str) (r : regex) (c d : char) (s : str) :
  head_char r = Some c -> N.eqb d c = false ->
  match_here text r (d :: s) = None.
Proof.
  intros Hh Hd. destruct (match_here text r (d :: s)) as [[g rest]|] eqn:E;
    [|reflexivity].
  unfold match_here in E. apply (mt_head _ _ Hh) in E.
  destruct E as (s' & E). injection E as -> _. rewrite N.eqb_refl in Hd.
  discriminate.
Qed.

Lemma head_no_match_nil (text : str) (r : regex) (c : char) :
  head_char r = Some c -> match_here text r [] = None.
Proof.
  intros Hh. destruct (match_here text r []) as [[g rest]|] eqn:E;
    [|reflexivity].
  unfold match_here in E. apply (mt_head _ _ Hh) in E.
  destruct E as (s' & E). discriminate.
Qed.

(** A text without the character [c]. *)
Definition free_of (c : char) (s : str) : bool :=
  forallb (fun d => negb (N.eqb d c)) s.

Lemma free_of_suffix (c : char) (p1 p2 : str) :
  free_of c (p1 ++ p2) = true -> free_of c p2 = true.
Proof.
  unfold free_of. rewrite forallb_app. intros H. apply andb_prop in H. tauto.
Qed.

Lemma free_no_match (text : str) (r : regex) (c : char) (s : str) :
  head_char r = Some c -> free_of c s = true ->
  forall p1 p2, s = p1 ++ p2 -> match_here text r p2 = None.
Proof.
  intros Hh Hs p1 p2 ->. apply free_of_suffix in Hs.
  destruct p2 as [|d p2]; [eapply head_no_match_nil; eauto|].
  unfold free_of in Hs. cbn [forallb] in Hs. apply andb_prop in Hs.
  destruct Hs as [Hd _]. apply negb_true_iff in Hd.
  eapply head_no_match; eauto.
Qed.

(** Where no match begins the scan only copies. *)
Lemma scan_all_gaps (text : str) (r : regex) (s : str) :
  (forall p1 p2, s = p1 ++ p2 -> match_here text r p2 = None) ->
  forall i, scan_go text r 0 i s = map Gap s.
Proof.
  induction s as [|c s IH]; intros H i.
  - apply scan_go_nil. apply (H [] []). reflexivity.
  - rewrite scan_go_gap by (apply (H [] (c :: s)); reflexivity).
    cbn [map]. f_equal. apply IH.
    intros p1 p2 ->. apply (H (c :: p1) p2). reflexivity.
Qed.

Lemma search_go_none (text : str) (r : regex) (s : str) :
  (forall p1 p2, s = p1 ++ p2 -> match_here text r p2 = None) ->
  forall i, search_go text r i s = None.
Proof.
  induction s as [|c s IH]; intros H i; cbn [search_go].
  - rewrite (H [] [] eq_refl). reflexivity.
  - rewrite (H [] (c :: s) eq_refl). apply IH.
    intros p1 p2 ->. apply (H (c :: p1) p2). reflexivity.
Qed.

Lemma finditer_gaps (s : str) :
  flat_map (fun p => match p with Gap _ => [] | Hit m => [m] end)
           (map Gap s) = [].
Proof. induction s as [|c s IH]; [reflexivity | exact IH]. Qed.

Lemma sub_pieces_gaps (repl : rmatch -> option str) (s : str) :
  sub_pieces repl (map Gap s) = Some s.
Proof.
  induction s as [|c s IH]; [reflexivity|].
  cbn [map sub_pieces]. rewrite IH. reflexivity.
Qed.

Section NoMatch.
Variables (r : regex) (text : str).
Hypothesis no_match :
  forall p1 p2, text = p1 ++ p2 -> match_here text r p2 = None.

Lemma no_match_sub (repl : rmatch -> str) : sub r repl text = text.
Proof. rewrite sub_sub_from. apply sub_from_id. exact no_match. Qed.

Lemma no_match_scan : scan r text = map Gap text.
Proof. apply scan_all_gaps. exact no_match. Qed.

Lemma no_match_finditer : finditer r text = [].
Proof. unfold finditer. rewrite no_match_scan. apply finditer_gaps. Qed.

Lemma no_match_sub_partial (repl : rmatch -> option str) :
  sub_partial r repl text = Some text.
Proof. unfold sub_partial. rewrite no_match_scan. apply sub_pieces_gaps. Qed.

Lemma no_match_search : search r text 0 = None.
Proof.
  unfold search. cbn [Nat.leb skipn]. apply search_go_none. exact no_match.
Qed.
End NoMatch.

(** ** A document without commands *)

Lemma scan_gap_in (text : str) (r : regex) (c : char) :
  forall s skip i, In (Gap c) (scan_go text r skip i s) -> In c s.
Proof.
  induction s as [|d s IH]; intros skip i H.
  - destruct skip; cbn [scan_go] in H; [|contradiction].
    destruct (match_here text r []) as [[g rest]|]; [|contradiction].
    destruct H as [H|[]]. discriminate.
  - destruct skip as [|k]; cbn [scan_go] in H.
    + destruct (match_here text r (d :: s)) as [[g rest]|].
      * destruct H as [H|H]; [discriminate|].
        destruct (length (d :: s) - length rest).
        -- destruct H as [H|H]; [injection H as ->; left; reflexivity|].
           right. eapply IH; eauto.
        -- right. eapply IH; eauto.
      * destruct H as [H|H]; [injection H as ->; left; reflexivity|].
        right. eapply IH; eauto.
    + right. eapply IH; eauto.
Qed.

Lemma free_of_app (c : char) (a b : str) :
  free_of c (a ++ b) = free_of c a && free_of c b.
Proof. apply forallb_app. Qed.

(** [sub] writes characters of the text and of the replacements only. *)
Lemma sub_free (c : char) (r : regex) (repl : rmatch -> str) (text : str) :
  free_of c text = true -> (forall m, free_of c (repl m) = true) ->
  free_of c (sub r repl text) = true.
Proof.
  intros Ht Hr. unfold sub, scan.
  assert (H : forall ps, (forall d, In (Gap d) ps -> In d text) ->
                         free_of c (flat_map (piece_text repl) ps) = true).
  { induction ps as [|p ps IH]; intros Hps; [reflexivity|].
    cbn [flat_map]. rewrite free_of_app.
    rewrite IH by (intros d Hd; apply Hps; right; exact Hd).
    rewrite andb_true_r. destruct p as [d|m]; [|apply Hr].
    cbn [piece_text]. unfold free_of. cbn [forallb]. rewrite andb_true_r.
    unfold free_of in Ht. rewrite forallb_forall in Ht.
    apply Ht. apply Hps. left. reflexivity. }
  apply H. intros d Hd. eapply scan_gap_in; eauto.
Qed.

Lemma strip_free (c : char) (s : str) :
  free_of c s = true -> free_of c (strip s) = true.
Proof.
  intros H. destruct (strip_split s) as (w1 & w2 & Hs & _ & _).
  rewrite Hs in H. unfold free_of in *. rewrite !forallb_app in H.
  apply andb_prop in H. destruct H as [_ H]. apply andb_prop in H. tauto.
Qed.

Lemma remove_comments_free (c : char) (text : str) :
  free_of c PARA_BREAK = true -> free_of c [sp; nl] = true ->
  free_of c text = true -> free_of c (remove_comments text) = true.
Proof.
  intros HS Hw Ht.
  assert (Hsp : free_of c [sp] = true).
  { unfold free_of in *. cbn [forallb] in *. apply andb_prop in Hw.
    destruct Hw as [-> _]. reflexivity. }
  assert (Hnl : free_of c [nl] = true).
  { unfold free_of in *. cbn [forallb] in *. apply andb_prop in Hw.
    destruct Hw as [_ Hw]. exact Hw. }
  assert (Hnl2 : free_of c [nl; nl] = true).
  { unfold free_of in *. cbn [forallb] in *. apply andb_prop in Hnl.
    destruct Hnl as [-> _]. reflexivity. }
  unfold remove_comments, replace.
  apply sub_free; [|intros; exact Hnl2].
  apply strip_free.
  apply sub_free; [|intros; exact Hsp].
  apply sub_free; [|intros; exact Hsp].
  apply sub_free; [|intros; exact HS].
  apply sub_free; [|intros; exact Hnl2].
  apply sub_free; [|intros; exact Hnl].
  apply sub_free; [|intros; reflexivity].
  exact Ht.
Qed.

Definition backslash : char := ch "\".

Section NoCommands.
Variable text : str.
Hypothesis no_backslash : free_of backslash text = true.

Lemma plain_no_match (r : regex) :
  head_char r = Some backslash ->
  forall p1 p2, text = p1 ++ p2 -> match_here text r p2 = None.
Proof. intros Hh. eapply free_no_match; eauto. Qed.

Lemma plain_sub (r : regex) (repl : rmatch -> str) :
  head_char r = Some backslash -> sub r repl text = text.
Proof. intros Hh. apply no_match_sub, plain_no_match, Hh. Qed.

Lemma plain_sub_partial (r : regex) (repl : rmatch -> option str) :
  head_char r = Some backslash -> sub_partial r repl text = Some text.
Proof. intros Hh. apply no_match_sub_partial, plain_no_match, Hh. Qed.

Lemma plain_search (r : regex) :
  head_char r = Some backslash -> search r text 0 = None.
Proof. intros Hh. apply no_match_search, plain_no_match, Hh. Qed.

Lemma plain_extract_command (pattern : regex) :
  head_char pattern = Some backslash ->
  extract_command pattern text = (text, []).
Proof.
  intros Hh. unfold extract_command. rewrite plain_search by exact Hh.
  reflexivity.
Qed.

Lemma plain_remove_command (command : string) :
  _remove_latex_command text command = text.
Proof.
  unfold _remove_latex_command.
  assert (Hs : search (L "\" >> L command >> L "{")%re text 0 = None)
    by (apply plain_search; reflexivity).
  destruct (length text); cbn [remove_command_loop]; rewrite Hs;
    cbn [app concat slice_from skipn]; apply app_nil_r.
Qed.

Lemma plain_remove_commands (commands : list string) :
  fold_left _remove_latex_command commands text = text.
Proof.
  induction commands as [|cmd commands IH]; [reflexivity|].
  cbn [fold_left]. rewrite plain_remove_command. exact IH.
Qed.

Lemma plain_inline_formats : apply_inline_formats text = text.
Proof.
  unfold apply_inline_formats.
  rewrite (plain_sub emph_pattern) by reflexivity.
  rewrite (plain_sub bold_pattern) by reflexivity.
  apply plain_sub. reflexivity.
Qed.
End NoCommands.

(** X1.  After the comments are removed, a document without backslash goes
    through every converter unchanged, whatever the fuel: what is written is
    the final cleanup of the normalized text (with the runs of newlines
    collapsed by [remove_leftover_commands]). *)
Theorem plain_text_passthrough (content : str) (fuel : nat) :
  free_of backslash content = true ->
  clean_latex_file fuel content =
    Some (final_cleanup
            (sub newlines3 (fun _ => [nl; nl]) (remove_comments content))).
Proof.
  intros Hc.
  pose proof (@remove_comments_free backslash content eq_refl eq_refl Hc) as Hd.
  set (doc := remove_comments content) in *.
  unfold clean_latex_file.
  unfold preprocess_abstract.
  rewrite (@plain_sub _ Hc begin_abstract _ eq_refl).
  rewrite (@plain_sub _ Hc end_abstract _ eq_refl).
  unfold extract_title_authors.
  rewrite (@plain_extract_command _ Hc title_pattern eq_refl).
  rewrite (@plain_extract_command _ Hc author_pattern eq_refl).
  unfold extract_document_content.
  rewrite (@plain_search _ Hc document_env eq_refl).
  fold doc.
  unfold replace_maketitle. cbn [nonempty].
  rewrite (@plain_sub _ Hd maketitle_pattern _ eq_refl).
  unfold replace_figures. rewrite (@plain_sub _ Hd figure_env _ eq_refl).
  unfold replace_tables. rewrite (@plain_sub_partial _ Hd table_env _ eq_refl).
  unfold replace_equations. rewrite (@plain_sub _ Hd eq_env _ eq_refl).
  unfold replace_headings. rewrite (@plain_sub _ Hd sec_pattern _ eq_refl).
  unfold replace_lists.
  rewrite (@plain_sub _ Hd enum_env _ eq_refl).
  rewrite (@plain_sub _ Hd item_env _ eq_refl).
  rewrite (@plain_sub _ Hd stray_item _ eq_refl).
  rewrite (@plain_inline_formats _ Hd).
  unfold remove_leftover_commands.
  rewrite (@plain_remove_commands _ Hd).
  rewrite (@plain_sub _ Hd
             (L "\" >> alts (map L commands_to_remove) >> Star isspace)%re
             _ eq_refl).
  rewrite (@plain_sub _ Hd
             (L "\" >> alts (map L commands_to_replace_newline) >>
              Star isspace)%re _ eq_refl).
  fold newlines3.
  unfold remove_formatting_cmds.
  rewrite plain_sub; [reflexivity | | reflexivity].
  apply sub_free; [exact Hd | reflexivity].
Qed.

Lemma plain_text_passthrough_witness :
  clean_latex_file 0 (lit "Plain  words % note") =
    Some (final_cleanup
            (sub newlines3 (fun _ => [nl; nl])
                 (remove_comments (lit "Plain  words % note")))).
Proof. apply plain_text_passthrough. reflexivity. Defined.

(** ** Patterns that begin with a literal text *)

Fixpoint head_lit (r : regex) : option str :=
  match r with
  | Lit l => Some l
  | Seq r1 _ => head_lit r1
  | Grp _ r1 => head_lit r1
  | _ => None
  end.

Lemma mt_head_lit {A : Type} (text : str) (r : regex) (l : str) :
  head_lit r = Some l ->
  forall (s : str) (g : caps) (k : str -> caps -> option A) (x : A),
    mt text r s g k = Some x -> exists s', s = l ++ s'.
Proof.
  induction r as [l0 | p | p | p | r1 IH1 r2 IH2 | r1 IH1 r2 IH2 | r1 IH1
                 | n r1 IH1 | d]; intros Hh s g k x H;
    cbn [head_lit] in Hh; try discriminate.
  - injection Hh as ->. cbn [mt] in H.
    destruct (eat l s) as [s'|] eqn:E; [|discriminate].
    apply eat_some in E. eauto.
  - cbn [mt] in H. eapply IH1; eauto.
  - cbn [mt] in H. eapply IH1; eauto.
Qed.

Lemma head_lit_none (text : str) (r : regex) (l s : str) :
  head_lit r = Some l -> eat l s = None -> match_here text r s = None.
Proof.
  intros Hh He. destruct (match_here text r s) as [[g rest]|] eqn:E;
    [|reflexivity].
  unfold match_here in E. apply (mt_head_lit _ _ Hh) in E.
  destruct E as (s' & ->). rewrite eat_app in He. discriminate.
Qed.

(** Where the literal does not occur the pattern matches nowhere. *)
Lemma absent_no_match (text : str) (r : regex) (l s : str) :
  head_lit r = Some l -> contains l s = false ->
  forall p1 p2, s = p1 ++ p2 -> match_here text r p2 = None.
Proof.
  intros Hh Hc p1 p2 ->. eapply head_lit_none; eauto.
  apply contains_false_eat. eapply contains_false_suffix; eauto.
Qed.

(** X2.  Without [\maketitle] in the document, [replace_maketitle] changes
    nothing: the title and the authors are written nowhere. *)
Theorem maketitle_absent (text title authors : str) :
  contains (lit "\maketitle") text = false ->
  replace_maketitle text title authors = text.
Proof.
  intros H. unfold replace_maketitle. apply no_match_sub.
  eapply absent_no_match; [reflexivity | exact H].
Qed.

Lemma maketitle_absent_witness :
  replace_maketitle (lit "\section{One} text") (lit "My Title") (lit "A, B") =
    lit "\section{One} text".
Proof. apply maketitle_absent. reflexivity. Defined.

(** A literal that begins with a character it does not contain again cannot
    begin in a text where it does not occur and end in a following
    occurrence of itself, or in any text that begins with that character. *)
Lemma lit_straddle (c : char) (l p t : str) :
  free_of c l = true -> p <> [] -> contains (c :: l) p = false ->
  eat (c :: l) (p ++ c :: t) = None.
Proof.
  intros Hl Hp Hc.
  destruct (eat (c :: l) (p ++ c :: t)) as [r|] eqn:E; [|reflexivity].
  exfalso. apply eat_app_split in E.
  destruct E as [(p' & ->) | (l1 & l2 & Hsplit & -> & Hne & He)].
  - assert (Hs : substr (c :: l) ((c :: l) ++ p')) by (exists [], p'; reflexivity).
    apply contains_substr in Hs. congruence.
  - destruct l2 as [|d l2]; [congruence|].
    cbn [eat] in He. destruct (N.eqb_spec d c) as [->|]; [|discriminate].
    destruct l1 as [|c1 l1]; [congruence|].
    cbn [app] in Hsplit. injection Hsplit as _ Hsplit.
    rewrite Hsplit, free_of_app in Hl. apply andb_prop in Hl.
    destruct Hl as [_ Hl]. unfold free_of in Hl. cbn [forallb] in Hl.
    rewrite N.eqb_refl in Hl. discriminate.
Qed.

(** The search passes over a text where no match begins. *)
Lemma search_go_skip (text : str) (r : regex) (a s : str) :
  (forall p1 p2, a = p1 ++ p2 -> p2 <> [] -> match_here text r (p2 ++ s) = None) ->
  forall i, search_go text r i (a ++ s) = search_go text r (i + length a) s.
Proof.
  induction a as [|c a IH]; intros H i.
  - cbn [app length]. rewrite Nat.add_0_r. reflexivity.
  - assert (H0 : match_here text r ((c :: a) ++ s) = None)
      by (apply (H [] (c :: a) eq_refl); discriminate).
    cbn [app] in H0. cbn [app search_go]. rewrite H0.
    rewrite IH.
    + cbn [length]. f_equal. lia.
    + intros p1 p2 -> Hne. apply (H (c :: p1) p2 eq_refl Hne).
Qed.

Lemma search_go_here (text : str) (r : regex) (i : nat) (m rest : str)
      (g : caps) :
  match_here text r (m ++ rest) = Some (g, rest) ->
  search_go text r i (m ++ rest) = Some (MkMatch i (i + length m) m g).
Proof.
  intros H. destruct (m ++ rest) as [|c s] eqn:E; cbn [search_go]; rewrite H;
    rewrite <- E, firstn_length_diff, length_app;
    replace (length m + length rest - length rest) with (length m) by lia;
    reflexivity.
Qed.

(** The first occurrence of a literal-headed pattern. *)
Lemma search_first (r : regex) (c : char) (l a m rest : str) (g : caps) :
  head_lit r = Some (c :: l) -> free_of c l = true ->
  contains (c :: l) a = false ->
  (exists t, m ++ rest = c :: t) ->
  match_here (a ++ m ++ rest) r (m ++ rest) = Some (g, rest) ->
  search r (a ++ m ++ rest) 0 =
    Some (MkMatch (length a) (length a + length m) m g).
Proof.
  intros Hh Hl Hc (t & Ht) Hm. unfold search. cbn [Nat.leb skipn].
  rewrite search_go_skip.
  - apply search_go_here. exact Hm.
  - intros p1 p2 -> Hne. eapply head_lit_none; [exact Hh|].
    rewrite Ht. apply lit_straddle; [exact Hl | exact Hne|].
    eapply contains_false_suffix; eauto.
Qed.

(** ** The brace scanner finds the matching brace *)

(** The level after one character. *)
Definition brace_step (l : Z) (c : char) : Z :=
  if N.eqb c (ch "{") then (l + 1)%Z
  else if N.eqb c (ch "}") then (l - 1)%Z
  else l.

(** Starting at level [l], the level is positive before and after every
    character of [a]. *)
Fixpoint inside (l : Z) (a : str) : bool :=
  (0 <? l)%Z &&
  match a with
  | [] => true
  | c :: a' => inside (brace_step l c) a'
  end.

Definition level_after (l : Z) (a : str) : Z := fold_left brace_step a l.

(** The argument of a command: every closing brace in it closes a brace
    opened in it, and all are closed. *)
Definition balanced (a : str) : Prop :=
  inside 1 a = true /\ level_after 1 a = 1%Z.

Lemma scan_body_at (text : str) (i : nat) (l : Z) (c : char) :
  nth_error text i = Some c ->
  scan_body text (i, l) = (i + 1, brace_step l c).
Proof. intros H. unfold scan_body, brace_step. rewrite H. reflexivity. Qed.

Lemma inside_pos (l : Z) (a : str) : inside l a = true -> (0 < l)%Z.
Proof.
  destruct a; cbn [inside]; intros H; apply andb_prop in H;
    destruct H as [H _]; apply Z.ltb_lt in H; exact H.
Qed.

Lemma inside_after (l : Z) (a : str) :
  inside l a = true -> (0 < level_after l a)%Z.
Proof.
  revert l. induction a as [|c a IH]; intros l H.
  - apply inside_pos in H. exact H.
  - cbn [inside] in H. apply andb_prop in H. destruct H as [_ H].
    apply IH in H. exact H.
Qed.

(** The loop over a stretch of text inside the braces. *)
Lemma while_inside (a : str) :
  forall (p q : str) (l : Z) (fuel : nat),
    inside l a = true ->
    while_loop (length a + fuel) (scan_cond (p ++ a ++ q))
               (scan_body (p ++ a ++ q)) (length p, l) =
      match while_loop fuel (scan_cond (p ++ a ++ q))
                       (scan_body (p ++ a ++ q))
                       (length p + length a, level_after l a) with
      | Some (st, n) => Some (st, length a + n)
      | None => None
      end.
Proof.
  induction a as [|c a IH]; intros p q l fuel H.
  - cbn [length Nat.add app level_after fold_left]. rewrite Nat.add_0_r.
    destruct (while_loop fuel _ _ _) as [[st n]|]; reflexivity.
  - pose proof (inside_pos _ _ H) as Hl.
    cbn [inside] in H. apply andb_prop in H. destruct H as [_ H].
    cbn [length Nat.add while_loop].
    assert (Hc : scan_cond (p ++ (c :: a) ++ q) (length p, l) = true).
    { unfold scan_cond. cbn [fst snd]. apply andb_true_intro. split.
      - apply Nat.ltb_lt. rewrite !length_app. cbn [length]. lia.
      - apply Z.ltb_lt. exact Hl. }
    rewrite Hc.
    rewrite (@scan_body_at _ (length p) l c).
    + replace (p ++ (c :: a) ++ q) with ((p ++ [c]) ++ a ++ q)
        by (rewrite <- app_assoc; reflexivity).
      replace (length p + 1) with (length (p ++ [c]))
        by (rewrite length_app; reflexivity).
      rewrite IH by exact H.
      replace (length (p ++ [c]) + length a) with (length p + S (length a))
        by (rewrite length_app; cbn [length]; lia).
      cbn [level_after fold_left].
      destruct (while_loop fuel _ _ _) as [[st n]|]; reflexivity.
    + rewrite nth_error_app2 by lia. rewrite Nat.sub_diag. reflexivity.
Qed.

(** Over a balanced argument the scanner stops just after the closing brace
    that matches. *)
Lemma brace_scan_closed (p a q : str) :
  balanced a ->
  brace_scan (p ++ a ++ [ch "}"] ++ q) (length p) =
    (length p + length a + 1, 0%Z).
Proof.
  intros [Hin Hlev]. unfold brace_scan, brace_loop.
  set (text := p ++ a ++ [ch "}"] ++ q).
  replace (length text) with (length a + (length p + 1 + length q))
    by (unfold text; rewrite !length_app; cbn [length]; lia).
  unfold text. rewrite while_inside by exact Hin. rewrite Hlev. fold text.
  replace (length p + 1 + length q) with (S (length p + length q)) by lia.
  cbn [while_loop].
  assert (Hc : scan_cond text (length p + length a, 1%Z) = true).
  { unfold scan_cond. cbn [fst snd]. apply andb_true_intro. split; [|reflexivity].
    apply Nat.ltb_lt. unfold text. rewrite !length_app. cbn [length]. lia. }
  rewrite Hc.
  rewrite (@scan_body_at text (length p + length a) 1 (ch "}")).
  - change (brace_step 1 (ch "}")) with 0%Z.
    destruct (length p + length q); cbn [while_loop];
      unfold scan_cond; cbn [fst snd]; rewrite andb_false_r; reflexivity.
  - unfold text. rewrite app_assoc, nth_error_app2 by (rewrite length_app; lia).
    rewrite length_app, Nat.sub_diag. reflexivity.
Qed.

(** X4.  The contract of the brace scanner: from the position after an opening
    brace, over a balanced argument, it stops just after the closing brace
    that matches, with level 0. *)
Theorem brace_scan_matching (p a q : str) :
  balanced a ->
  brace_scan (p ++ a ++ [ch "}"] ++ q) (length p) =
    (length p + length a + 1, 0%Z).
Proof. apply brace_scan_closed. Qed.

Lemma brace_scan_matching_witness :
  brace_scan (lit "\title{" ++ lit "A {nested {x}} title" ++ [ch "}"] ++ lit " rest")
             (length (lit "\title{")) =
    (length (lit "\title{") + length (lit "A {nested {x}} title") + 1, 0%Z).
Proof.
  apply (@brace_scan_matching (lit "\title{") (lit "A {nested {x}} title")
           (lit " rest")).
  split; reflexivity.
Defined.

(** Over an argument that is never closed the scanner runs to the end of
    the text. *)
Lemma brace_scan_open (p a : str) :
  inside 1 a = true ->
  brace_scan (p ++ a) (length p) = (length (p ++ a), level_after 1 a) /\
  (0 < level_after 1 a)%Z.
Proof.
  intros Hin. split; [|apply inside_after; exact Hin].
  unfold brace_scan, brace_loop.
  pose proof (@while_inside a p [] 1%Z (length p) Hin) as H.
  rewrite app_nil_r in H.
  replace (length (p ++ a)) with (length a + length p)
    by (rewrite length_app; lia).
  rewrite H.
  assert (Hc : scan_cond (p ++ a) (length p + length a, level_after 1 a) = false).
  { unfold scan_cond. cbn [fst snd]. apply andb_false_intro1.
    apply Nat.ltb_ge. rewrite length_app. lia. }
  destruct (length p); cbn [while_loop]; rewrite Hc;
    rewrite (Nat.add_comm (length a)); reflexivity.
Qed.

(** X5.  The fallback for a brace that is never closed: the loop runs to the end
    of the text and stops with a positive level. *)
Theorem brace_scan_unclosed (p a : str) :
  inside 1 a = true ->
  brace_scan (p ++ a) (length p) = (length (p ++ a), level_after 1 a) /\
  (0 < level_after 1 a)%Z.
Proof. apply brace_scan_open. Qed.

Lemma brace_scan_unclosed_witness :
  brace_scan (lit "\title{" ++ lit "Open {title") (length (lit "\title{")) =
    (length (lit "\title{" ++ lit "Open {title"), level_after 1 (lit "Open {title")) /\
  (0 < level_after 1 (lit "Open {title"))%Z.
Proof. apply brace_scan_unclosed. reflexivity. Defined.

(** ** Title and authors *)

Lemma skipn_exact (a b : str) : skipn (length a) (a ++ b) = b.
Proof. induction a as [|c a IH]; [reflexivity | exact IH]. Qed.

Lemma firstn_exact (a b : str) : firstn (length a) (a ++ b) = a.
Proof. induction a as [|c a IH]; [reflexivity|]. cbn. f_equal. exact IH. Qed.

(** A command [\cmd{] with a balanced argument is cut out of the text and
    its argument returned, trimmed. *)
Lemma extract_command_found (cmd pre a post : str) :
  free_of backslash cmd = true ->
  contains (backslash :: cmd) pre = false -> balanced a ->
  extract_command (Lit (backslash :: cmd))
                  (pre ++ (backslash :: cmd) ++ a ++ [ch "}"] ++ post) =
    (pre ++ post, strip a).
Proof.
  intros Hcmd Hpre Ha. unfold extract_command.
  set (m := backslash :: cmd).
  set (rest := a ++ [ch "}"] ++ post).
  rewrite (@search_first (Lit m) backslash cmd pre m rest []); try assumption.
  - cbn [m_end m_start].
    pose proof (@brace_scan_closed (pre ++ m) a post Ha) as Hscan.
    rewrite <- app_assoc in Hscan. fold rest in Hscan.
    rewrite length_app in Hscan. rewrite Hscan.
    cbn [Z.eqb]. unfold slice_to, slice_from, slice. f_equal.
    + rewrite firstn_exact. f_equal.
      replace (length pre + length m + length a + 1)
        with (length (pre ++ m ++ a ++ [ch "}"]))
        by (rewrite !length_app; cbn [length]; lia).
      replace (pre ++ m ++ rest) with ((pre ++ m ++ a ++ [ch "}"]) ++ post)
        by (unfold rest; rewrite <- !app_assoc; reflexivity).
      apply skipn_exact.
    + f_equal.
      replace (length pre + length m) with (length (pre ++ m))
        by (rewrite length_app; reflexivity).
      rewrite app_assoc, skipn_exact.
      replace (length (pre ++ m) + length a + 1 - 1 - length (pre ++ m))
        with (length a) by lia.
      unfold rest. apply firstn_exact.
  - reflexivity.
  - exists (cmd ++ rest). reflexivity.
  - rewrite match_here_lit, eat_app. reflexivity.
Qed.

(** A command whose argument is never closed: the text is cut at the
    command and all that follows becomes the argument. *)
Lemma extract_command_unclosed (cmd pre a : str) :
  free_of backslash cmd = true ->
  contains (backslash :: cmd) pre = false -> inside 1 a = true ->
  extract_command (Lit (backslash :: cmd)) (pre ++ (backslash :: cmd) ++ a) =
    (pre, strip a).
Proof.
  intros Hcmd Hpre Ha. unfold extract_command.
  set (m := backslash :: cmd).
  rewrite (@search_first (Lit m) backslash cmd pre m a []); try assumption.
  - cbn [m_end m_start].
    destruct (@brace_scan_open (pre ++ m) a Ha) as [Hscan Hpos].
    rewrite <- app_assoc in Hscan. rewrite length_app in Hscan at 1.
    rewrite Hscan.
    replace (level_after 1 a =? 0)%Z with false
      by (symmetry; apply Z.eqb_neq; lia).
    unfold slice_to, slice_from. f_equal.
    + apply firstn_exact.
    + f_equal. replace (length pre + length m) with (length (pre ++ m))
        by (rewrite length_app; reflexivity).
      rewrite app_assoc. apply skipn_exact.
  - reflexivity.
  - exists (cmd ++ a). reflexivity.
  - rewrite match_here_lit, eat_app. reflexivity.
Qed.

Lemma extract_command_absent (cmd text : str) :
  contains (backslash :: cmd) text = false ->
  extract_command (Lit (backslash :: cmd)) text = (text, []).
Proof.
  intros H. unfold extract_command. rewrite no_match_search; [reflexivity|].
  eapply absent_no_match; [reflexivity | exact H].
Qed.

(** X6.  [extract_title_authors] on a document with a title and then an author
    declaration, each with a balanced argument: both declarations are
    removed and the trimmed arguments returned, nested braces included. *)
Theorem extract_title_authors_found (pre t mid a post : str) :
  contains (lit "\title{") pre = false -> balanced t ->
  contains (lit "\author{") (pre ++ mid) = false -> balanced a ->
  extract_title_authors
    (pre ++ lit "\title{" ++ t ++ [ch "}"] ++ mid ++
     lit "\author{" ++ a ++ [ch "}"] ++ post) =
    (pre ++ mid ++ post, strip t, strip a).
Proof.
  intros Hpre Ht Hmid Ha. unfold extract_title_authors, title_pattern, author_pattern, L.
  change (lit "\title{") with (backslash :: lit "title{") in *.
  change (lit "\author{") with (backslash :: lit "author{") in *.
  rewrite (@extract_command_found (lit "title{") pre t
             (mid ++ (backslash :: lit "author{") ++ a ++ [ch "}"] ++ post)
             eq_refl Hpre Ht).
  rewrite (app_assoc pre mid).
  rewrite (@extract_command_found (lit "author{") (pre ++ mid) a post
             eq_refl Hmid Ha).
  rewrite <- app_assoc. reflexivity.
Qed.

Lemma extract_title_authors_found_witness :
  extract_title_authors
    (lit "\documentclass{article}" ++ lit "\title{" ++ lit " On {\em Braces} " ++
     [ch "}"] ++ lit " " ++ lit "\author{" ++ lit "A \and B" ++ [ch "}"] ++
     lit "\begin{document}x\end{document}") =
    (lit "\documentclass{article}" ++ lit " " ++
     lit "\begin{document}x\end{document}",
     strip (lit " On {\em Braces} "), strip (lit "A \and B")).
Proof.
  apply extract_title_authors_found; try reflexivity; split; reflexivity.
Defined.

(** X7.  Without a title and an author declaration nothing is removed and both
    values are empty. *)
Theorem extract_title_authors_absent (text : str) :
  contains (lit "\title{") text = false ->
  contains (lit "\author{") text = false ->
  extract_title_authors text = (text, [], []).
Proof.
  intros Ht Ha. unfold extract_title_authors, title_pattern, author_pattern, L.
  change (lit "\title{") with (backslash :: lit "title{") in *.
  change (lit "\author{") with (backslash :: lit "author{") in *.
  rewrite (extract_command_absent _ _ Ht).
  rewrite (extract_command_absent _ _ Ha). reflexivity.
Qed.

Lemma extract_title_authors_absent_witness :
  extract_title_authors (lit "\section{One} text") =
    (lit "\section{One} text", [], []).
Proof. apply extract_title_authors_absent; reflexivity. Defined.

(** X8.  A title whose brace is never closed swallows the rest of the document:
    the text is cut at [\title{], so a later author declaration is lost too. *)
Theorem extract_title_unclosed (pre t : str) :
  contains (lit "\title{") pre = false ->
  contains (lit "\author{") pre = false -> inside 1 t = true ->
  extract_title_authors (pre ++ lit "\title{" ++ t) = (pre, strip t, []).
Proof.
  intros Hpre Hauth Ht.
  unfold extract_title_authors, title_pattern, author_pattern, L.
  change (lit "\title{") with (backslash :: lit "title{") in *.
  change (lit "\author{") with (backslash :: lit "author{") in *.
  rewrite (@extract_command_unclosed (lit "title{") pre t eq_refl Hpre Ht).
  rewrite (extract_command_absent _ _ Hauth). reflexivity.
Qed.

Lemma extract_title_unclosed_witness :
  extract_title_authors (lit "x" ++ lit "\title{" ++ lit "T {open \author{A}") =
    (lit "x", strip (lit "T {open \author{A}"), []).
Proof. apply extract_title_unclosed; reflexivity. Defined.

(** ** A heading in running text *)

Lemma star_lazy_skip {A : Type} (p : char -> bool) (k : str -> option A)
      (a s : str) :
  forallb p a = true ->
  (forall a1 a2, a = a1 ++ a2 -> a2 <> [] -> k (a2 ++ s) = None) ->
  star_lazy p k (a ++ s) = star_lazy p k s.
Proof.
  induction a as [|c a IH]; intros Ha Hk; [reflexivity|].
  cbn [app star_lazy]. cbn [forallb] in Ha. apply andb_prop in Ha.
  destruct Ha as [Hc Ha].
  assert (H0 : k ((c :: a) ++ s) = None)
    by (apply (Hk [] (c :: a) eq_refl); discriminate).
  cbn [app] in H0. rewrite H0, Hc.
  apply IH; [exact Ha|].
  intros a1 a2 -> Hne. apply (Hk (c :: a1) a2 eq_refl Hne).
Qed.

Lemma star_lazy_now {A : Type} (p : char -> bool) (k : str -> option A)
      (s : str) (x : A) :
  k s = Some x -> star_lazy p k s = Some x.
Proof. intros H. destruct s; cbn [star_lazy]; rewrite H; reflexivity. Qed.

Lemma forallb_dotall (s : str) : forallb dotall s = true.
Proof. induction s; cbn; auto. Qed.

Lemma mt_seq {A : Type} (text : str) (r1 r2 : regex) (s : str) (g : caps)
      (k : str -> caps -> option A) :
  mt text (r1 >> r2)%re s g k =
    mt text r1 s g (fun s' g' => mt text r2 s' g' k).
Proof. reflexivity. Qed.

Lemma mt_opt {A : Type} (text : str) (r : regex) (s : str) (g : caps)
      (k : str -> caps -> option A) :
  mt text (Opt r) s g k =
    match mt text r s g k with Some x => Some x | None => k s g end.
Proof. reflexivity. Qed.

Lemma mt_lit_app {A : Type} (text l s : str) (g : caps)
      (k : str -> caps -> option A) :
  mt text (Lit l) (l ++ s) g k = k s g.
Proof. cbn [mt]. rewrite eat_app. reflexivity. Qed.

Lemma mt_lit_none {A : Type} (text l s : str) (g : caps)
      (k : str -> caps -> option A) :
  eat l s = None -> mt text (Lit l) s g k = None.
Proof. intros H. cbn [mt]. rewrite H. reflexivity. Qed.

(** A lazy group followed by [r]: the group is the text up to the first
    place where [r] matches. *)
Lemma mt_grp_lazy {A : Type} (text : str) (n : nat) (p : char -> bool)
      (r : regex) (a s : str) (g : caps) (k : str -> caps -> option A) (x : A) :
  forallb p a = true ->
  (forall a1 a2 g', a = a1 ++ a2 -> a2 <> [] ->
                    mt text r (a2 ++ s) g' k = None) ->
  mt text r s ((n, a) :: g) k = Some x ->
  mt text (Grp n (Lazy p) >> r)%re (a ++ s) g k = Some x.
Proof.
  intros Hp Hskip Hnow. rewrite mt_seq. cbn [mt].
  assert (Hgen : forall a1 a2, a = a1 ++ a2 ->
            star_lazy p
              (fun s' => mt text r s'
                 ((n, firstn (length (a ++ s) - length s') (a ++ s)) :: g) k)
              (a2 ++ s) = Some x).
  { intros a1 a2 E. assert (Hp2 : forallb p a2 = true).
    { rewrite E, forallb_app in Hp. apply andb_prop in Hp. tauto. }
    rewrite star_lazy_skip.
    - apply star_lazy_now. rewrite firstn_length_diff. exact Hnow.
    - exact Hp2.
    - intros b1 b2 -> Hne. apply (Hskip (a1 ++ b1) b2); [|exact Hne].
      rewrite E. apply app_assoc. }
  apply (Hgen [] a eq_refl).
Qed.

(** The optional label of a heading is absent from a text without
    backslash. *)
Lemma spaces_then_command_none {A : Type} (text l post : str) (r : regex)
      (p : char -> bool) (g : caps) (k : str -> caps -> option A) :
  free_of backslash post = true ->
  mt text (Star p >> Lit (backslash :: l) >> r)%re post g k = None.
Proof.
  intros Hf. rewrite mt_seq. cbn [mt].
  destruct (star_greedy p _ post) as [x|] eqn:E; [|reflexivity].
  exfalso. apply star_greedy_some in E. destruct E as (a & b & -> & _ & E).
  apply free_of_suffix in Hf.
  destruct b as [|c b]; [discriminate|]. cbn [eat] in E.
  unfold free_of in Hf. cbn [forallb] in Hf. apply andb_prop in Hf.
  destruct Hf as [Hc _].
  destruct (N.eqb_spec backslash c) as [<-|Hn].
  - rewrite N.eqb_refl in Hc. discriminate.
  - destruct (N.eqb c backslash) eqn:Ec.
    + apply N.eqb_eq in Ec. congruence.
    + destruct (N.eqb backslash c) eqn:Ec'; [apply N.eqb_eq in Ec'; congruence|].
      discriminate.
Qed.

(** What follows the command name in [sec_pattern]. *)
Definition heading_tail : regex :=
  (L "{" >> Grp 2 (Lazy dotall) >> L "}" >>
   Opt (Star isspace >> L "\label{" >> Grp 3 (Plus (not_c "}")) >> L "}"))%re.

Lemma heading_tail_match (text title post : str) (g : caps) :
  forallb (not_c "}") title = true -> free_of backslash post = true ->
  mt text heading_tail (lit "{" ++ title ++ lit "}" ++ post) g
     (fun s' g' => Some (g', s')) =
    Some ((2, title) :: g, post).
Proof.
  intros Ht Hpost. unfold heading_tail, L.
  rewrite mt_seq, mt_lit_app.
  apply mt_grp_lazy.
  - apply forallb_dotall.
  - intros a1 a2 g' -> Hne. rewrite forallb_app in Ht. apply andb_prop in Ht.
    destruct Ht as [_ Ht]. destruct a2 as [|c a2]; [congruence|].
    cbn [forallb] in Ht. apply andb_prop in Ht. destruct Ht as [Hc _].
    rewrite mt_seq. apply mt_lit_none. cbn [app].
    apply eat_brace_not. exact Hc.
  - rewrite mt_seq, mt_lit_app, mt_opt.
    change (lit "\label{") with (backslash :: lit "label{").
    rewrite spaces_then_command_none by exact Hpost. reflexivity.
Qed.

Lemma sec_pattern_match (text name star title post : str) (level : nat) :
  In (name, level) level_map -> star = [] \/ star = lit "*" ->
  forallb (not_c "}") title = true -> free_of backslash post = true ->
  match_here text sec_pattern
             (lit "\" ++ name ++ star ++ lit "{" ++ title ++ lit "}" ++ post) =
    Some ([(2, title); (1, name)], post).
Proof.
  intros Hin Hstar Ht Hpost.
  pose proof (fun g => @heading_tail_match text title post g Ht Hpost) as Htail.
  set (rest := star ++ lit "{" ++ title ++ lit "}" ++ post) in *.
  assert (Hopt : forall g,
             match
               mt text (Lit (lit "*")) rest g
                  (fun s' g' => mt text heading_tail s' g'
                                   (fun s'0 g'0 => Some (g'0, s'0)))
             with
             | Some x => Some x
             | None => mt text heading_tail rest g (fun s' g' => Some (g', s'))
             end = Some ((2, title) :: g, post)).
  { intros g. unfold rest. destruct Hstar as [-> | ->].
    - cbn [app]. rewrite mt_lit_none by reflexivity. apply Htail.
    - rewrite mt_lit_app, Htail. reflexivity. }
  unfold match_here.
  change sec_pattern with
    (L "\" >>
     Grp 1 (L "section" |/ L "subsection" |/ L "subsubsection" |/
            L "paragraph" |/ L "runningtitle") >>
     (Opt (L "*") >> heading_tail))%re.
  rewrite mt_seq. unfold L at 1. rewrite mt_lit_app.
  assert (Hcap : firstn (length (name ++ rest) - length rest) (name ++ rest) = name)
    by apply firstn_length_diff.
  unfold level_map in Hin. cbn [In] in Hin.
  destruct Hin as [H|[H|[H|[H|[H|[]]]]]]; injection H as <- _;
    cbn [mt]; unfold L;
    repeat match goal with
      | |- context [mt text (Lit ?l) (?l ++ rest) ?g ?k] =>
          rewrite (mt_lit_app text l rest g k)
      | |- context [mt text (Lit ?l) (?p ++ rest) ?g ?k] =>
          rewrite (@mt_lit_none _ text l (p ++ rest) g k eq_refl)
      end;
    rewrite Hcap, Hopt; reflexivity.
Qed.

(** A text with one match of the pattern: [sub] rewrites that match and
    copies the rest. *)
Lemma sub_from_one_match (text : str) (r : regex) (repl : rmatch -> str)
      (pre m post : str) (g : caps) (i : nat) :
  (forall p1 p2, pre = p1 ++ p2 -> p2 <> [] ->
                 match_here text r (p2 ++ m ++ post) = None) ->
  m <> [] ->
  match_here text r (m ++ post) = Some (g, post) ->
  (forall p1 p2, post = p1 ++ p2 -> match_here text r p2 = None) ->
  sub_from text r repl i (pre ++ m ++ post) =
    pre ++ repl (MkMatch (i + length pre) (i + length pre + length m) m g) ++
    post.
Proof.
  intros Hpre Hm Hmatch Hpost.
  rewrite sub_from_gaps by exact Hpre.
  rewrite (@sub_from_hit text r repl (i + length pre) m post g Hm Hmatch).
  rewrite sub_from_id by exact Hpost. reflexivity.
Qed.

Lemma sub_one_match (r : regex) (repl : rmatch -> str) (pre m post : str)
      (g : caps) :
  (forall p1 p2, pre = p1 ++ p2 -> p2 <> [] ->
                 match_here (pre ++ m ++ post) r (p2 ++ m ++ post) = None) ->
  m <> [] ->
  match_here (pre ++ m ++ post) r (m ++ post) = Some (g, post) ->
  (forall p1 p2, post = p1 ++ p2 ->
                 match_here (pre ++ m ++ post) r p2 = None) ->
  sub r repl (pre ++ m ++ post) =
    pre ++ repl (MkMatch (length pre) (length pre + length m) m g) ++ post.
Proof.
  intros Hpre Hm Hmatch Hpost. rewrite sub_sub_from.
  apply (@sub_from_one_match _ r repl pre m post g 0 Hpre Hm Hmatch Hpost).
Qed.

(** One heading between two texts without backslash. *)
Lemma heading_rewritten (pre name star title post : str) (level : nat) :
  In (name, level) level_map -> star = [] \/ star = lit "*" ->
  forallb (not_c "}") title = true ->
  free_of backslash pre = true -> free_of backslash post = true ->
  replace_headings
    (pre ++ lit "\" ++ name ++ star ++ lit "{" ++ title ++ lit "}" ++ post) =
    pre ++ [nl; nl] ++ concat (repeat (lit "#") level) ++ [sp] ++
    strip title ++ [nl; nl] ++ post.
Proof.
  intros Hin Hstar Ht Hpre Hpost.
  set (m := lit "\" ++ name ++ star ++ lit "{" ++ title ++ lit "}").
  assert (Em : forall s, lit "\" ++ name ++ star ++ lit "{" ++ title ++
                         lit "}" ++ s = m ++ s).
  { intros s. unfold m. rewrite <- !app_assoc. reflexivity. }
  rewrite Em. unfold replace_headings.
  rewrite (@sub_one_match sec_pattern sec_repl pre m post [(2, title); (1, name)]).
  - f_equal. unfold sec_repl, group_str, group. cbn [m_groups lookup Nat.eqb].
    assert (Hl : dict_get level_map name 2 = level).
    { unfold level_map in Hin. cbn [In] in Hin.
      destruct Hin as [H|[H|[H|[H|[H|[]]]]]]; injection H as <- <-; reflexivity. }
    rewrite Hl. rewrite <- !app_assoc. reflexivity.
  - intros p1 p2 -> Hne. apply free_of_suffix in Hpre.
    destruct p2 as [|d p2]; [congruence|].
    unfold free_of in Hpre. cbn [forallb] in Hpre. apply andb_prop in Hpre.
    destruct Hpre as [Hd _]. cbn [app].
    apply (@head_no_match _ sec_pattern backslash d _ eq_refl).
    destruct (N.eqb d backslash); [discriminate | reflexivity].
  - discriminate.
  - rewrite <- Em. apply (@sec_pattern_match _ name star title post level); assumption.
  - apply (@free_no_match _ sec_pattern backslash post eq_refl Hpost).
Qed.

(** X20.  [replace_headings] on a heading in running text.  The command is one of
    the five of [level_map], starred or not; the title holds no closing
    brace; the text around holds no backslash.  The heading is written as
    a blank line, [level] number signs, a space, the trimmed title and a
    blank line, and the text around is copied. *)
Theorem heading_in_text (pre name star title post : str) (level : nat) :
  In (name, level) level_map -> star = [] \/ star = lit "*" ->
  forallb (not_c "}") title = true ->
  free_of backslash pre = true -> free_of backslash post = true ->
  replace_headings
    (pre ++ lit "\" ++ name ++ star ++ lit "{" ++ title ++ lit "}" ++ post) =
    pre ++ [nl; nl] ++ concat (repeat (lit "#") level) ++ [sp] ++
    strip title ++ [nl; nl] ++ post.
Proof. apply heading_rewritten. Qed.

Lemma heading_in_text_witness :
  replace_headings
    (lit "Intro text. " ++ lit "\" ++ lit "subsection" ++ lit "*" ++ lit "{" ++
     lit " Related {work " ++ lit "}" ++ lit " Then more.") =
    lit "Intro text. " ++ [nl; nl] ++ concat (repeat (lit "#") 2) ++ [sp] ++
    strip (lit " Related {work ") ++ [nl; nl] ++ lit " Then more.".
Proof.
  apply heading_in_text; try reflexivity.
  - right. left. reflexivity.
  - right. reflexivity.
Defined.

(** ** One environment in a text *)

(** A match of [begin(.*?)end] at a text that begins with [begin]: the group
    is the text up to the first [end]. *)
Lemma env_match (text b : str) (c : char) (e body post : str) (n : nat) :
  free_of c e = true -> contains (c :: e) body = false ->
  match_here text (Lit b >> Grp n (Lazy dotall) >> Lit (c :: e))%re
             (b ++ body ++ (c :: e) ++ post) =
    Some ([(n, body)], post).
Proof.
  intros He Hbody. unfold match_here.
  rewrite mt_seq, mt_lit_app. apply mt_grp_lazy.
  - apply forallb_dotall.
  - intros a1 a2 g' -> Hne. apply mt_lit_none.
    apply lit_straddle; [exact He | exact Hne |].
    eapply contains_false_suffix; eauto.
  - rewrite mt_lit_app. reflexivity.
Qed.

(** Every match of [begin(.*?)end] holds an [end]. *)
Lemma env_match_end (text b e s rest : str) (g : caps) (n : nat) :
  match_here text (Lit b >> Grp n (Lazy dotall) >> Lit e)%re s = Some (g, rest) ->
  substr e s.
Proof.
  unfold match_here. cbn [mt]. intros H.
  destruct (eat b s) as [s1|] eqn:Eb; [|discriminate].
  apply eat_some in Eb. subst s.
  apply star_lazy_some in H. destruct H as (a & s2 & -> & _ & H).
  destruct (eat e s2) as [s3|] eqn:Ee; [|discriminate].
  apply eat_some in Ee. subst s2.
  exists (b ++ a), s3. rewrite <- app_assoc. reflexivity.
Qed.

(** ** The document body *)

(** X9.  [extract_document_content] returns the text between the first
    [\begin{document}] and the first [\end{document}] after it: the
    preamble and whatever follows the end of the document are dropped. *)
Theorem document_body (pre body post : str) :
  contains (lit "\begin{document}") pre = false ->
  contains (lit "\end{document}") body = false ->
  extract_document_content
    (pre ++ lit "\begin{document}" ++ body ++ lit "\end{document}" ++ post) =
    body.
Proof.
  intros Hpre Hbody.
  set (m := lit "\begin{document}" ++ body ++ lit "\end{document}").
  assert (Em : lit "\begin{document}" ++ body ++ lit "\end{document}" ++ post
               = m ++ post).
  { unfold m. rewrite <- !app_assoc. reflexivity. }
  rewrite Em. unfold extract_document_content.
  rewrite (@search_first document_env backslash (lit "begin{document}") pre
             m post [(1, body)] eq_refl eq_refl Hpre).
  - unfold group_str, group. cbn [m_groups lookup Nat.eqb]. reflexivity.
  - eexists. unfold m. reflexivity.
  - rewrite <- Em.
    apply (@env_match _ (lit "\begin{document}") backslash
             (lit "end{document}") body post 1 eq_refl Hbody).
Qed.

Lemma document_body_witness :
  extract_document_content
    (lit "\documentclass{a}" ++ lit "\begin{document}" ++ lit " Body " ++
     lit "\end{document}" ++ lit " trailing") = lit " Body ".
Proof. apply document_body; reflexivity. Defined.

(** X10.  A content without [\begin{document}], or without [\end{document}], is
    returned whole. *)
Theorem document_body_missing (content : str) :
  contains (lit "\begin{document}") content = false \/
  contains (lit "\end{document}") content = false ->
  extract_document_content content = content.
Proof.
  intros Hmissing. unfold extract_document_content.
  rewrite no_match_search; [reflexivity|].
  destruct Hmissing as [H|H].
  - eapply absent_no_match; [reflexivity | exact H].
  - intros p1 p2 ->.
    destruct (match_here (p1 ++ p2) document_env p2) as [[g rest]|] eqn:E;
      [|reflexivity].
    apply env_match_end in E. apply (substr_app_r p1) in E.
    apply contains_substr in E. congruence.
Qed.

Lemma document_body_missing_witness :
  extract_document_content (lit "\begin{document} no end") =
    lit "\begin{document} no end".
Proof. apply document_body_missing. right. reflexivity. Defined.

(** ** An equation in running text *)

(** X19.  [replace_equations] on an [equation] environment whose body holds no
    label: the environment ends at the first [\end{equation}], its trimmed
    body is written between two [$$] lines with a blank line on each side,
    and the text around, which holds no other [equation] environment, is
    copied. *)
Theorem equation_in_text (pre body post : str) :
  contains (lit "\begin{equation}") pre = false ->
  contains (lit "\end{equation}") body = false ->
  contains (lit "\label{") (strip body) = false ->
  contains (lit "\begin{equation}") post = false ->
  replace_equations
    (pre ++ lit "\begin{equation}" ++ body ++ lit "\end{equation}" ++ post) =
    pre ++ [nl; nl] ++ lit "$$" ++ [nl] ++ strip body ++ [nl] ++ lit "$$" ++
    [nl; nl] ++ post.
Proof.
  intros Hpre Hbody Hlab Hpost.
  set (m := lit "\begin{equation}" ++ body ++ lit "\end{equation}").
  assert (Em : forall s, lit "\begin{equation}" ++ body ++
                         lit "\end{equation}" ++ s = m ++ s).
  { intros s. unfold m. rewrite <- !app_assoc. reflexivity. }
  rewrite Em. unfold replace_equations.
  rewrite (@sub_one_match eq_env eq_repl pre m post [(1, body)]).
  - f_equal. unfold eq_repl.
    change (group_str 1 (MkMatch _ _ m [(1, body)])) with body.
    change (fun m0 : rmatch => group_str 1 m0 ++ [nl]) with eq_label_repl.
    rewrite sub_sub_from.
    rewrite (@eq_label_sub_none (strip body) (strip body) 0 Hlab).
    rewrite <- !app_assoc. reflexivity.
  - intros p1 p2 -> Hne.
    apply (@head_lit_none _ eq_env (lit "\begin{equation}") _ eq_refl).
    unfold m. rewrite <- !app_assoc.
    apply (@lit_straddle backslash (lit "begin{equation}") p2 _ eq_refl Hne).
    eapply contains_false_suffix; eauto.
  - discriminate.
  - rewrite <- Em.
    apply (@env_match _ (lit "\begin{equation}") backslash
             (lit "end{equation}") body post 1 eq_refl Hbody).
  - eapply absent_no_match; [reflexivity | exact Hpost].
Qed.

Lemma equation_in_text_witness :
  replace_equations
    (lit "We have " ++ lit "\begin{equation}" ++ lit " a = {b} " ++
     lit "\end{equation}" ++ lit " and \begin{equation*}c\end{equation*}.") =
    lit "We have " ++ [nl; nl] ++ lit "$$" ++ [nl] ++ strip (lit " a = {b} ") ++
    [nl] ++ lit "$$" ++ [nl; nl] ++
    lit " and \begin{equation*}c\end{equation*}.".
Proof. apply equation_in_text; reflexivity. Defined.

(** ** The canonical form written by [final_cleanup] *)

Lemma adj_no_pair (R : char -> char -> bool) (a b : char) (s : str) :
  adj R s = true -> R a b = false -> contains [a; b] s = false.
Proof.
  intros H Hab. destruct (contains [a; b] s) eqn:E; [|reflexivity].
  exfalso. apply contains_substr in E. destruct E as (p & q & ->).
  apply adj_suffix in H. cbn [app adj] in H. apply andb_prop in H.
  destruct H as [H _]. congruence.
Qed.

Lemma short_runs_no_run (c : char) (n : nat) (s : str) :
  short_runs c n s -> contains (repeat c n) s = false.
Proof.
  intros H. destruct (contains (repeat c n) s) eqn:E; [|reflexivity].
  exfalso. apply contains_substr in E. destruct E as (p & q & ->).
  specialize (H p (repeat c n ++ q) eq_refl).
  assert (Hle : n <= length (take_while (N.eqb c) (repeat c n ++ q))).
  { clear H. induction n as [|n IH]; [lia|].
    cbn [repeat app take_while]. rewrite N.eqb_refl. cbn [length]. lia. }
  lia.
Qed.

(** X28.  The text written by [final_cleanup] holds no space or tab next to a
    newline, no two spaces in a row and no three newlines in a row. *)
Theorem final_cleanup_canonical (text : str) :
  let out := final_cleanup text in
  contains [sp; nl] out = false /\ contains [tab; nl] out = false /\
  contains [nl; sp] out = false /\ contains [nl; tab] out = false /\
  contains [sp; sp] out = false /\ contains [nl; nl; nl] out = false.
Proof.
  assert (H : cleaned (final_cleanup text)).
  { unfold final_cleanup. apply cleaned_newline; [|apply strip_trimmed].
    apply cleaned_strip, final_steps_cleaned. }
  destruct H as (H1 & H2 & H3). cbv zeta.
  repeat split.
  - apply (@adj_no_pair ok1 _ _ _ H1). reflexivity.
  - apply (@adj_no_pair ok1 _ _ _ H1). reflexivity.
  - apply (@adj_no_pair ok1 _ _ _ H1). reflexivity.
  - apply (@adj_no_pair ok1 _ _ _ H1). reflexivity.
  - apply (@short_runs_no_run sp 2 _ H2).
  - apply (@short_runs_no_run nl 3 _ H3).
Qed.

(** ** Removing a command with its argument *)

Lemma eat_app_seq (a b s : str) :
  eat (a ++ b) s = match eat a s with Some s' => eat b s' | None => None end.
Proof.
  revert s. induction a as [|c a IH]; intros s; [reflexivity|].
  cbn [app eat]. destruct s as [|d s]; [reflexivity|].
  destruct (N.eqb c d); [apply IH | reflexivity].
Qed.

(** The pattern that [_remove_latex_command] compiles matches as one
    literal. *)
Lemma command_pattern_lit (text : str) (command : string) (s : str) :
  match_here text (L "\" >> L command >> L "{")%re s =
    match_here text (Lit (lit "\" ++ lit command ++ lit "{")) s.
Proof.
  unfold match_here, L. cbn [mt]. rewrite eat_app_seq.
  destruct (eat (lit "\") s) as [s1|]; [|reflexivity].
  rewrite eat_app_seq.
  destruct (eat (lit command) s1) as [s2|]; reflexivity.
Qed.

Lemma search_go_ext (text : str) (r1 r2 : regex) :
  (forall s, match_here text r1 s = match_here text r2 s) ->
  forall s i, search_go text r1 i s = search_go text r2 i s.
Proof.
  intros H. induction s as [|c s IH]; intros i; cbn [search_go]; rewrite H.
  - reflexivity.
  - destruct (match_here text r2 (c :: s)) as [[g rest]|]; [reflexivity|].
    apply IH.
Qed.

Lemma remove_command_loop_ext (text : str) (r1 r2 : regex) :
  (forall s, match_here text r1 s = match_here text r2 s) ->
  forall fuel pos result,
    remove_command_loop fuel r1 text pos result =
    remove_command_loop fuel r2 text pos result.
Proof.
  intros H. assert (Hs : forall pos, search r1 text pos = search r2 text pos).
  { intros pos. unfold search. destruct (pos <=? length text); [|reflexivity].
    apply search_go_ext. exact H. }
  induction fuel as [|fuel IH]; intros pos result; cbn [remove_command_loop];
    rewrite Hs; destruct (search r2 text pos) as [m|]; try reflexivity.
  destruct (brace_scan text (m_end m)) as [i l]. apply IH.
Qed.

(** The search from the end of a prefix looks at what follows it. *)
Lemma search_after (r : regex) (a s : str) :
  search r (a ++ s) (length a) = search_go (a ++ s) r (length a) s.
Proof.
  unfold search. rewrite skipn_exact.
  replace (length a <=? length (a ++ s)) with true; [reflexivity|].
  symmetry. apply Nat.leb_le. rewrite length_app. lia.
Qed.

(** One occurrence of [\command{...}] with a balanced argument: the command
    and its argument are cut out, whatever braces are nested in the
    argument, and the text around is kept. *)
Lemma remove_command_cut (l pre a post : str) :
  free_of backslash l = true ->
  contains (backslash :: l) pre = false -> balanced a ->
  contains (backslash :: l) post = false ->
  forall fuel,
    remove_command_loop (S fuel) (Lit (backslash :: l))
      (pre ++ (backslash :: l) ++ a ++ [ch "}"] ++ post) 0 [] =
      Some [pre; post].
Proof.
  intros Hl Hpre Ha Hpost fuel.
  set (m := backslash :: l).
  set (rest := a ++ [ch "}"] ++ post).
  cbn [remove_command_loop].
  rewrite (@search_first (Lit m) backslash l pre m rest [] eq_refl Hl Hpre).
  - cbn [m_end m_start].
    pose proof (@brace_scan_closed (pre ++ m) a post Ha) as Hscan.
    rewrite <- app_assoc in Hscan. fold rest in Hscan.
    rewrite length_app in Hscan. rewrite Hscan.
    assert (Hslice : slice 0 (length pre) (pre ++ m ++ rest) = pre).
    { unfold slice. cbn [skipn]. rewrite Nat.sub_0_r. apply firstn_exact. }
    rewrite Hslice. cbn [app].
    assert (Etext : pre ++ m ++ rest = (pre ++ m ++ a ++ [ch "}"]) ++ post).
    { unfold rest. rewrite <- !app_assoc. reflexivity. }
    assert (Elen : length pre + length m + length a + 1 =
                   length (pre ++ m ++ a ++ [ch "}"])).
    { rewrite !length_app. cbn [length]. lia. }
    rewrite Elen, Etext.
    assert (Hend : search (Lit m) ((pre ++ m ++ a ++ [ch "}"]) ++ post)
                     (length (pre ++ m ++ a ++ [ch "}"])) = None).
    { rewrite search_after. apply search_go_none.
      eapply absent_no_match; [reflexivity | exact Hpost]. }
    destruct fuel; cbn [remove_command_loop]; rewrite Hend;
      unfold slice_from; rewrite skipn_exact; reflexivity.
  - exists (l ++ rest). reflexivity.
  - rewrite match_here_lit, eat_app. reflexivity.
Qed.

(** X25.  [_remove_latex_command] on a text with one occurrence of the command,
    its argument balanced: the command and its argument are removed, nested
    braces included, and the text before and after is joined. *)
Theorem remove_command_balanced (command : string) (pre a post : str) :
  free_of backslash (lit command) = true ->
  contains (lit "\" ++ lit command ++ lit "{") pre = false -> balanced a ->
  contains (lit "\" ++ lit command ++ lit "{") post = false ->
  _remove_latex_command
    (pre ++ lit "\" ++ lit command ++ lit "{" ++ a ++ [ch "}"] ++ post)
    command = pre ++ post.
Proof.
  intros Hc Hpre Ha Hpost. unfold _remove_latex_command.
  rewrite (@remove_command_loop_ext _ _
             (Lit (lit "\" ++ lit command ++ lit "{"))
             (command_pattern_lit _ command)).
  set (l := lit command ++ lit "{").
  assert (Hl : free_of backslash l = true).
  { unfold l. rewrite free_of_app, Hc. reflexivity. }
  assert (Et : pre ++ lit "\" ++ lit command ++ lit "{" ++ a ++ [ch "}"] ++ post
               = pre ++ (backslash :: l) ++ a ++ [ch "}"] ++ post).
  { unfold l. cbn [app lit]. rewrite <- !app_assoc. reflexivity. }
  rewrite Et.
  change (lit "\" ++ lit command ++ lit "{") with (backslash :: l) in *.
  assert (Hlen : exists n, length (pre ++ (backslash :: l) ++ a ++ [ch "}"] ++ post)
                           = S n).
  { rewrite length_app. cbn [app length]. eexists.
    rewrite Nat.add_succ_r. reflexivity. }
  destruct Hlen as (n & ->).
  change (lit "\" ++ l) with (backslash :: l).
  rewrite (@remove_command_cut l pre a post Hl Hpre Ha Hpost n).
  cbn [concat]. rewrite app_nil_r. reflexivity.
Qed.

Lemma remove_command_balanced_witness :
  _remove_latex_command
    (lit "a " ++ lit "\" ++ lit "vspace" ++ lit "{" ++ lit "{1}{2}cm" ++
     [ch "}"] ++ lit " b \vspace*") "vspace" = lit "a " ++ lit " b \vspace*".
Proof.
  apply remove_command_balanced; try reflexivity. split; reflexivity.
Defined.

(** ** The outer loops *)

(** X26.  The [while True] loops around the brace scanner, and the loop of
    [has_nested_tabulars], end on every text: the caption loop of
    [figure_repl] and [table_repl], the loop of
    [remove_captions_and_labels], the loop of [_remove_latex_command] for
    every command, and the scan for nested tabulars each make at most
    [length text] further iterations. *)
Theorem outer_loops_terminate (text : str) :
  (exists captions, caption_loop (length text) text 0 [] = Some captions) /\
  (exists out, remove_captions_loop (length text) text 0 [] = Some out) /\
  (forall command : string,
     exists parts,
       remove_command_loop (length text) (L "\" >> L command >> L "{")%re
                           text 0 [] = Some parts) /\
  (exists nested, has_nested_loop (length text) text 0%Z 0 = Some nested).
Proof.
  repeat split.
  - apply caption_loop_total. lia.
  - apply remove_captions_loop_total. lia.
  - intros command. apply remove_command_loop_total; [|lia].
    apply (@lit_seq_consumes backslash []).
  - apply has_nested_loop_total. lia.
Qed.

(** ** A figure in running text *)

(** A lazy star followed by [r]: it stops at the first place where [r]
    matches. *)
Lemma mt_lazy {A : Type} (text : str) (p : char -> bool) (r : regex)
      (a s : str) (g : caps) (k : str -> caps -> option A) (x : A) :
  forallb p a = true ->
  (forall a1 a2, a = a1 ++ a2 -> a2 <> [] -> mt text r (a2 ++ s) g k = None) ->
  mt text r s g k = Some x ->
  mt text (Lazy p >> r)%re (a ++ s) g k = Some x.
Proof.
  intros Hp Hskip Hnow. rewrite mt_seq. cbn [mt].
  rewrite star_lazy_skip; [apply star_lazy_now; exact Hnow | exact Hp |].
  intros a1 a2 E Hne. apply (Hskip a1 a2 E Hne).
Qed.

Lemma brace_skip {A : Type} (text a s : str) (g : caps)
      (k : str -> caps -> option A) :
  forallb (not_c "}") a = true ->
  forall a1 a2, a = a1 ++ a2 -> a2 <> [] ->
                mt text (L "}") (a2 ++ s) g k = None.
Proof.
  intros Ha a1 a2 -> Hne. rewrite forallb_app in Ha. apply andb_prop in Ha.
  destruct Ha as [_ Ha]. destruct a2 as [|c a2]; [congruence|].
  cbn [forallb] in Ha. apply andb_prop in Ha. destruct Ha as [Hc _].
  apply mt_lit_none. cbn [app]. apply eat_brace_not. exact Hc.
Qed.

(** The match of [figure_env] at the beginning of an environment: it ends
    at the first [\end{figure...}]. *)
Lemma figure_env_match (text opt inner opt2 post : str) :
  forallb (not_c "}") opt = true ->
  contains (lit "\end{figure") inner = false ->
  forallb (not_c "}") opt2 = true ->
  match_here text figure_env
    (lit "\begin{figure" ++ opt ++ lit "}" ++ inner ++
     lit "\end{figure" ++ opt2 ++ lit "}" ++ post) =
    Some ([(1, inner)], post).
Proof.
  intros Hopt Hinner Hopt2. unfold match_here, figure_env.
  unfold L at 1. rewrite mt_seq, mt_lit_app. apply mt_lazy.
  - apply forallb_dotall.
  - intros a1 a2 E Hne. rewrite mt_seq.
    apply (@brace_skip _ text opt _ [] _ Hopt a1 a2 E Hne).
  - rewrite mt_seq. unfold L at 1. rewrite mt_lit_app. apply mt_grp_lazy.
    + apply forallb_dotall.
    + intros a1 a2 g' -> Hne. rewrite mt_seq. apply mt_lit_none.
      apply (@lit_straddle backslash (lit "end{figure") a2 _ eq_refl Hne).
      eapply contains_false_suffix; eauto.
    + rewrite mt_seq. unfold L at 1. rewrite mt_lit_app. apply mt_lazy.
      * apply forallb_dotall.
      * apply brace_skip. exact Hopt2.
      * unfold L. rewrite mt_lit_app. reflexivity.
Qed.

(** One caption with a balanced argument. *)
Lemma caption_loop_one (x cap y : str) (fuel : nat) :
  contains (lit "\caption{") x = false -> balanced cap ->
  contains (lit "\caption{") y = false ->
  caption_loop (S fuel) (x ++ lit "\caption{" ++ cap ++ [ch "}"] ++ y) 0 [] =
    Some [strip_labels (strip cap)].
Proof.
  intros Hx Hcap Hy.
  set (m := lit "\caption{").
  set (rest := cap ++ [ch "}"] ++ y).
  cbn [caption_loop].
  rewrite (@search_first cap_start_pattern backslash (lit "caption{") x m rest []
             eq_refl eq_refl Hx).
  - cbn [m_end].
    pose proof (@brace_scan_closed (x ++ m) cap y Hcap) as Hscan.
    rewrite <- app_assoc in Hscan. fold rest in Hscan.
    rewrite length_app in Hscan. rewrite Hscan.
    cbn [Z.eqb].
    assert (Hslice : slice (length x + length m)
                       (length x + length m + length cap + 1 - 1)
                       (x ++ m ++ rest) = cap).
    { unfold slice.
      replace (length x + length m) with (length (x ++ m))
        by (rewrite length_app; reflexivity).
      rewrite app_assoc, skipn_exact.
      replace (length (x ++ m) + length cap + 1 - 1 - length (x ++ m))
        with (length cap) by lia.
      unfold rest. apply firstn_exact. }
    rewrite Hslice. cbn [app].
    assert (Etext : x ++ m ++ rest = (x ++ m ++ cap ++ [ch "}"]) ++ y).
    { unfold rest. rewrite <- !app_assoc. reflexivity. }
    assert (Elen : length x + length m + length cap + 1 =
                   length (x ++ m ++ cap ++ [ch "}"])).
    { rewrite !length_app. cbn [length]. lia. }
    rewrite Elen, Etext.
    assert (Hend : search cap_start_pattern ((x ++ m ++ cap ++ [ch "}"]) ++ y)
                     (length (x ++ m ++ cap ++ [ch "}"])) = None).
    { rewrite search_after. apply search_go_none.
      eapply absent_no_match; [reflexivity | exact Hy]. }
    destruct fuel; cbn [caption_loop]; rewrite Hend; reflexivity.
  - exists (lit "caption{" ++ rest). reflexivity.
  - unfold cap_start_pattern, L. rewrite match_here_lit. fold m.
    rewrite eat_app. reflexivity.
Qed.

Lemma strip_substr (s : str) : substr (strip s) s.
Proof.
  destruct (strip_split s) as (w1 & w2 & Hs & _ & _). exists w1, w2. exact Hs.
Qed.

Lemma contains_false_substr (l a s : str) :
  substr a s -> contains l s = false -> contains l a = false.
Proof.
  intros Hs H. destruct (contains l a) eqn:E; [|reflexivity].
  apply contains_substr in E.
  assert (Hl : substr l s) by (eapply substr_trans; eauto).
  apply contains_substr in Hl. congruence.
Qed.

(** Without label markers [strip_labels] only trims. *)
Lemma strip_labels_none (s : str) :
  contains (lit "\label{") s = false -> strip_labels s = strip s.
Proof.
  intros H. unfold strip_labels. rewrite no_match_sub; [reflexivity|].
  eapply absent_no_match; [reflexivity | exact H].
Qed.

(** X16.  [replace_figures] on a figure environment with one caption and no
    label.  The environment begins with [\begin{figure...}], whatever
    stands before the closing brace, and ends at the first
    [\end{figure...}]; all that is written for it is the caption, trimmed
    and with its inline formats converted, after [**Figure:**]: what
    surrounds the caption inside the environment is dropped. *)
Theorem figure_in_text (pre opt x cap y opt2 post : str) :
  contains (lit "\begin{figure") pre = false ->
  forallb (not_c "}") opt = true ->
  contains (lit "\end{figure")
           (x ++ lit "\caption{" ++ cap ++ [ch "}"] ++ y) = false ->
  contains (lit "\label{")
           (x ++ lit "\caption{" ++ cap ++ [ch "}"] ++ y) = false ->
  contains (lit "\caption{") x = false -> balanced cap ->
  contains (lit "\caption{") y = false ->
  forallb (not_c "}") opt2 = true ->
  contains (lit "\begin{figure") post = false ->
  replace_figures
    (pre ++ lit "\begin{figure" ++ opt ++ lit "}" ++
     (x ++ lit "\caption{" ++ cap ++ [ch "}"] ++ y) ++
     lit "\end{figure" ++ opt2 ++ lit "}" ++ post) =
    pre ++ [nl; nl] ++ lit "**Figure:** " ++ apply_inline_formats (strip cap) ++
    [nl; nl] ++ post.
Proof.
  intros Hpre Hopt Hend Hlab Hx Hcap Hy Hopt2 Hpost.
  set (inner := x ++ lit "\caption{" ++ cap ++ [ch "}"] ++ y) in *.
  set (m := lit "\begin{figure" ++ opt ++ lit "}" ++ inner ++
            lit "\end{figure" ++ opt2 ++ lit "}").
  assert (Em : forall s, lit "\begin{figure" ++ opt ++ lit "}" ++ inner ++
                         lit "\end{figure" ++ opt2 ++ lit "}" ++ s = m ++ s).
  { intros s. unfold m. rewrite <- !app_assoc. reflexivity. }
  rewrite Em. unfold replace_figures.
  rewrite (@sub_one_match figure_env figure_repl pre m post [(1, inner)]).
  - f_equal. unfold figure_repl.
    change (group_str 1 (MkMatch _ _ m [(1, inner)])) with inner.
    assert (Hcaps : extract_captions inner = [strip cap]).
    { unfold extract_captions.
      assert (Hlen : 0 < length inner).
      { unfold inner. rewrite !length_app. cbn [length]. lia. }
      destruct (length inner) as [|n]; [lia|]. unfold inner.
      rewrite (@caption_loop_one x cap y n Hx Hcap Hy).
      rewrite strip_labels_none, strip_idem; [reflexivity|].
      apply (@contains_false_substr _ (strip cap) inner); [|exact Hlab].
      eapply substr_trans; [apply strip_substr|].
      exists (x ++ lit "\caption{"), ([ch "}"] ++ y). unfold inner.
      rewrite <- !app_assoc. reflexivity. }
    rewrite Hcaps. cbn [join]. rewrite strip_idem.
    assert (Hlabels : findall1 label_pattern inner = []).
    { unfold findall1. rewrite no_match_finditer; [reflexivity|].
      eapply absent_no_match; [reflexivity | exact Hlab]. }
    rewrite Hlabels. cbn [fold_left]. rewrite <- !app_assoc. reflexivity.
  - intros p1 p2 -> Hne.
    apply (@head_lit_none _ figure_env (lit "\begin{figure") _ eq_refl).
    unfold m. rewrite <- !app_assoc.
    apply (@lit_straddle backslash (lit "begin{figure") p2 _ eq_refl Hne).
    eapply contains_false_suffix; eauto.
  - discriminate.
  - rewrite <- Em. apply figure_env_match; assumption.
  - eapply absent_no_match; [reflexivity | exact Hpost].
Qed.

Lemma figure_in_text_witness :
  replace_figures
    (lit "See " ++ lit "\begin{figure" ++ lit "*" ++ lit "}" ++
     (lit "[ht]\includegraphics{a.png}" ++ lit "\caption{" ++
      lit " A \textbf{bold} {plot} " ++ [ch "}"] ++ lit "\centering") ++
     lit "\end{figure" ++ lit "*" ++ lit "}" ++ lit " below.") =
    lit "See " ++ [nl; nl] ++ lit "**Figure:** " ++
    apply_inline_formats (strip (lit " A \textbf{bold} {plot} ")) ++
    [nl; nl] ++ lit " below.".
Proof.
  apply figure_in_text; try reflexivity. split; reflexivity.
Defined.

(** ** Inline formats in running text *)

(** A text with one backslash: a pattern that begins with a backslash and
    does not match there matches nowhere. *)
Lemma one_backslash_no_match (text : str) (r : regex) (pre s : str) :
  head_char r = Some backslash ->
  free_of backslash pre = true -> free_of backslash s = true ->
  match_here text r (backslash :: s) = None ->
  forall p1 p2, pre ++ backslash :: s = p1 ++ p2 -> match_here text r p2 = None.
Proof.
  intros Hh Hpre Hs Hhere. induction pre as [|c pre IH]; intros p1 p2 E.
  - destruct p1 as [|d p1]; cbn [app] in E.
    + subst p2. exact Hhere.
    + injection E as _ E.
      apply (@free_no_match text r backslash s Hh Hs p1 p2 E).
  - unfold free_of in Hpre. cbn [forallb] in Hpre. apply andb_prop in Hpre.
    destruct Hpre as [Hc Hpre]. destruct p1 as [|d p1]; cbn [app] in E.
    + subst p2. apply (@head_no_match text r backslash c _ Hh).
      destruct (N.eqb c backslash); [discriminate | reflexivity].
    + injection E as _ E. apply (IH Hpre p1 p2 E).
Qed.

(** The argument of an inline command: up to the first closing brace, on
    one line. *)
Lemma inline_arg_match (text x post : str) (g : caps) :
  forallb (not_c "}") x = true -> forallb dot x = true ->
  mt text (Grp 1 (Lazy dot) >> L "}")%re (x ++ lit "}" ++ post) g
     (fun s' g' => Some (g', s')) = Some ((1, x) :: g, post).
Proof.
  intros Hx Hdot. apply mt_grp_lazy.
  - exact Hdot.
  - intros a1 a2 g' E Hne. apply (@brace_skip _ text x _ g' _ Hx a1 a2 E Hne).
  - unfold L. rewrite mt_lit_app. reflexivity.
Qed.

(** One substitution on a text whose one command is the one it rewrites. *)
Lemma inline_sub_hit (r : regex) (repl : rmatch -> str) (pre m post x : str) :
  head_char r = Some backslash ->
  free_of backslash pre = true -> free_of backslash post = true ->
  m <> [] ->
  match_here (pre ++ m ++ post) r (m ++ post) = Some ([(1, x)], post) ->
  sub r repl (pre ++ m ++ post) =
    pre ++ repl (MkMatch (length pre) (length pre + length m) m [(1, x)]) ++ post.
Proof.
  intros Hh Hpre Hpost Hm Hmatch. apply sub_one_match.
  - intros p1 p2 -> Hne. apply free_of_suffix in Hpre.
    destruct p2 as [|d p2]; [congruence|].
    unfold free_of in Hpre. cbn [forallb] in Hpre. apply andb_prop in Hpre.
    destruct Hpre as [Hd _]. cbn [app].
    apply (@head_no_match _ r backslash d _ Hh).
    destruct (N.eqb d backslash); [discriminate | reflexivity].
  - exact Hm.
  - exact Hmatch.
  - apply (@free_no_match _ r backslash post Hh Hpost).
Qed.

(** The commands of [apply_inline_formats] and what is written around their
    argument. *)
Definition inline_commands : list (str * str) :=
  [ (lit "emph", lit "*"); (lit "textit", lit "*"); (lit "textbf", lit "**");
    (lit "textsc", lit "`") ].

Definition inline_char (c : char) : bool :=
  not_c "}" c && dot c && negb (N.eqb c backslash).

Lemma inline_char_all (x : str) :
  forallb inline_char x = true ->
  forallb (not_c "}") x = true /\ forallb dot x = true /\
  free_of backslash x = true.
Proof.
  intros H. unfold free_of. rewrite !forallb_forall.
  rewrite forallb_forall in H. repeat split; intros c Hc; specialize (H c Hc);
    unfold inline_char in H; apply andb_prop in H; destruct H as [H H3];
    apply andb_prop in H; destruct H as [H1 H2]; assumption.
Qed.

Lemma mt_alt {A : Type} (text : str) (r1 r2 : regex) (s : str) (g : caps)
      (k : str -> caps -> option A) :
  mt text (r1 |/ r2)%re s g k =
    match mt text r1 s g k with Some x => Some x | None => mt text r2 s g k end.
Proof. reflexivity. Qed.

Ltac free_of_tac :=
  rewrite ?free_of_app;
  repeat (apply andb_true_intro; split);
  try reflexivity; try assumption; try (apply strip_free; assumption).

(** A pattern for another command leaves the text as it is. *)
Lemma other_command_kept (cmd : str) (r : regex) (pre tail : str)
      (repl : rmatch -> str) :
  head_char r = Some backslash ->
  free_of backslash pre = true -> free_of backslash (cmd ++ tail) = true ->
  match_here (pre ++ lit "\" ++ cmd ++ tail) r (lit "\" ++ cmd ++ tail) = None ->
  sub r repl (pre ++ lit "\" ++ cmd ++ tail) = pre ++ lit "\" ++ cmd ++ tail.
Proof.
  intros Hh Hpre Hs Hhere. apply no_match_sub.
  apply (@one_backslash_no_match _ r pre (cmd ++ tail) Hh Hpre Hs Hhere).
Qed.

(** X23.  [\emph{x}], [\textit{x}], [\textbf{x}] and [\textsc{x}] in a text
    without other commands, the argument [x] on one line and without
    braces: the argument is trimmed and written between the Markdown
    delimiters of the command. *)
Theorem inline_format_in_text (cmd delim pre x post : str) :
  In (cmd, delim) inline_commands ->
  free_of backslash pre = true -> forallb inline_char x = true ->
  free_of backslash post = true ->
  apply_inline_formats
    (pre ++ lit "\" ++ cmd ++ lit "{" ++ x ++ lit "}" ++ post) =
    pre ++ delim ++ strip x ++ delim ++ post.
Proof.
  intros Hin Hpre Hx Hpost.
  destruct (inline_char_all _ Hx) as (Hbrace & Hdot & Hfree).
  pose proof (fun g => @inline_arg_match
                (pre ++ lit "\" ++ cmd ++ lit "{" ++ x ++ lit "}" ++ post)
                x post g Hbrace Hdot) as Harg.
  unfold L in Harg.
  assert (Hout : free_of backslash (pre ++ delim ++ strip x ++ delim ++ post)
                 = true).
  { unfold inline_commands in Hin. cbn [In] in Hin.
    destruct Hin as [H|[H|[H|[H|[]]]]]; injection H as _ <-; free_of_tac. }
  set (m := lit "\" ++ cmd ++ lit "{" ++ x ++ lit "}").
  assert (Em : lit "\" ++ cmd ++ lit "{" ++ x ++ lit "}" ++ post = m ++ post).
  { unfold m. rewrite <- !app_assoc. reflexivity. }
  assert (Hm : m <> []) by discriminate.
  assert (Hs : free_of backslash (cmd ++ lit "{" ++ x ++ lit "}" ++ post)
               = true).
  { unfold inline_commands in Hin. cbn [In] in Hin.
    destruct Hin as [H|[H|[H|[H|[]]]]]; injection H as <- _; free_of_tac. }
  unfold apply_inline_formats.
  unfold inline_commands in Hin. cbn [In] in Hin.
  destruct Hin as [H|[H|[H|[H|[]]]]]; injection H as <- <-.
  - (* emph *)
    rewrite Em.
    rewrite (@inline_sub_hit emph_pattern _ pre m post x eq_refl Hpre Hpost Hm).
    + change (group_str 1 (MkMatch _ _ m [(1, x)])) with x.
      rewrite <- !app_assoc.
      rewrite (@plain_sub _ Hout bold_pattern _ eq_refl).
      apply (@plain_sub _ Hout textsc_pattern _ eq_refl).
    + rewrite <- Em. unfold match_here, emph_pattern, L.
      rewrite mt_seq, mt_lit_app, mt_seq, mt_alt, mt_lit_app.
      rewrite mt_seq, mt_lit_app, Harg. reflexivity.
  - (* textit *)
    rewrite Em.
    rewrite (@inline_sub_hit emph_pattern _ pre m post x eq_refl Hpre Hpost Hm).
    + change (group_str 1 (MkMatch _ _ m [(1, x)])) with x.
      rewrite <- !app_assoc.
      rewrite (@plain_sub _ Hout bold_pattern _ eq_refl).
      apply (@plain_sub _ Hout textsc_pattern _ eq_refl).
    + rewrite <- Em. unfold match_here, emph_pattern, L.
      rewrite mt_seq, mt_lit_app, mt_seq, mt_alt.
      rewrite mt_lit_none by reflexivity.
      rewrite mt_lit_app, mt_seq, mt_lit_app, Harg. reflexivity.
  - (* textbf *)
    rewrite (@other_command_kept (lit "textbf") emph_pattern pre _ _ eq_refl Hpre Hs eq_refl).
    rewrite Em.
    rewrite (@inline_sub_hit bold_pattern _ pre m post x eq_refl Hpre Hpost Hm).
    + change (group_str 1 (MkMatch _ _ m [(1, x)])) with x.
      rewrite <- !app_assoc.
      apply (@plain_sub _ Hout textsc_pattern _ eq_refl).
    + rewrite <- Em. unfold match_here, bold_pattern, L.
      change (lit "\" ++ lit "textbf" ++ lit "{" ++ x ++ lit "}" ++ post)
        with (lit "\textbf{" ++ x ++ lit "}" ++ post).
      rewrite mt_seq, mt_lit_app. apply Harg.
  - (* textsc *)
    rewrite (@other_command_kept (lit "textsc") emph_pattern pre _ _ eq_refl Hpre Hs eq_refl).
    rewrite (@other_command_kept (lit "textsc") bold_pattern pre _ _ eq_refl Hpre Hs eq_refl).
    rewrite Em.
    rewrite (@inline_sub_hit textsc_pattern _ pre m post x eq_refl Hpre
               Hpost Hm).
    + change (group_str 1 (MkMatch _ _ m [(1, x)])) with x.
      rewrite <- !app_assoc. reflexivity.
    + rewrite <- Em. unfold match_here, textsc_pattern, L.
      change (lit "\" ++ lit "textsc" ++ lit "{" ++ x ++ lit "}" ++ post)
        with (lit "\textsc{" ++ x ++ lit "}" ++ post).
      rewrite mt_seq, mt_lit_app. apply Harg.
Qed.

Lemma inline_format_in_text_witness :
  apply_inline_formats
    (lit "a " ++ lit "\" ++ lit "textit" ++ lit "{" ++ lit " very good " ++
     lit "}" ++ lit " idea") =
    lit "a " ++ lit "*" ++ strip (lit " very good ") ++ lit "*" ++ lit " idea".
Proof.
  apply inline_format_in_text; try reflexivity. right. left. reflexivity.
Defined.

(** A lazy star stops where neither the continuation nor the class
    matches. *)
Lemma star_lazy_stop {A : Type} (p : char -> bool) (k : str -> option A)
      (a : str) (c : char) (s : str) :
  forallb p a = true ->
  (forall a1 a2, a = a1 ++ a2 -> a2 <> [] -> k (a2 ++ c :: s) = None) ->
  k (c :: s) = None -> p c = false ->
  star_lazy p k (a ++ c :: s) = None.
Proof.
  intros Ha Hskip Hk Hc. rewrite star_lazy_skip by assumption.
  cbn [star_lazy]. rewrite Hk, Hc. reflexivity.
Qed.

Lemma inline_arg_broken (text x rest : str) (g : caps) :
  forallb (not_c "}") x = true -> forallb dot x = true ->
  mt text (Grp 1 (Lazy dot) >> Lit (lit "}"))%re (x ++ nl :: rest) g
     (fun s' g' => Some (g', s')) = None.
Proof.
  intros Hx Hdot. rewrite mt_seq. cbn [mt]. apply star_lazy_stop.
  - exact Hdot.
  - intros a1 a2 -> Hne. rewrite forallb_app in Hx. apply andb_prop in Hx.
    destruct Hx as [_ Hx]. destruct a2 as [|d a2]; [congruence|].
    cbn [forallb] in Hx. apply andb_prop in Hx. destruct Hx as [Hd _].
    cbn [app]. rewrite eat_brace_not by exact Hd. reflexivity.
  - reflexivity.
  - reflexivity.
Qed.

(** X24.  An argument that does not end on the line where it begins is not
    converted: with a newline before the first closing brace, the command is
    left in the text as it is. *)
Theorem inline_format_multiline (cmd delim pre x rest : str) :
  In (cmd, delim) inline_commands ->
  free_of backslash pre = true -> forallb inline_char x = true ->
  free_of backslash rest = true ->
  apply_inline_formats (pre ++ lit "\" ++ cmd ++ lit "{" ++ x ++ nl :: rest) =
    pre ++ lit "\" ++ cmd ++ lit "{" ++ x ++ nl :: rest.
Proof.
  intros Hin Hpre Hx Hrest.
  destruct (inline_char_all _ Hx) as (Hbrace & Hdot & Hfree).
  pose proof (fun text g => @inline_arg_broken text x rest g Hbrace Hdot)
    as Harg.
  assert (Hs : free_of backslash (cmd ++ lit "{" ++ x ++ nl :: rest) = true).
  { unfold inline_commands in Hin. cbn [In] in Hin.
    change (nl :: rest) with ([nl] ++ rest).
    destruct Hin as [H|[H|[H|[H|[]]]]]; injection H as <- _; free_of_tac. }
  assert (Hemph : match_here
                    (pre ++ lit "\" ++ cmd ++ lit "{" ++ x ++ nl :: rest)
                    emph_pattern (lit "\" ++ cmd ++ lit "{" ++ x ++ nl :: rest)
                  = None).
  { unfold match_here, emph_pattern, L.
    rewrite mt_seq, mt_lit_app, mt_seq, mt_alt.
    unfold inline_commands in Hin. cbn [In] in Hin.
    destruct Hin as [H|[H|[H|[H|[]]]]]; injection H as <- _;
      try reflexivity.
    - rewrite mt_lit_app, mt_seq, mt_lit_app, Harg.
      rewrite mt_lit_none by reflexivity. reflexivity.
    - rewrite mt_lit_none by reflexivity.
      rewrite mt_lit_app, mt_seq, mt_lit_app. apply Harg. }
  assert (Hbold : match_here
                    (pre ++ lit "\" ++ cmd ++ lit "{" ++ x ++ nl :: rest)
                    bold_pattern (lit "\" ++ cmd ++ lit "{" ++ x ++ nl :: rest)
                  = None).
  { unfold match_here, bold_pattern, L.
    unfold inline_commands in Hin. cbn [In] in Hin.
    destruct Hin as [H|[H|[H|[H|[]]]]]; injection H as <- _;
      try reflexivity.
    change (lit "\" ++ lit "textbf" ++ lit "{" ++ x ++ nl :: rest)
      with (lit "\textbf{" ++ x ++ nl :: rest).
    rewrite mt_seq, mt_lit_app. apply Harg. }
  assert (Hsc : match_here
                  (pre ++ lit "\" ++ cmd ++ lit "{" ++ x ++ nl :: rest)
                  textsc_pattern (lit "\" ++ cmd ++ lit "{" ++ x ++ nl :: rest)
                = None).
  { unfold match_here, textsc_pattern, L.
    unfold inline_commands in Hin. cbn [In] in Hin.
    destruct Hin as [H|[H|[H|[H|[]]]]]; injection H as <- _;
      try reflexivity.
    change (lit "\" ++ lit "textsc" ++ lit "{" ++ x ++ nl :: rest)
      with (lit "\textsc{" ++ x ++ nl :: rest).
    rewrite mt_seq, mt_lit_app. apply Harg. }
  unfold apply_inline_formats.
  rewrite (@other_command_kept cmd emph_pattern pre _ _ eq_refl Hpre Hs Hemph).
  rewrite (@other_command_kept cmd bold_pattern pre _ _ eq_refl Hpre Hs Hbold).
  apply (@other_command_kept cmd textsc_pattern pre _ _ eq_refl Hpre Hs Hsc).
Qed.

Lemma inline_format_multiline_witness :
  apply_inline_formats
    (lit "a " ++ lit "\" ++ lit "textbf" ++ lit "{" ++ lit "first line" ++
     nl :: lit "second line} b") =
    lit "a " ++ lit "\" ++ lit "textbf" ++ lit "{" ++ lit "first line" ++
    nl :: lit "second line} b".
Proof.
  apply (@inline_format_multiline (lit "textbf") (lit "**"));
    try reflexivity.
  right. right. left. reflexivity.
Defined.

(** ** Formatting commands *)

(** A braced argument without closing brace inside, matched by
    [\{[^}]*\}]. *)
Lemma braced_arg_match {A : Type} (text a post : str) (g : caps)
      (k : str -> caps -> option A) :
  forallb (not_c "}") a = true ->
  mt text (L "{" >> Star (not_c "}") >> L "}")%re
     (lit "{" ++ a ++ lit "}" ++ post) g k = k post g.
Proof.
  intros Ha. unfold L. rewrite mt_seq, mt_lit_app, mt_seq. cbn [mt].
  rewrite star_greedy_max.
  - rewrite drop_while_app by exact Ha.
    change (lit "}" ++ post) with (ch "}" :: post).
    rewrite drop_while_stop by reflexivity.
    change (ch "}" :: post) with (lit "}" ++ post).
    rewrite eat_app. reflexivity.
  - intros c s' Hc. rewrite eat_brace_not by exact Hc. reflexivity.
Qed.

(** What follows the command name in [formatting_cmds]. *)
Definition formatting_tail : regex :=
  (Opt (Grp 2 (L "[" >> Star (not_c "]") >> L "]")) >>
   Opt (Grp 3 (L "{" >> Star (not_c "}") >> L "}")))%re.

Lemma formatting_tail_match (text a post : str) (g : caps) :
  forallb (not_c "}") a = true ->
  mt text formatting_tail (lit "{" ++ a ++ lit "}" ++ post) g
     (fun s' g' => Some (g', s')) =
    Some ((3, lit "{" ++ a ++ lit "}") :: g, post).
Proof.
  intros Ha. unfold formatting_tail. rewrite mt_seq, mt_opt.
  replace (mt text (Grp 2 (L "[" >> Star (not_c "]") >> L "]")) _ g _)
    with (@None (caps * str)) by reflexivity.
  rewrite mt_opt.
  change (mt text (Grp 3 ?r) ?s g ?k)
    with (mt text r s g
            (fun s' g' => k s' ((3, firstn (length s - length s') s) :: g'))).
  rewrite braced_arg_match by exact Ha.
  replace (lit "{" ++ a ++ lit "}" ++ post)
    with ((lit "{" ++ a ++ lit "}") ++ post)
    by (rewrite <- !app_assoc; reflexivity).
  rewrite firstn_length_diff. reflexivity.
Qed.

(** The commands of [formatting_cmds]. *)
Definition formatting_names : list str :=
  map lit [ "vspace"; "hspace"; "bigskip"; "newpage"; "smallskip"; "medskip";
            "pagebreak"; "linebreak"; "clearpage"; "cleardoublepage" ]%string.

Lemma formatting_cmds_match (text cmd a post : str) :
  In cmd formatting_names -> forallb (not_c "}") a = true ->
  match_here text formatting_cmds
             (lit "\" ++ cmd ++ lit "{" ++ a ++ lit "}" ++ post) =
    Some ([(3, lit "{" ++ a ++ lit "}"); (1, cmd)], post).
Proof.
  intros Hin Ha.
  pose proof (fun g => @formatting_tail_match text a post g Ha) as Htail.
  set (rest := lit "{" ++ a ++ lit "}" ++ post) in *.
  unfold match_here.
  change formatting_cmds with
    (L "\" >>
     Grp 1 (alts (map L [ "vspace"; "hspace"; "bigskip"; "newpage";
                          "smallskip"; "medskip"; "pagebreak"; "linebreak";
                          "clearpage"; "cleardoublepage" ]%string)) >>
     formatting_tail)%re.
  rewrite mt_seq. unfold L at 1. rewrite mt_lit_app.
  assert (Hcap : firstn (length (cmd ++ rest) - length rest) (cmd ++ rest) = cmd)
    by apply firstn_length_diff.
  unfold formatting_names in Hin. cbn [In map] in Hin.
  destruct Hin as [H|[H|[H|[H|[H|[H|[H|[H|[H|[H|[]]]]]]]]]]]; subst cmd;
    cbn [mt alts map]; unfold L;
    repeat match goal with
      | |- context [mt text (Lit ?l) (?l ++ rest) ?g ?k] =>
          rewrite (mt_lit_app text l rest g k)
      | |- context [mt text (Lit ?l) (?p ++ rest) ?g ?k] =>
          rewrite (@mt_lit_none _ text l (p ++ rest) g k eq_refl)
      end;
    rewrite Hcap, Htail; reflexivity.
Qed.

(** X27.  [remove_formatting_cmds] on a spacing or page-break command with a
    braced argument, in a text without other commands: the command and its
    argument are replaced by one space. *)
Theorem formatting_command_removed (cmd pre a post : str) :
  In cmd formatting_names -> forallb (not_c "}") a = true ->
  free_of backslash pre = true -> free_of backslash post = true ->
  remove_formatting_cmds
    (pre ++ lit "\" ++ cmd ++ lit "{" ++ a ++ lit "}" ++ post) =
    pre ++ [sp] ++ post.
Proof.
  intros Hin Ha Hpre Hpost.
  set (m := lit "\" ++ cmd ++ lit "{" ++ a ++ lit "}").
  assert (Em : lit "\" ++ cmd ++ lit "{" ++ a ++ lit "}" ++ post = m ++ post).
  { unfold m. rewrite <- !app_assoc. reflexivity. }
  rewrite Em. unfold remove_formatting_cmds.
  rewrite (@sub_one_match formatting_cmds _ pre m post
             [(3, lit "{" ++ a ++ lit "}"); (1, cmd)]).
  - reflexivity.
  - intros p1 p2 -> Hne. apply free_of_suffix in Hpre.
    destruct p2 as [|d p2]; [congruence|].
    unfold free_of in Hpre. cbn [forallb] in Hpre. apply andb_prop in Hpre.
    destruct Hpre as [Hd _]. cbn [app].
    apply (@head_no_match _ formatting_cmds backslash d _ eq_refl).
    destruct (N.eqb d backslash); [discriminate | reflexivity].
  - discriminate.
  - rewrite <- Em. apply formatting_cmds_match; assumption.
  - apply (@free_no_match _ formatting_cmds backslash post eq_refl Hpost).
Qed.

Lemma formatting_command_removed_witness :
  remove_formatting_cmds
    (lit "one" ++ lit "\" ++ lit "hspace" ++ lit "{" ++ lit "2em" ++ lit "}" ++
     lit "two") = lit "one" ++ [sp] ++ lit "two".
Proof.
  apply formatting_command_removed; try reflexivity.
  right. left. reflexivity.
Defined.

(** ** Nested tabulars *)

Lemma free_not_contains (c : char) (l s : str) :
  free_of c s = true -> contains (c :: l) s = false.
Proof.
  intros H. destruct (contains (c :: l) s) eqn:E; [|reflexivity].
  exfalso. apply contains_substr in E. destruct E as (p & q & ->).
  apply free_of_suffix in H. unfold free_of in H. cbn [app forallb] in H.
  rewrite N.eqb_refl in H. discriminate.
Qed.

Lemma free_head_skip (text : str) (r : regex) (p s : str) :
  head_char r = Some backslash -> free_of backslash p = true ->
  forall p1 p2, p = p1 ++ p2 -> p2 <> [] -> match_here text r (p2 ++ s) = None.
Proof.
  intros Hh Hp p1 p2 -> Hne. apply free_of_suffix in Hp.
  destruct p2 as [|d p2]; [congruence|].
  unfold free_of in Hp. cbn [forallb] in Hp. apply andb_prop in Hp.
  destruct Hp as [Hd _]. cbn [app].
  apply (@head_no_match text r backslash d _ Hh).
  destruct (N.eqb d backslash); [discriminate | reflexivity].
Qed.

(** The first literal after a text without backslash. *)
Lemma search_lit_first (l p rest : str) :
  free_of backslash p = true ->
  search (Lit (backslash :: l)) (p ++ (backslash :: l) ++ rest) 0 =
    Some (MkMatch (length p) (length p + length (backslash :: l))
                  (backslash :: l) []).
Proof.
  intros Hp. unfold search. cbn [Nat.leb skipn].
  rewrite search_go_skip
    by (apply free_head_skip; [reflexivity | exact Hp]).
  apply search_go_here. rewrite match_here_lit, eat_app. reflexivity.
Qed.

(** Another literal is found, if at all, after the backslash that follows a
    text without backslash. *)
Lemma search_lit_after (l p t : str) (m : rmatch) :
  free_of backslash p = true ->
  eat (backslash :: l) (backslash :: t) = None ->
  search (Lit (backslash :: l)) (p ++ backslash :: t) 0 = Some m ->
  length p < m_start m.
Proof.
  intros Hp Hno H. unfold search in H. cbn [Nat.leb skipn] in H.
  rewrite search_go_skip in H
    by (apply free_head_skip; [reflexivity | exact Hp]).
  cbn [search_go] in H. rewrite match_here_lit, Hno in H.
  apply (@search_go_bounds _ _ (lit_consumes backslash l)) in H. lia.
Qed.

Lemma search_lit_absent (l s : str) :
  free_of backslash s = true -> search (Lit (backslash :: l)) s 0 = None.
Proof.
  intros Hs. apply no_match_search.
  apply (@free_no_match _ (Lit (backslash :: l)) backslash s eq_refl Hs).
Qed.

(** One iteration of the loop of [has_nested_tabulars]. *)
Lemma nested_step_begin (fuel : nat) (tex : str) (open_tabulars : Z)
      (pos : nat) (mb : rmatch) :
  pos < length tex ->
  search begin_tabular (skipn pos tex) 0 = Some mb ->
  (forall me, search end_tabular (skipn pos tex) 0 = Some me ->
              m_start mb < m_start me) ->
  has_nested_loop (S fuel) tex open_tabulars pos =
    if (1 <? open_tabulars + 1)%Z then Some true
    else has_nested_loop fuel tex (open_tabulars + 1)%Z
                         (pos + m_start mb + 15).
Proof.
  intros Hpos Hb He. cbn [has_nested_loop].
  apply Nat.ltb_lt in Hpos. rewrite Hpos. unfold slice_from.
  rewrite Hb. cbn [option_map].
  change (length (lit "\begin{tabular}")) with 15.
  destruct (search end_tabular (skipn pos tex) 0) as [me|]; cbn [option_map].
  - specialize (He me eq_refl).
    replace (pos + m_start mb <? pos + m_start me) with true; [reflexivity|].
    symmetry. apply Nat.ltb_lt. lia.
  - reflexivity.
Qed.

Lemma nested_step_end (fuel : nat) (tex : str) (open_tabulars : Z)
      (pos : nat) (me : rmatch) :
  pos < length tex ->
  search end_tabular (skipn pos tex) 0 = Some me ->
  (forall mb, search begin_tabular (skipn pos tex) 0 = Some mb ->
              m_start me < m_start mb) ->
  has_nested_loop (S fuel) tex open_tabulars pos =
    has_nested_loop fuel tex (open_tabulars - 1)%Z (pos + m_start me + 13).
Proof.
  intros Hpos He Hb. cbn [has_nested_loop].
  apply Nat.ltb_lt in Hpos. rewrite Hpos. unfold slice_from.
  rewrite He. cbn [option_map].
  change (length (lit "\end{tabular}")) with 13.
  destruct (search begin_tabular (skipn pos tex) 0) as [mb|]; cbn [option_map].
  - specialize (Hb mb eq_refl).
    replace (pos + m_start mb <? pos + m_start me) with false; [reflexivity|].
    symmetry. apply Nat.ltb_ge. lia.
  - reflexivity.
Qed.

Lemma nested_stop (fuel : nat) (tex : str) (open_tabulars : Z) (pos : nat) :
  free_of backslash (skipn pos tex) = true ->
  has_nested_loop fuel tex open_tabulars pos = Some false.
Proof.
  intros Hfree.
  assert (Hb : search begin_tabular (skipn pos tex) 0 = None)
    by (apply search_lit_absent; exact Hfree).
  assert (He : search end_tabular (skipn pos tex) 0 = None)
    by (apply search_lit_absent; exact Hfree).
  destruct fuel; cbn [has_nested_loop]; unfold slice_from; rewrite Hb, He;
    cbn [option_map]; destruct (pos <? length tex); reflexivity.
Qed.

(** X17.  A second [\begin{tabular}] with no [\end{tabular}] before it is
    reported as nesting, whatever follows. *)
Theorem nested_tabular_detected (p q r : str) :
  free_of backslash p = true -> free_of backslash q = true ->
  has_nested_tabulars
    (p ++ lit "\begin{tabular}" ++ q ++ lit "\begin{tabular}" ++ r) = true.
Proof.
  intros Hp Hq. unfold has_nested_tabulars.
  set (B := lit "\begin{tabular}").
  set (tex := p ++ B ++ q ++ B ++ r).
  assert (Hlen : length tex = S (S (length p + length q + length r + 28))).
  { unfold tex. rewrite !length_app. change (length B) with 15. lia. }
  rewrite Hlen.
  rewrite (@nested_step_begin _ tex 0%Z 0
             (MkMatch (length p) (length p + 15) B [])).
  - cbn [Z.add Z.ltb Z.compare Pos.compare Pos.compare_cont m_start].
    assert (Etex : tex = (p ++ B) ++ q ++ B ++ r)
      by (unfold tex; rewrite <- !app_assoc; reflexivity).
    assert (Hskip : skipn (0 + length p + 15) tex = q ++ B ++ r).
    { rewrite Etex.
      replace (0 + length p + 15) with (length (p ++ B))
        by (rewrite length_app; change (length B) with 15; lia).
      apply skipn_exact. }
    rewrite (@nested_step_begin _ tex 1%Z (0 + length p + 15)
               (MkMatch (length q) (length q + 15) B [])).
    + reflexivity.
    + lia.
    + rewrite Hskip. apply (@search_lit_first (lit "begin{tabular}") q r Hq).
    + rewrite Hskip. intros me Hme. cbn [m_start].
      apply (@search_lit_after (lit "end{tabular}") q
               (lit "begin{tabular}" ++ r) me Hq eq_refl Hme).
  - lia.
  - cbn [skipn]. apply (@search_lit_first (lit "begin{tabular}") p _ Hp).
  - cbn [skipn]. intros me Hme. cbn [m_start].
    apply (@search_lit_after (lit "end{tabular}") p
             (lit "begin{tabular}" ++ q ++ B ++ r) me Hp eq_refl Hme).
Qed.

Lemma nested_tabular_detected_witness :
  has_nested_tabulars
    (lit "{ll} a & " ++ lit "\begin{tabular}" ++ lit "{c} b " ++
     lit "\begin{tabular}" ++ lit "{c} x \end{tabular} \end{tabular}") = true.
Proof. apply nested_tabular_detected; reflexivity. Defined.

(** Tabulars one after the other: before, inside and after each, a text
    without backslash. *)
Fixpoint tabular_sequence (blocks : list (str * str)) (r : str) : str :=
  match blocks with
  | [] => r
  | (p, q) :: blocks' =>
      p ++ lit "\begin{tabular}" ++ q ++ lit "\end{tabular}" ++
      tabular_sequence blocks' r
  end.

Definition plain_blocks (blocks : list (str * str)) : Prop :=
  forall p q, In (p, q) blocks ->
              free_of backslash p = true /\ free_of backslash q = true.

Lemma tabular_sequence_loop (r : str) :
  free_of backslash r = true ->
  forall blocks, plain_blocks blocks ->
  forall pre fuel, 2 * length blocks <= fuel ->
    has_nested_loop fuel (pre ++ tabular_sequence blocks r) 0%Z (length pre) =
      Some false.
Proof.
  intros Hr. induction blocks as [|[p q] blocks IH]; intros Hb pre fuel Hfuel.
  - apply nested_stop. cbn [tabular_sequence]. rewrite skipn_exact. exact Hr.
  - destruct (Hb p q (or_introl eq_refl)) as [Hp Hq].
    assert (Hb' : plain_blocks blocks).
    { intros p' q' Hin. apply Hb. right. exact Hin. }
    cbn [length] in Hfuel.
    destruct fuel as [|[|fuel]]; [lia | lia |].
    cbn [tabular_sequence].
    set (B := lit "\begin{tabular}"). set (E := lit "\end{tabular}").
    set (rest := tabular_sequence blocks r).
    set (tex := pre ++ p ++ B ++ q ++ E ++ rest).
    assert (Hlen : length tex =
                   length pre + length p + 15 + length q + 13 + length rest).
    { unfold tex. rewrite !length_app.
      change (length B) with 15. change (length E) with 13. lia. }
    rewrite (@nested_step_begin _ tex 0%Z (length pre)
               (MkMatch (length p) (length p + 15) B [])).
    + cbn [Z.add Z.ltb Z.compare Pos.compare Pos.compare_cont m_start].
      assert (Etex : tex = (pre ++ p ++ B) ++ q ++ E ++ rest)
        by (unfold tex; rewrite <- !app_assoc; reflexivity).
      assert (Hskip : skipn (length pre + length p + 15) tex = q ++ E ++ rest).
      { rewrite Etex.
        replace (length pre + length p + 15) with (length (pre ++ p ++ B))
          by (rewrite !length_app; change (length B) with 15; lia).
        apply skipn_exact. }
      rewrite (@nested_step_end _ tex 1%Z (length pre + length p + 15)
                 (MkMatch (length q) (length q + 13) E [])).
      * cbn [Z.sub Z.add Z.opp Z.pos_sub m_start].
        assert (Etex2 : tex = (pre ++ p ++ B ++ q ++ E) ++ rest)
          by (unfold tex; rewrite <- !app_assoc; reflexivity).
        replace (length pre + length p + 15 + length q + 13)
          with (length (pre ++ p ++ B ++ q ++ E))
          by (rewrite !length_app; change (length B) with 15;
              change (length E) with 13; lia).
        rewrite Etex2. apply IH; [exact Hb' | lia].
      * lia.
      * rewrite Hskip. apply (@search_lit_first (lit "end{tabular}") q rest Hq).
      * rewrite Hskip. intros mb Hmb. cbn [m_start].
        apply (@search_lit_after (lit "begin{tabular}") q
                 (lit "end{tabular}" ++ rest) mb Hq eq_refl Hmb).
    + lia.
    + unfold tex. rewrite skipn_exact.
      apply (@search_lit_first (lit "begin{tabular}") p _ Hp).
    + unfold tex. rewrite skipn_exact. intros me Hme. cbn [m_start].
      apply (@search_lit_after (lit "end{tabular}") p
               (lit "begin{tabular}" ++ q ++ E ++ rest) me Hp eq_refl Hme).
Qed.

Lemma tabular_sequence_length (blocks : list (str * str)) (r : str) :
  2 * length blocks <= length (tabular_sequence blocks r).
Proof.
  induction blocks as [|[p q] blocks IH]; cbn [tabular_sequence length]; [lia|].
  rewrite !length_app.
  change (length (lit "\begin{tabular}")) with 15.
  change (length (lit "\end{tabular}")) with 13. lia.
Qed.

(** X18.  Tabulars that follow one another, each closed before the next begins,
    are not reported as nested, however many there are. *)
Theorem sequential_tabulars_not_nested (blocks : list (str * str)) (r : str) :
  plain_blocks blocks -> free_of backslash r = true ->
  has_nested_tabulars (tabular_sequence blocks r) = false.
Proof.
  intros Hb Hr. unfold has_nested_tabulars.
  pose proof (@tabular_sequence_loop r Hr blocks Hb []
                (length (tabular_sequence blocks r))
                (tabular_sequence_length blocks r)) as H.
  cbn [app length] in H. rewrite H. reflexivity.
Qed.

Lemma sequential_tabulars_not_nested_witness :
  has_nested_tabulars
    (tabular_sequence [ (lit "A: ", lit "{ll} a & b "); (lit " B: ", lit "{c} x ") ]
                      (lit " end")) = false.
Proof.
  apply sequential_tabulars_not_nested; [|reflexivity].
  intros p q [H|[H|[]]]; injection H as <- <-; split; reflexivity.
Defined.

(** ** Texts made of chunks *)

(** No occurrence of [l] begins in [a], whatever follows [a]. *)
Definition nostart (l a : str) : Prop :=
  forall a1 a2 b, a = a1 ++ a2 -> a2 <> [] -> eat l (a2 ++ b) = None.

Lemma nostart_nil (l : str) : nostart l [].
Proof.
  intros a1 a2 b E Hne. symmetry in E. apply app_eq_nil in E. tauto.
Qed.

Lemma nostart_free (l a : str) :
  free_of backslash a = true -> nostart (backslash :: l) a.
Proof.
  intros Hf a1 a2 b -> Hne. apply free_of_suffix in Hf.
  destruct a2 as [|d a2]; [congruence|].
  unfold free_of in Hf. cbn [forallb] in Hf. apply andb_prop in Hf.
  destruct Hf as [Hd _]. cbn [app eat].
  destruct (N.eqb_spec backslash d) as [<-|]; [|reflexivity].
  rewrite N.eqb_refl in Hd. discriminate.
Qed.

Lemma nostart_app (l a a' : str) :
  nostart l a -> nostart l a' -> nostart l (a ++ a').
Proof.
  intros Ha Ha' a1 a2 b E Hne.
  revert a1 E. induction a as [|c a IH]; intros a1 E.
  - cbn [app] in E. apply (Ha' a1 a2 b E Hne).
  - destruct a1 as [|d a1]; cbn [app] in E.
    + subst a2.
      replace ((c :: a ++ a') ++ b) with ((c :: a) ++ a' ++ b)
        by (cbn [app]; rewrite <- app_assoc; reflexivity).
      apply (Ha [] (c :: a) (a' ++ b) eq_refl). discriminate.
    + injection E as _ E. apply (IH (fun x y z H => Ha (c :: x) y z
                                   (f_equal (cons c) H)) a1 E).
Qed.

(** A command that differs from [l]. *)
Lemma nostart_command (l t : str) :
  free_of backslash t = true ->
  (forall b, eat (backslash :: l) (backslash :: t ++ b) = None) ->
  nostart (backslash :: l) (backslash :: t).
Proof.
  intros Ht Hno a1 a2 b E Hne. destruct a1 as [|d a1]; cbn [app] in E.
  - subst a2. apply Hno.
  - injection E as _ E. apply (@nostart_free l t Ht a1 a2 b E Hne).
Qed.

Lemma nostart_flat_map {X : Type} (l : str) (f : X -> str) (xs : list X) :
  (forall x, In x xs -> nostart l (f x)) -> nostart l (flat_map f xs).
Proof.
  induction xs as [|x xs IH]; intros H; cbn [flat_map].
  - apply nostart_nil.
  - apply nostart_app; [apply H; left; reflexivity|].
    apply IH. intros y Hy. apply H. right. exact Hy.
Qed.

Lemma nostart_contains (l a : str) :
  l <> [] -> nostart l a -> contains l a = false.
Proof.
  intros Hl H. destruct (contains l a) eqn:E; [|reflexivity].
  exfalso. apply contains_substr in E. destruct E as (p & q & ->).
  destruct l as [|c l]; [congruence|].
  specialize (H p ((c :: l) ++ q) [] eq_refl).
  rewrite app_nil_r, eat_app in H. discriminate H. discriminate.
Qed.

(** No match of a pattern headed by [l] begins in a text where [l] does not
    begin. *)
Lemma nostart_skip (text : str) (r : regex) (l a s : str) :
  head_lit r = Some l -> nostart l a ->
  forall p1 p2, a = p1 ++ p2 -> p2 <> [] -> match_here text r (p2 ++ s) = None.
Proof.
  intros Hh Ha p1 p2 E Hne. apply (@head_lit_none text r l _ Hh).
  apply (Ha p1 p2 s E Hne).
Qed.

Lemma nostart_no_match (text : str) (r : regex) (l a : str) :
  head_lit r = Some l -> l <> [] -> nostart l a ->
  forall p1 p2, a = p1 ++ p2 -> match_here text r p2 = None.
Proof.
  intros Hh Hl Ha p1 p2 E. apply (@head_lit_none text r l _ Hh).
  destruct p2 as [|c p2].
  - destruct l; [congruence | reflexivity].
  - rewrite <- (app_nil_r (c :: p2)). apply (Ha p1 (c :: p2) [] E). discriminate.
Qed.

(** ** Splitting along the scan *)

Lemma split_from_gaps (text : str) (r : regex) (p s : str) :
  (forall p1 p2, p = p1 ++ p2 -> p2 <> [] -> match_here text r (p2 ++ s) = None) ->
  forall cur i,
    split_pieces cur (scan_go text r 0 i (p ++ s)) =
    split_pieces (rev p ++ cur) (scan_go text r 0 (i + length p) s).
Proof.
  induction p as [|c p IH]; intros H cur i.
  - cbn [app length rev]. rewrite Nat.add_0_r. reflexivity.
  - cbn [app length]. rewrite scan_go_gap
      by (apply (H [] (c :: p)); [reflexivity | discriminate]).
    cbn [split_pieces]. rewrite IH.
    + cbn [rev]. rewrite <- app_assoc. cbn [app].
      replace (S i + length p) with (i + S (length p)) by lia. reflexivity.
    + intros p1 p2 Hp Hne.
      apply (H (c :: p1) p2); [rewrite Hp; reflexivity | exact Hne].
Qed.

Lemma split_from_hit (text : str) (r : regex) (m rest : str) (g : caps)
      (cur : str) (i : nat) :
  m <> [] ->
  match_here text r (m ++ rest) = Some (g, rest) ->
  split_pieces cur (scan_go text r 0 i (m ++ rest)) =
    rev cur :: split_pieces [] (scan_go text r 0 (i + length m) rest).
Proof.
  intros Hm H. destruct m as [|c m]; [congruence|].
  cbn [app] in *. rewrite (@scan_go_hit text r i c m rest g H).
  reflexivity.
Qed.

Lemma split_from_end (text : str) (r : regex) (s : str) :
  (forall p1 p2, s = p1 ++ p2 -> match_here text r p2 = None) ->
  forall cur i,
    split_pieces cur (scan_go text r 0 i s) = [rev cur ++ s].
Proof.
  intros H cur i. rewrite <- (app_nil_r s) at 1.
  rewrite split_from_gaps.
  - rewrite scan_go_nil by (apply (H s []); symmetry; apply app_nil_r).
    cbn [split_pieces]. rewrite rev_app_distr, rev_involutive. reflexivity.
  - intros p1 p2 Hp _. rewrite app_nil_r. eauto.
Qed.

(** A text cut by separators: [split] returns the segments between them.
    No match may begin inside a segment, and each separator is matched in
    full wherever it stands. *)
Lemma split_segments (text : str) (r : regex) (l : str)
      (segs : list (str * str)) :
  head_lit r = Some l -> l <> [] ->
  (forall sep seg, In (sep, seg) segs ->
     sep <> [] /\ nostart l seg /\
     forall rest, exists g, match_here text r (sep ++ rest) = Some (g, rest)) ->
  forall seg0 cur i,
    nostart l seg0 ->
    split_pieces cur
      (scan_go text r 0 i
         (seg0 ++ flat_map (fun x => fst x ++ snd x) segs)) =
      (rev cur ++ seg0) :: map snd segs.
Proof.
  intros Hh Hl. induction segs as [|[sep seg] segs IH];
    intros Hsegs seg0 cur i Hseg0.
  - cbn [flat_map map]. rewrite app_nil_r. apply split_from_end.
    apply (@nostart_no_match text r l seg0 Hh Hl Hseg0).
  - destruct (Hsegs sep seg (or_introl eq_refl)) as (Hsep & Hseg & Hmatch).
    cbn [flat_map map fst snd].
    rewrite split_from_gaps
      by (apply (@nostart_skip text r l seg0 _ Hh Hseg0)).
    rewrite <- !app_assoc.
    destruct (Hmatch (seg ++ flat_map (fun x => fst x ++ snd x) segs))
      as (g & Hg).
    rewrite (@split_from_hit text r sep _ g _ _ Hsep Hg).
    rewrite rev_app_distr, rev_involutive. f_equal.
    rewrite IH; [reflexivity | | exact Hseg].
    intros sep' seg' Hin. apply Hsegs. right. exact Hin.
Qed.

(** ** Trimming *)

Lemma lstrip_blank (w s : str) :
  forallb isspace w = true -> lstrip (w ++ s) = lstrip s.
Proof. apply drop_while_app. Qed.

Lemma rstrip_blank (s w : str) :
  forallb isspace w = true -> rstrip (s ++ w) = rstrip s.
Proof.
  induction w as [|c w IH] using rev_ind; intros H.
  - rewrite app_nil_r. reflexivity.
  - rewrite forallb_app in H. apply andb_prop in H. destruct H as [Hw Hc].
    cbn [forallb] in Hc. apply andb_prop in Hc. destruct Hc as [Hc _].
    rewrite app_assoc, rstrip_snoc, Hc. apply IH. exact Hw.
Qed.

Lemma strip_blank (w : str) : forallb isspace w = true -> strip w = [].
Proof.
  intros H. unfold strip. rewrite <- (app_nil_r w), lstrip_blank by exact H.
  reflexivity.
Qed.

(** Whitespace around a text does not count. *)
Lemma strip_around (w1 s w2 : str) :
  forallb isspace w1 = true -> forallb isspace w2 = true ->
  strip (w1 ++ s ++ w2) = strip (s ++ w2) /\
  (trimmed s -> s <> [] -> strip (w1 ++ s ++ w2) = s).
Proof.
  intros H1 H2. unfold strip. rewrite lstrip_blank by exact H1.
  split; [reflexivity|]. intros Hs Hne.
  destruct Hs as [|c Hc|c d s Hc Hd]; [congruence | |].
  - cbn [app]. rewrite lstrip_fixed by exact Hc.
    change (c :: w2) with ([c] ++ w2). rewrite rstrip_blank by exact H2.
    change [c] with ([] ++ [c]). apply rstrip_fixed. exact Hc.
  - cbn [app]. rewrite lstrip_fixed by exact Hc.
    change (c :: (s ++ [d]) ++ w2) with ((c :: s ++ [d]) ++ w2).
    rewrite rstrip_blank by exact H2.
    change (c :: s ++ [d]) with ((c :: s) ++ [d]). apply rstrip_fixed.
    exact Hd.
Qed.

(** ** Lists *)

(** The body of a list environment: what stands before the first [\item],
    then the items. *)
Definition list_body (seg0 : str) (items : list str) : str :=
  seg0 ++ flat_map (fun it => lit "\item" ++ it) items.

Definition plain_items (items : list str) : Prop :=
  forall it, In it items ->
             free_of backslash it = true /\ nonempty (strip it) = true.

Lemma blank_free (w : str) :
  forallb isspace w = true -> free_of backslash w = true.
Proof.
  intros H. unfold free_of. rewrite forallb_forall in *. intros c Hc.
  specialize (H c Hc). destruct (N.eqb_spec c backslash) as [->|];
    [discriminate | reflexivity].
Qed.

Lemma nostart_list_body (l seg0 : str) (items : list str) :
  free_of backslash seg0 = true ->
  (forall it, In it items -> free_of backslash it = true) ->
  (forall b, eat (backslash :: l) (backslash :: lit "item" ++ b) = None) ->
  nostart (backslash :: l) (list_body seg0 items).
Proof.
  intros H0 Hitems Hno. unfold list_body.
  apply nostart_app; [apply nostart_free; exact H0|].
  apply nostart_flat_map. intros it Hin.
  apply nostart_app; [|apply nostart_free, Hitems, Hin].
  apply (@nostart_command l (lit "item") eq_refl Hno).
Qed.

Lemma split_items (seg0 : str) (items : list str) :
  free_of backslash seg0 = true ->
  (forall it, In it items -> free_of backslash it = true) ->
  split item_sep (list_body seg0 items) = seg0 :: items.
Proof.
  intros H0 Hitems. unfold split, scan, list_body.
  assert (E : flat_map (fun it => lit "\item" ++ it) items =
              flat_map (fun x : str * str => fst x ++ snd x)
                       (map (fun it => (lit "\item", it)) items)).
  { clear. induction items as [|it items IH]; [reflexivity|].
    cbn [flat_map map fst snd]. rewrite IH. reflexivity. }
  rewrite E.
  rewrite (@split_segments _ item_sep (lit "\item")
             (map (fun it => (lit "\item", it)) items) eq_refl).
  - cbn [rev app]. f_equal. rewrite map_map. cbn [snd]. apply map_id.
  - discriminate.
  - intros sep seg Hin. apply in_map_iff in Hin.
    destruct Hin as (it & Heq & Hin). injection Heq as <- <-.
    repeat split.
    + discriminate.
    + apply (@nostart_free (lit "item")). apply Hitems, Hin.
    + intros rest. exists []. unfold item_sep, L.
      rewrite match_here_lit, eat_app. reflexivity.
  - apply (@nostart_free (lit "item")). exact H0.
Qed.

Lemma filter_all {X : Type} (f : X -> bool) (xs : list X) :
  (forall x, In x xs -> f x = true) -> filter f xs = xs.
Proof.
  induction xs as [|x xs IH]; intros H; [reflexivity|].
  cbn [filter]. rewrite (H x (or_introl eq_refl)). f_equal.
  apply IH. intros y Hy. apply H. right. exact Hy.
Qed.

(** The items of a list body: the text before the first [\item] is blank
    and dropped; each item is trimmed. *)
Lemma list_items_body (seg0 : str) (items : list str) :
  forallb isspace seg0 = true -> plain_items items ->
  list_items (list_body seg0 items) = map strip items.
Proof.
  intros H0 Hitems. unfold list_items.
  rewrite split_items;
    [| apply blank_free; exact H0 | intros it Hin; apply Hitems, Hin].
  cbn [filter]. rewrite strip_blank by exact H0. cbn [nonempty].
  rewrite filter_all; [reflexivity|].
  intros it Hin. apply Hitems, Hin.
Qed.

Lemma list_body_no_option (seg0 : str) (items : list str) (e rest : str) :
  forallb isspace seg0 = true ->
  eat (lit "[") (list_body seg0 items ++ (backslash :: e) ++ rest) = None.
Proof.
  intros H0. unfold list_body.
  destruct seg0 as [|c seg0].
  - destruct items as [|it items]; reflexivity.
  - cbn [forallb] in H0. apply andb_prop in H0. destruct H0 as [Hc _].
    cbn [app]. change (lit "[") with [ch "["]. cbn [eat].
    destruct (N.eqb_spec (ch "[") c) as [<-|]; [discriminate | reflexivity].
Qed.

(** The match of a list environment at its beginning. *)
Lemma list_env_match (text B e body post : str) :
  eat (lit "[") (body ++ (backslash :: e) ++ post) = None ->
  nostart (backslash :: e) body ->
  match_here text
    (Lit B >> list_options >> Grp 2 (Lazy dotall) >> Lit (backslash :: e))%re
    (B ++ body ++ (backslash :: e) ++ post) = Some ([(2, body)], post).
Proof.
  intros Hopt Hbody. unfold match_here.
  rewrite mt_seq, mt_lit_app, mt_seq. unfold list_options. rewrite mt_opt.
  replace (mt text (Grp 1 (L "[" >> Star (not_c "]") >> L "]")) _ [] _)
    with (@None (caps * str))
    by (cbn [mt]; unfold L; cbn [mt]; rewrite Hopt; reflexivity).
  apply mt_grp_lazy.
  - apply forallb_dotall.
  - intros a1 a2 g' E Hne. apply mt_lit_none. apply (Hbody a1 a2 _ E Hne).
  - rewrite mt_lit_app. reflexivity.
Qed.

Lemma free_of_flat_map {X : Type} (c : char) (f : X -> str) (xs : list X) :
  (forall x, In x xs -> free_of c (f x) = true) ->
  free_of c (flat_map f xs) = true.
Proof.
  induction xs as [|x xs IH]; intros H; [reflexivity|].
  cbn [flat_map]. rewrite free_of_app, (H x (or_introl eq_refl)).
  apply IH. intros y Hy. apply H. right. exact Hy.
Qed.

(** X21.  An [itemize] environment in a text without other commands: each item
    is trimmed and written on a line of its own after a dash, between two
    blank lines. *)
Theorem itemize_in_text (pre seg0 : str) (items : list str) (post : str) :
  free_of backslash pre = true -> forallb isspace seg0 = true ->
  plain_items items -> free_of backslash post = true ->
  replace_lists
    (pre ++ lit "\begin{itemize}" ++ list_body seg0 items ++
     lit "\end{itemize}" ++ post) =
    pre ++ [nl; nl] ++ flat_map (fun it => lit "- " ++ strip it ++ [nl]) items ++
    [nl] ++ post.
Proof.
  intros Hpre H0 Hitems Hpost.
  assert (Hfree0 : free_of backslash seg0 = true) by (apply blank_free, H0).
  assert (Hfree : forall it, In it items -> free_of backslash it = true)
    by (intros it Hin; apply Hitems, Hin).
  set (body := list_body seg0 items).
  set (m := lit "\begin{itemize}" ++ body ++ lit "\end{itemize}").
  assert (Em : lit "\begin{itemize}" ++ body ++ lit "\end{itemize}" ++ post
               = m ++ post).
  { unfold m. rewrite <- !app_assoc. reflexivity. }
  assert (Hout : free_of backslash
                   (pre ++ [nl; nl] ++
                    flat_map (fun it => lit "- " ++ strip it ++ [nl]) items ++
                    [nl] ++ post) = true).
  { rewrite !free_of_app, Hpre, Hpost.
    rewrite free_of_flat_map; [reflexivity|].
    intros it Hin. rewrite !free_of_app.
    rewrite (@strip_free backslash it (Hfree it Hin)). reflexivity. }
  unfold replace_lists.
  (* no enumerate environment *)
  assert (Henum : sub enum_env enum_repl
                    (pre ++ lit "\begin{itemize}" ++ body ++
                     lit "\end{itemize}" ++ post) =
                  pre ++ lit "\begin{itemize}" ++ body ++
                  lit "\end{itemize}" ++ post).
  { apply no_match_sub.
    apply (@nostart_no_match _ enum_env (lit "\begin{enumerate}") _ eq_refl).
    - discriminate.
    - apply (@nostart_app (lit "\begin{enumerate}"));
        [apply (@nostart_free (lit "begin{enumerate}")); exact Hpre|].
      apply (@nostart_app (lit "\begin{enumerate}"));
        [apply (@nostart_command (lit "begin{enumerate}") (lit "begin{itemize}")
                  eq_refl); intros b; reflexivity|].
      apply (@nostart_app (lit "\begin{enumerate}"));
        [apply (@nostart_list_body (lit "begin{enumerate}") seg0 items Hfree0
                  Hfree); intros b; reflexivity|].
      apply (@nostart_app (lit "\begin{enumerate}"));
        [apply (@nostart_command (lit "begin{enumerate}") (lit "end{itemize}")
                  eq_refl); intros b; reflexivity|].
      apply (@nostart_free (lit "begin{enumerate}")). exact Hpost. }
  rewrite Henum, Em.
  rewrite (@sub_one_match item_env item_repl pre m post [(2, body)]).
  - unfold item_repl.
    change (group_str 2 (MkMatch _ _ m [(2, body)])) with body.
    unfold body. rewrite (@list_items_body seg0 items H0 Hitems).
    assert (Elines :
      flat_map (fun it => lit "- " ++ apply_inline_formats it ++ [nl])
               (map strip items) =
      flat_map (fun it => lit "- " ++ strip it ++ [nl]) items).
    { clear - Hfree. induction items as [|it items IH]; [reflexivity|].
      cbn [map flat_map].
      rewrite (@plain_inline_formats (strip it)
                 (@strip_free backslash it (Hfree it (or_introl eq_refl)))).
      rewrite IH; [reflexivity|]. intros y Hy. apply Hfree. right. exact Hy. }
    rewrite Elines, <- !app_assoc.
    apply (@plain_sub _ Hout stray_item _ eq_refl).
  - apply (@free_head_skip _ item_env pre _ eq_refl Hpre).
  - discriminate.
  - rewrite <- Em. unfold item_env, L.
    apply (@list_env_match _ (lit "\begin{itemize}") (lit "end{itemize}")
             body post).
    + apply list_body_no_option. exact H0.
    + apply (@nostart_list_body (lit "end{itemize}") seg0 items Hfree0 Hfree).
      intros b. reflexivity.
  - apply (@free_no_match _ item_env backslash post eq_refl Hpost).
Qed.

Lemma itemize_in_text_witness :
  replace_lists
    (lit "Goals:" ++ lit "\begin{itemize}" ++
     list_body [nl] [lit " first one " ++ [nl]; lit " second" ++ [nl]] ++
     lit "\end{itemize}" ++ lit "Done.") =
    lit "Goals:" ++ [nl; nl] ++
    flat_map (fun it => lit "- " ++ strip it ++ [nl])
             [lit " first one " ++ [nl]; lit " second" ++ [nl]] ++
    [nl] ++ lit "Done.".
Proof.
  apply itemize_in_text; try reflexivity.
  intros it [H|[H|[]]]; subst it; split; reflexivity.
Defined.

(** The lines of a numbered list. *)
Fixpoint numbered (idx : nat) (items : list str) : str :=
  match items with
  | [] => []
  | it :: items' =>
      str_of_nat idx ++ lit ". " ++ it ++ [nl] ++ numbered (S idx) items'
  end.

Lemma uint_free (u : Decimal.uint) :
  free_of backslash (lit (DecimalString.NilEmpty.string_of_uint u)) = true.
Proof. induction u; cbn; auto. Qed.

Lemma str_of_nat_free (n : nat) : free_of backslash (str_of_nat n) = true.
Proof. apply uint_free. Qed.

Lemma numbered_free (items : list str) :
  (forall it, In it items -> free_of backslash it = true) ->
  forall idx, free_of backslash (numbered idx items) = true.
Proof.
  induction items as [|it items IH]; intros H idx; [reflexivity|].
  cbn [numbered]. rewrite !free_of_app, str_of_nat_free.
  rewrite (H it (or_introl eq_refl)).
  rewrite IH; [reflexivity|]. intros y Hy. apply H. right. exact Hy.
Qed.

Lemma enum_lines_plain (items : list str) :
  (forall it, In it items -> free_of backslash it = true) ->
  forall idx, enum_lines idx items = numbered idx items.
Proof.
  induction items as [|it items IH]; intros H idx; [reflexivity|].
  cbn [enum_lines numbered].
  rewrite (@plain_inline_formats it (H it (or_introl eq_refl))).
  rewrite IH; [reflexivity|]. intros y Hy. apply H. right. exact Hy.
Qed.

(** X22.  An [enumerate] environment in a text without other commands: the items
    are trimmed and numbered from 1, one on each line, between two blank
    lines. *)
Theorem enumerate_in_text (pre seg0 : str) (items : list str) (post : str) :
  free_of backslash pre = true -> forallb isspace seg0 = true ->
  plain_items items -> free_of backslash post = true ->
  replace_lists
    (pre ++ lit "\begin{enumerate}" ++ list_body seg0 items ++
     lit "\end{enumerate}" ++ post) =
    pre ++ [nl; nl] ++ numbered 1 (map strip items) ++ [nl] ++ post.
Proof.
  intros Hpre H0 Hitems Hpost.
  assert (Hfree0 : free_of backslash seg0 = true) by (apply blank_free, H0).
  assert (Hfree : forall it, In it items -> free_of backslash it = true)
    by (intros it Hin; apply Hitems, Hin).
  assert (Hstrip : forall it, In it (map strip items) ->
                              free_of backslash it = true).
  { intros it Hin. apply in_map_iff in Hin. destruct Hin as (x & <- & Hx).
    apply strip_free, Hfree, Hx. }
  set (body := list_body seg0 items).
  set (m := lit "\begin{enumerate}" ++ body ++ lit "\end{enumerate}").
  assert (Em : lit "\begin{enumerate}" ++ body ++ lit "\end{enumerate}" ++ post
               = m ++ post).
  { unfold m. rewrite <- !app_assoc. reflexivity. }
  assert (Hout : free_of backslash
                   (pre ++ [nl; nl] ++ numbered 1 (map strip items) ++
                    [nl] ++ post) = true).
  { rewrite !free_of_app, Hpre, Hpost, (numbered_free _ Hstrip). reflexivity. }
  unfold replace_lists. rewrite Em.
  rewrite (@sub_one_match enum_env enum_repl pre m post [(2, body)]).
  - unfold enum_repl.
    change (group_str 2 (MkMatch _ _ m [(2, body)])) with body.
    unfold body. rewrite (@list_items_body seg0 items H0 Hitems).
    rewrite (enum_lines_plain _ Hstrip), <- !app_assoc.
    rewrite (@plain_sub _ Hout item_env _ eq_refl).
    apply (@plain_sub _ Hout stray_item _ eq_refl).
  - apply (@free_head_skip _ enum_env pre _ eq_refl Hpre).
  - discriminate.
  - rewrite <- Em. unfold enum_env, L.
    apply (@list_env_match _ (lit "\begin{enumerate}") (lit "end{enumerate}")
             body post).
    + apply list_body_no_option. exact H0.
    + apply (@nostart_list_body (lit "end{enumerate}") seg0 items Hfree0 Hfree).
      intros b. reflexivity.
  - apply (@free_no_match _ enum_env backslash post eq_refl Hpost).
Qed.

Lemma enumerate_in_text_witness :
  replace_lists
    (lit "Steps:" ++ lit "\begin{enumerate}" ++
     list_body [nl] [lit " mix " ++ [nl]; lit " bake" ++ [nl]] ++
     lit "\end{enumerate}" ++ lit "Done.") =
    lit "Steps:" ++ [nl; nl] ++
    numbered 1 (map strip [lit " mix " ++ [nl]; lit " bake" ++ [nl]]) ++
    [nl] ++ lit "Done.".
Proof.
  apply enumerate_in_text; try reflexivity.
  intros it [H|[H|[]]]; subst it; split; reflexivity.
Defined.

(** ** The title block *)

(** [split_segments] for a pattern without a literal head: no match begins
    in a segment, whatever follows it. *)
Definition quiet (text : str) (r : regex) (seg : str) : Prop :=
  forall a1 a2 b, seg = a1 ++ a2 -> a2 <> [] ->
                  match_here text r (a2 ++ b) = None.

Lemma split_quiet_segments (text : str) (r : regex) (segs : list (str * str)) :
  match_here text r [] = None ->
  (forall sep seg, In (sep, seg) segs ->
     sep <> [] /\ quiet text r seg /\
     forall rest, exists g, match_here text r (sep ++ rest) = Some (g, rest)) ->
  forall seg0 cur i,
    quiet text r seg0 ->
    split_pieces cur
      (scan_go text r 0 i
         (seg0 ++ flat_map (fun x => fst x ++ snd x) segs)) =
      (rev cur ++ seg0) :: map snd segs.
Proof.
  intros Hnil. induction segs as [|[sep seg] segs IH];
    intros Hsegs seg0 cur i Hseg0.
  - cbn [flat_map map]. rewrite app_nil_r. apply split_from_end.
    intros p1 p2 E. destruct p2 as [|c p2]; [exact Hnil|].
    rewrite <- (app_nil_r (c :: p2)). apply (Hseg0 p1 (c :: p2) [] E).
    discriminate.
  - destruct (Hsegs sep seg (or_introl eq_refl)) as (Hsep & Hseg & Hmatch).
    cbn [flat_map map fst snd].
    rewrite split_from_gaps by (intros p1 p2 E Hne; apply (Hseg0 p1 p2 _ E Hne)).
    rewrite <- !app_assoc.
    destruct (Hmatch (seg ++ flat_map (fun x => fst x ++ snd x) segs))
      as (g & Hg).
    rewrite (@split_from_hit text r sep _ g _ _ Hsep Hg).
    rewrite rev_app_distr, rev_involutive. f_equal.
    rewrite IH; [reflexivity | | exact Hseg].
    intros sep' seg' Hin. apply Hsegs. right. exact Hin.
Qed.

(** A character of a name: no backslash, no comma. *)
Definition name_char (c : char) : bool :=
  negb (N.eqb c backslash) && not_c "," c.

Lemma name_quiet (text name : str) :
  forallb name_char name = true -> quiet text and_or_comma name.
Proof.
  intros H a1 a2 b -> Hne. rewrite forallb_app in H. apply andb_prop in H.
  destruct H as [_ H]. destruct a2 as [|c a2]; [congruence|].
  cbn [forallb] in H. apply andb_prop in H. destruct H as [Hc _].
  unfold name_char, not_c in Hc. apply andb_prop in Hc. destruct Hc as [H1 H2].
  apply negb_true_iff in H1. apply negb_true_iff in H2.
  unfold match_here, and_or_comma, L. cbn [mt app].
  change (lit "\and") with (backslash :: lit "and").
  change (lit ",") with [ch ","]. cbn [eat].
  rewrite (N.eqb_sym backslash c), H1, (N.eqb_sym (ch ",") c), H2. reflexivity.
Qed.

Lemma name_free (name : str) :
  forallb name_char name = true -> free_of backslash name = true.
Proof.
  intros H. unfold free_of. rewrite forallb_forall in *. intros c Hc.
  specialize (H c Hc). unfold name_char in H. apply andb_prop in H. tauto.
Qed.

(** The author field: names with [\and] or a comma between them. *)
Definition author_field (name0 : str) (more : list (str * str)) : str :=
  name0 ++ flat_map (fun x => fst x ++ snd x) more.

Definition author_names (name0 : str) (more : list (str * str)) : Prop :=
  (forallb name_char name0 = true /\ nonempty (strip name0) = true) /\
  forall sep name, In (sep, name) more ->
    (sep = lit "\and" \/ sep = lit ",") /\
    forallb name_char name = true /\ nonempty (strip name) = true.

Lemma authors_clean_field (name0 : str) (more : list (str * str)) :
  author_names name0 more ->
  authors_clean (author_field name0 more) = map strip (name0 :: map snd more).
Proof.
  intros [[Hc0 Hn0] Hmore]. unfold authors_clean, split, scan, author_field.
  rewrite (@split_quiet_segments _ and_or_comma more).
  - cbn [rev app]. rewrite filter_all; [reflexivity|].
    intros x [<-|Hin]; [exact Hn0|].
    apply in_map_iff in Hin. destruct Hin as ([sep name] & <- & Hin).
    apply (Hmore sep name Hin).
  - reflexivity.
  - intros sep name Hin. destruct (Hmore sep name Hin) as (Hsep & Hc & _).
    repeat split.
    + destruct Hsep as [-> | ->]; discriminate.
    + apply name_quiet. exact Hc.
    + intros rest. exists []. unfold match_here, and_or_comma, L.
      rewrite mt_alt.
      destruct Hsep as [-> | ->].
      * rewrite mt_lit_app. reflexivity.
      * rewrite mt_lit_none by reflexivity. rewrite mt_lit_app. reflexivity.
  - apply name_quiet. exact Hc0.
Qed.

(** X3.  [replace_maketitle] at the one [\maketitle] of a text, with a title
    without commands and an author field of names separated by [\and] or
    commas: the title becomes a level-1 heading, the names are trimmed and
    joined with a comma and a space after [**Authors:**], and the text
    around is kept. *)
Theorem maketitle_in_text (pre post title name0 : str)
        (more : list (str * str)) :
  contains (lit "\maketitle") pre = false ->
  contains (lit "\maketitle") post = false ->
  title <> [] -> free_of backslash title = true ->
  author_names name0 more ->
  replace_maketitle (pre ++ lit "\maketitle" ++ post) title
                    (author_field name0 more) =
    pre ++ lit "# " ++ title ++ [nl; nl] ++ lit "**Authors:** " ++
    join (lit ", ") (map strip (name0 :: map snd more)) ++ [nl; nl] ++ post.
Proof.
  intros Hpre Hpost Htitle Hfree Hnames. unfold replace_maketitle.
  assert (Hne : nonempty title = true) by (destruct title; [congruence | reflexivity]).
  assert (Hauth : nonempty (author_field name0 more) = true).
  { destruct Hnames as [[_ Hn0] _]. unfold author_field.
    destruct name0 as [|c name0]; [discriminate | reflexivity]. }
  rewrite Hne, Hauth, (@plain_inline_formats title Hfree),
    (@authors_clean_field name0 more Hnames).
  rewrite (@sub_one_match maketitle_pattern _ pre (lit "\maketitle") post []).
  - cbn [app]. rewrite <- !app_assoc. reflexivity.
  - intros p1 p2 -> Hne2.
    apply (@head_lit_none _ maketitle_pattern (lit "\maketitle") _ eq_refl).
    apply (@lit_straddle backslash (lit "maketitle") p2 _ eq_refl Hne2).
    eapply contains_false_suffix; eauto.
  - discriminate.
  - unfold maketitle_pattern, L. rewrite match_here_lit, eat_app. reflexivity.
  - eapply absent_no_match; [reflexivity | exact Hpost].
Qed.

Lemma maketitle_in_text_witness :
  replace_maketitle (lit "top " ++ lit "\maketitle" ++ lit " text")
    (lit "On Braces")
    (author_field (lit "A. One ")
                  [(lit "\and", lit " B. Two"); (lit ",", lit " C. Three ")]) =
    lit "top " ++ lit "# " ++ lit "On Braces" ++ [nl; nl] ++
    lit "**Authors:** " ++
    join (lit ", ")
         (map strip (lit "A. One " ::
                     map snd [(lit "\and", lit " B. Two");
                              (lit ",", lit " C. Three ")])) ++
    [nl; nl] ++ lit " text".
Proof.
  apply maketitle_in_text; try reflexivity; try discriminate.
  split; [split; reflexivity|].
  intros sep name [H|[H|[]]]; injection H as <- <-; repeat split; auto.
Defined.

(** ** The abstract *)

(** One literal in a text: [sub] rewrites it. *)
Lemma sub_one_literal (c : char) (l : str) (repl : rmatch -> str)
      (pre post : str) :
  nostart (c :: l) pre -> nostart (c :: l) post ->
  sub (Lit (c :: l)) repl (pre ++ (c :: l) ++ post) =
    pre ++ repl (MkMatch (length pre) (length pre + length (c :: l))
                         (c :: l) []) ++ post.
Proof.
  intros Hpre Hpost. apply sub_one_match.
  - apply (@nostart_skip _ (Lit (c :: l)) (c :: l) pre _ eq_refl Hpre).
  - discriminate.
  - rewrite match_here_lit, eat_app. reflexivity.
  - apply (@nostart_no_match _ (Lit (c :: l)) (c :: l) post eq_refl);
      [discriminate | exact Hpost].
Qed.

(** [preprocess_abstract] on a text with one abstract: the environment
    becomes a starred section and its end is dropped. *)
Lemma preprocess_abstract_one (pre body post : str) :
  free_of backslash pre = true -> free_of backslash body = true ->
  free_of backslash post = true ->
  preprocess_abstract
    (pre ++ lit "\begin{abstract}" ++ body ++ lit "\end{abstract}" ++ post) =
    pre ++ lit "\section*{Abstract}" ++ body ++ post.
Proof.
  intros Hpre Hbody Hpost. unfold preprocess_abstract, begin_abstract, L.
  rewrite (@sub_one_literal backslash (lit "begin{abstract}")).
  - unfold end_abstract, L.
    replace (pre ++ lit "\section*{Abstract}" ++ body ++
             lit "\end{abstract}" ++ post)
      with ((pre ++ lit "\section*{Abstract}" ++ body) ++
            lit "\end{abstract}" ++ post)
      by (rewrite <- !app_assoc; reflexivity).
    rewrite (@sub_one_literal backslash (lit "end{abstract}")).
    + cbn [app]. rewrite <- !app_assoc. reflexivity.
    + apply (@nostart_app (lit "\end{abstract}"));
        [apply (@nostart_free (lit "end{abstract}")); exact Hpre|].
      apply (@nostart_app (lit "\end{abstract}"));
        [apply (@nostart_command (lit "end{abstract}") (lit "section*{Abstract}")
                  eq_refl); intros b; reflexivity|].
      apply (@nostart_free (lit "end{abstract}")). exact Hbody.
    + apply (@nostart_free (lit "end{abstract}")). exact Hpost.
  - apply (@nostart_free (lit "begin{abstract}")). exact Hpre.
  - apply (@nostart_app (lit "\begin{abstract}"));
      [apply (@nostart_free (lit "begin{abstract}")); exact Hbody|].
    apply (@nostart_app (lit "\begin{abstract}"));
      [apply (@nostart_command (lit "begin{abstract}") (lit "end{abstract}")
                eq_refl); intros b; reflexivity|].
    apply (@nostart_free (lit "begin{abstract}")). exact Hpost.
Qed.

(** X11.  The abstract becomes a section: after [preprocess_abstract] and
    [replace_headings], an abstract environment in a text without other
    commands is a level-1 heading [# Abstract] followed by its body. *)
Theorem abstract_becomes_heading (pre body post : str) :
  free_of backslash pre = true -> free_of backslash body = true ->
  free_of backslash post = true ->
  replace_headings
    (preprocess_abstract
       (pre ++ lit "\begin{abstract}" ++ body ++ lit "\end{abstract}" ++ post)) =
    pre ++ [nl; nl] ++ lit "# Abstract" ++ [nl; nl] ++ body ++ post.
Proof.
  intros Hpre Hbody Hpost.
  rewrite (@preprocess_abstract_one pre body post Hpre Hbody Hpost).
  assert (Hrest : free_of backslash (body ++ post) = true)
    by (rewrite free_of_app, Hbody, Hpost; reflexivity).
  pose proof (@heading_rewritten pre (lit "section") (lit "*") (lit "Abstract")
                (body ++ post) 1) as H.
  change (pre ++ lit "\" ++ lit "section" ++ lit "*" ++ lit "{" ++
          lit "Abstract" ++ lit "}" ++ body ++ post)
    with (pre ++ lit "\section*{Abstract}" ++ body ++ post) in H.
  rewrite H; try reflexivity; try assumption.
  - left. reflexivity.
  - right. reflexivity.
Qed.

Lemma abstract_becomes_heading_witness :
  replace_headings
    (preprocess_abstract
       (lit "x " ++ lit "\begin{abstract}" ++ lit " We show. " ++
        lit "\end{abstract}" ++ lit " y")) =
    lit "x " ++ [nl; nl] ++ lit "# Abstract" ++ [nl; nl] ++ lit " We show. " ++
    lit " y".
Proof. apply abstract_becomes_heading; reflexivity. Defined.

(** ** Line folding in [remove_comments] *)

Lemma forallb_impl {X : Type} (p q : X -> bool) (l : list X) :
  (forall x, p x = true -> q x = true) ->
  forallb p l = true -> forallb q l = true.
Proof.
  intros H Hl. rewrite forallb_forall in *. intros x Hx. apply H, Hl, Hx.
Qed.

(** [sub] of one character by another. *)
Lemma sub_char_map (text : str) (c d : char) (s : str) :
  forall i,
    sub_from text (Lit [c]) (fun _ => [d]) i s =
    map (fun x => if N.eqb c x then d else x) s.
Proof.
  induction s as [|x s IH]; intros i.
  - apply sub_from_nil. reflexivity.
  - cbn [map]. destruct (N.eqb c x) eqn:E.
    + apply N.eqb_eq in E. subst x.
      change (c :: s) with ([c] ++ s).
      rewrite (@sub_from_hit text (Lit [c]) _ i [c] s []).
      * cbn [app]. f_equal. apply IH.
      * discriminate.
      * rewrite match_here_lit. cbn [eat app]. rewrite N.eqb_refl. reflexivity.
    + rewrite sub_from_gap.
      * f_equal. apply IH.
      * rewrite match_here_lit. cbn [eat]. rewrite E. reflexivity.
Qed.

Lemma map_fixed {X : Type} (f : X -> X) (l : list X) :
  (forall x, In x l -> f x = x) -> map f l = l.
Proof.
  induction l as [|x l IH]; intros H; [reflexivity|].
  cbn [map]. rewrite (H x (or_introl eq_refl)). f_equal.
  apply IH. intros y Hy. apply H. right. exact Hy.
Qed.

(** No two newlines in a row. *)
Lemma no_pair_before (a s : str) :
  forallb (fun c => negb (N.eqb nl c)) a = true ->
  contains [nl; nl] s = false -> contains [nl; nl] (a ++ s) = false.
Proof.
  induction a as [|c a IH]; intros Ha Hs; [exact Hs|].
  cbn [forallb] in Ha. apply andb_prop in Ha. destruct Ha as [Hc Ha].
  apply negb_true_iff in Hc.
  cbn [app contains eat]. rewrite Hc. apply IH; assumption.
Qed.

Lemma no_pair_after (ws : str) (d : char) (b : str) :
  N.eqb nl d = false ->
  contains [nl; nl] ws = false -> contains [nl; nl] (d :: b) = false ->
  contains [nl; nl] (ws ++ d :: b) = false.
Proof.
  intros Hd. induction ws as [|c ws IH]; intros Hws Hb; [exact Hb|].
  cbn [contains eat] in Hws. cbn [app contains eat].
  destruct (N.eqb nl c) eqn:Ec.
  - destruct ws as [|c' ws].
    + cbn [app]. rewrite Hd. apply Hb.
    + cbn [app]. destruct (N.eqb nl c') eqn:Ec'; [discriminate|].
      apply IH; assumption.
  - apply IH; assumption.
Qed.

Lemma no_pair_short_runs (s : str) :
  contains [nl; nl] s = false -> short_runs nl 3 s.
Proof.
  intros H p1 p2 ->. apply contains_false_suffix in H.
  apply contains_false_eat in H.
  destruct p2 as [|x [|y p2]]; cbn [take_while].
  - cbn [length]. lia.
  - destruct (N.eqb nl x); cbn [length]; lia.
  - cbn [eat] in H. destruct (N.eqb nl x); [|cbn [length]; lia].
    destruct (N.eqb nl y); [discriminate | cbn [length]; lia].
Qed.

(** A character of a gap between two words: whitespace, no carriage
    return. *)
Definition gap_char (c : char) : bool := isspace c && negb (N.eqb c cr).

Lemma gap_isspace (ws : str) :
  forallb gap_char ws = true -> forallb isspace ws = true.
Proof.
  apply forallb_impl. intros c H. unfold gap_char in H.
  apply andb_prop in H. tauto.
Qed.

Lemma word_not_space (c : char) : word_char c = true -> isspace c = false.
Proof.
  unfold word_char. intros H. apply andb_prop in H. destruct H as [H _].
  apply andb_prop in H. destruct H as [H _]. apply negb_true_iff. exact H.
Qed.

(** A text of words and gaps. *)
Definition plain_char (c : char) : bool := word_char c || gap_char c.

Lemma plain_text (a ws b : str) :
  forallb word_char a = true -> forallb gap_char ws = true ->
  forallb word_char b = true -> forallb plain_char (a ++ ws ++ b) = true.
Proof.
  intros Ha Hws Hb. rewrite !forallb_app.
  rewrite (@forallb_impl _ word_char plain_char a), 
    (@forallb_impl _ gap_char plain_char ws),
    (@forallb_impl _ word_char plain_char b); auto;
    intros c Hc; unfold plain_char; rewrite Hc; auto using orb_true_r.
Qed.

(** A text of words and gaps holds no comment and no carriage return. *)
Lemma plain_no_percent (t : str) :
  forallb plain_char t = true -> sub comment_pattern (fun _ => []) t = t.
Proof.
  intros Ht. rewrite sub_sub_from.
  apply sub_id_heads with (ok := plain_char);
    [apply comment_pattern_none; reflexivity | | exact Ht].
  intros c s' Hc. apply comment_pattern_none.
  change (lit "%") with [ch "%"]. cbn [eat].
  destruct (N.eqb_spec (ch "%") c) as [<-|]; [discriminate | reflexivity].
Qed.

Lemma plain_no_cr (t : str) :
  forallb plain_char t = true -> sub (Lit [cr; nl]) (fun _ => [nl]) t = t.
Proof.
  intros Ht. rewrite sub_sub_from.
  apply sub_id_heads with (ok := plain_char); [reflexivity | | exact Ht].
  intros c s' Hc. rewrite match_here_lit. cbn [eat].
  destruct (N.eqb_spec cr c) as [<-|]; [discriminate | reflexivity].
Qed.

Lemma plain_no_comment (t : str) :
  forallb plain_char t = true ->
  sub (Lit [cr; nl]) (fun _ => [nl])
      (sub comment_pattern (fun _ => []) t) = t.
Proof.
  intros Ht. rewrite (@plain_no_percent t Ht). apply plain_no_cr. exact Ht.
Qed.

Lemma word_head (b : str) :
  forallb word_char b = true -> b <> [] ->
  exists d t, b = d :: t /\ word_char d = true.
Proof.
  intros Hb Hne. destruct b as [|d t]; [congruence|].
  cbn [forallb] in Hb. apply andb_prop in Hb. destruct Hb as [Hd _]. eauto.
Qed.

Lemma word_no_nl (s : str) :
  forallb word_char s = true ->
  forallb (fun c => negb (N.eqb nl c)) s = true.
Proof.
  apply forallb_impl. intros c Hc. apply word_not_space in Hc.
  destruct (N.eqb_spec nl c) as [<-|]; [discriminate | reflexivity].
Qed.

(** A run of whitespace between two words is matched whole by [\s+]. *)
Lemma gap_match (text ws b : str) :
  ws <> [] -> forallb isspace ws = true ->
  forallb word_char b = true ->
  match_here text (Plus isspace) (ws ++ b) = Some ([], b).
Proof.
  intros Hne Hws Hb.
  change (Plus isspace) with (AtLeast 1 isspace). rewrite atleast_match.
  rewrite take_while_app, drop_while_app by exact Hws.
  assert (Htb : take_while isspace b = [] /\ drop_while isspace b = b).
  { destruct b as [|d t]; [split; reflexivity|].
    cbn [forallb] in Hb. apply andb_prop in Hb. destruct Hb as [Hd _].
    apply word_not_space in Hd. cbn [take_while drop_while]. rewrite Hd.
    split; reflexivity. }
  destruct Htb as [-> ->]. rewrite app_nil_r.
  destruct ws; [congruence | reflexivity].
Qed.

Lemma words_trimmed (a mid b : str) :
  forallb word_char a = true -> a <> [] ->
  forallb word_char b = true -> b <> [] ->
  trimmed (a ++ mid ++ b).
Proof.
  intros Ha Hna Hb Hnb.
  destruct a as [|c a]; [congruence|].
  destruct b as [|d b _] using rev_ind; [congruence|].
  cbn [forallb] in Ha. apply andb_prop in Ha. destruct Ha as [Hc _].
  rewrite forallb_app in Hb. apply andb_prop in Hb. destruct Hb as [_ Hd].
  cbn [forallb] in Hd. apply andb_prop in Hd. destruct Hd as [Hd _].
  replace ((c :: a) ++ mid ++ b ++ [d]) with (c :: (a ++ mid ++ b) ++ [d])
    by (cbn [app]; rewrite <- !app_assoc; reflexivity).
  constructor; apply word_not_space; assumption.
Qed.

(** A text without [<] holds no sentinel. *)
Lemma no_sentinel (s : str) :
  forallb (not_c "<") s = true -> replace PARA_BREAK [nl; nl] s = s.
Proof.
  intros H. unfold replace. rewrite sub_sub_from.
  apply sub_id_heads with (ok := not_c "<"); [reflexivity | | exact H].
  intros c s' Hc. rewrite match_here_lit.
  unfold not_c in Hc. apply negb_true_iff in Hc.
  change PARA_BREAK with (ch "<" :: lit "<<PARA_BREAK>>>").
  cbn [eat]. rewrite N.eqb_sym, Hc. reflexivity.
Qed.

Lemma word_no_lt (s : str) :
  forallb word_char s = true -> forallb (not_c "<") s = true.
Proof.
  apply forallb_impl. intros c Hc. unfold word_char in Hc.
  apply andb_prop in Hc. tauto.
Qed.

(** What [remove_comments] does once the comments are gone, on two words
    with whitespace between them. *)
Lemma fold_after_comments (text a ws b : str) :
  forallb word_char a = true -> a <> [] ->
  forallb gap_char ws = true -> ws <> [] ->
  contains [nl; nl] ws = false ->
  forallb word_char b = true -> b <> [] ->
  sub comment_pattern (fun _ => []) text = a ++ ws ++ b ->
  remove_comments text = a ++ [sp] ++ b.
Proof.
  intros Ha Hna Hws Hnws Hpair Hb Hnb Hcomments.
  pose proof (@gap_isspace ws Hws) as Hsp.
  destruct (@word_head b Hb Hnb) as (d & t & Eb & Hd).
  assert (Hdnl : N.eqb nl d = false).
  { apply word_not_space in Hd.
    destruct (N.eqb_spec nl d) as [<-|]; [discriminate | reflexivity]. }
  assert (Hno : contains [nl; nl] (a ++ ws ++ b) = false).
  { apply no_pair_before; [apply word_no_nl; exact Ha|].
    rewrite Eb. apply no_pair_after; [exact Hdnl | exact Hpair |].
    rewrite <- Eb. rewrite <- (app_nil_r b).
    apply no_pair_before; [apply word_no_nl; exact Hb | reflexivity]. }
  unfold remove_comments. rewrite Hcomments.
  rewrite (@plain_no_cr _ (@plain_text a ws b Ha Hws Hb)).
  (* three or more newlines: none *)
  assert (H3 : sub (AtLeast 3 (N.eqb nl)) (fun _ => [nl; nl]) (a ++ ws ++ b)
               = a ++ ws ++ b).
  { rewrite sub_sub_from.
    apply (@collapse_fixed (a ++ ws ++ b) nl 3 2 (a ++ ws ++ b) 0).
    apply no_pair_short_runs. exact Hno. }
  rewrite H3.
  (* two newlines: none *)
  assert (H4 : replace [nl; nl] PARA_BREAK (a ++ ws ++ b) = a ++ ws ++ b).
  { unfold replace. apply no_match_sub. intros p1 p2 E.
    rewrite match_here_lit. rewrite E in Hno.
    apply contains_false_suffix in Hno. apply contains_false_eat in Hno.
    rewrite Hno. reflexivity. }
  rewrite H4.
  (* each newline becomes a space *)
  set (ws' := map (fun x => if N.eqb nl x then sp else x) ws).
  assert (H5 : sub (Lit [nl]) (fun _ => [sp]) (a ++ ws ++ b)
               = a ++ ws' ++ b).
  { rewrite sub_sub_from, sub_char_map, !map_app.
    rewrite (@map_fixed _ _ a), (@map_fixed _ _ b); [reflexivity | |].
    - intros x Hx. pose proof (@word_no_nl b Hb) as H.
      rewrite forallb_forall in H. specialize (H x Hx).
      apply negb_true_iff in H. rewrite H. reflexivity.
    - intros x Hx. pose proof (@word_no_nl a Ha) as H.
      rewrite forallb_forall in H. specialize (H x Hx).
      apply negb_true_iff in H. rewrite H. reflexivity. }
  rewrite H5.
  assert (Hws' : forallb isspace ws' = true).
  { unfold ws'. rewrite forallb_forall in *. intros x Hx.
    apply in_map_iff in Hx. destruct Hx as (y & <- & Hy).
    destruct (N.eqb nl y); [reflexivity | apply Hsp, Hy]. }
  assert (Hnws' : ws' <> []) by (unfold ws'; destruct ws; [congruence | discriminate]).
  (* the run of whitespace becomes one space *)
  assert (H6 : sub (Plus isspace) (fun _ => [sp]) (a ++ ws' ++ b)
               = a ++ [sp] ++ b).
  { rewrite (@sub_one_match (Plus isspace) _ a ws' b []).
    - reflexivity.
    - intros p1 p2 -> Hne. rewrite forallb_app in Ha. apply andb_prop in Ha.
      destruct Ha as [_ Ha]. destruct p2 as [|x p2]; [congruence|].
      cbn [forallb] in Ha. apply andb_prop in Ha. destruct Ha as [Hx _].
      cbn [app]. apply cls_head_none. apply word_not_space. exact Hx.
    - exact Hnws'.
    - apply gap_match; assumption.
    - intros p1 p2 ->. rewrite forallb_app in Hb. apply andb_prop in Hb.
      destruct Hb as [_ Hb]. destruct p2 as [|x p2]; [apply cls_nil_none|].
      cbn [forallb] in Hb. apply andb_prop in Hb. destruct Hb as [Hx _].
      apply cls_head_none. apply word_not_space. exact Hx. }
  rewrite H6.
  rewrite (@trimmed_strip _ (@words_trimmed a [sp] b Ha Hna Hb Hnb)).
  apply no_sentinel. rewrite !forallb_app.
  rewrite (@word_no_lt a Ha), (@word_no_lt b Hb). reflexivity.
Qed.

(** X12.  Whitespace between two words, without carriage return and without two
    newlines in a row, is folded into one space: a line break, with the
    blanks around it, joins the two lines; so does a blank line that holds a
    space or a tab. *)
Theorem line_break_folded (a ws b : str) :
  forallb word_char a = true -> a <> [] ->
  forallb gap_char ws = true -> ws <> [] ->
  contains [nl; nl] ws = false ->
  forallb word_char b = true -> b <> [] ->
  remove_comments (a ++ ws ++ b) = a ++ [sp] ++ b.
Proof.
  intros Ha Hna Hws Hnws Hpair Hb Hnb.
  apply (@fold_after_comments _ a ws b); try assumption.
  apply plain_no_percent, plain_text; assumption.
Qed.

Lemma line_break_folded_witness :
  remove_comments (lit "first" ++ [sp; nl; tab; nl; sp] ++ lit "second") =
    lit "first" ++ [sp] ++ lit "second".
Proof. apply line_break_folded; try reflexivity; discriminate. Defined.

Lemma word_not_nl_head (text : str) (r : regex) (a s : str) :
  (forall c s', isspace c = false -> match_here text r (c :: s') = None) ->
  forallb word_char a = true ->
  forall p1 p2, a = p1 ++ p2 -> p2 <> [] -> match_here text r (p2 ++ s) = None.
Proof.
  intros Hr Ha p1 p2 -> Hne. rewrite forallb_app in Ha. apply andb_prop in Ha.
  destruct Ha as [_ Ha]. destruct p2 as [|x p2]; [congruence|].
  cbn [forallb] in Ha. apply andb_prop in Ha. destruct Ha as [Hx _].
  cbn [app]. apply Hr. apply word_not_space. exact Hx.
Qed.

Lemma word_no_match (text : str) (r : regex) (b : str) :
  match_here text r [] = None ->
  (forall c s', isspace c = false -> match_here text r (c :: s') = None) ->
  forallb word_char b = true ->
  forall p1 p2, b = p1 ++ p2 -> match_here text r p2 = None.
Proof.
  intros Hnil Hr Hb p1 p2 E. destruct p2 as [|x p2]; [exact Hnil|].
  rewrite <- (app_nil_r (x :: p2)).
  apply (@word_not_nl_head text r b [] Hr Hb p1 (x :: p2) E). discriminate.
Qed.

Lemma not_space_not_nl (c : char) : isspace c = false -> N.eqb nl c = false.
Proof.
  intros H. destruct (N.eqb_spec nl c) as [<-|]; [discriminate | reflexivity].
Qed.

(** Newlines between two words: two stay two, more become two. *)
Lemma newlines_collapsed (a b : str) (n : nat) :
  forallb word_char a = true -> forallb word_char b = true ->
  sub (AtLeast 3 (N.eqb nl)) (fun _ => [nl; nl]) (a ++ repeat nl (2 + n) ++ b) =
    a ++ [nl; nl] ++ b.
Proof.
  intros Ha Hb.
  assert (Hhead : forall text c s', isspace c = false ->
            match_here text (AtLeast 3 (N.eqb nl)) (c :: s') = None).
  { intros text c s' Hc. apply cls_head_none. apply not_space_not_nl, Hc. }
  assert (Htb : take_while (N.eqb nl) b = [] /\ drop_while (N.eqb nl) b = b).
  { destruct b as [|d t]; [split; reflexivity|].
    cbn [forallb] in Hb. apply andb_prop in Hb. destruct Hb as [Hd _].
    apply word_not_space, not_space_not_nl in Hd.
    cbn [take_while drop_while]. rewrite Hd. split; reflexivity. }
  destruct Htb as [Etake Edrop].
  assert (Hrun : forall k, forallb (N.eqb nl) (repeat nl k) = true).
  { induction k; [reflexivity | exact IHk]. }
  destruct n as [|n].
  - (* two newlines: no match *)
    rewrite sub_sub_from. cbn [repeat Nat.add app].
    rewrite sub_from_gaps by (apply word_not_nl_head; [apply Hhead | exact Ha]).
    assert (H2 : match_here (a ++ nl :: nl :: b) (AtLeast 3 (N.eqb nl))
                   (nl :: nl :: b) = None).
    { rewrite atleast_match. cbn [take_while]. rewrite N.eqb_refl, Etake.
      reflexivity. }
    assert (H1 : match_here (a ++ nl :: nl :: b) (AtLeast 3 (N.eqb nl))
                   (nl :: b) = None).
    { rewrite atleast_match. cbn [take_while]. rewrite N.eqb_refl, Etake.
      reflexivity. }
    rewrite (@sub_from_gap _ _ _ _ _ _ H2), (@sub_from_gap _ _ _ _ _ _ H1).
    rewrite sub_from_id; [reflexivity|].
    apply word_no_match; [reflexivity | apply Hhead | exact Hb].
  - rewrite (@sub_one_match (AtLeast 3 (N.eqb nl)) _ a
               (repeat nl (2 + S n)) b []).
    + reflexivity.
    + apply word_not_nl_head; [apply Hhead | exact Ha].
    + discriminate.
    + rewrite atleast_match.
      rewrite take_while_app, drop_while_app by apply Hrun.
      rewrite Etake, Edrop, app_nil_r, repeat_length. reflexivity.
    + apply word_no_match; [reflexivity | apply Hhead | exact Hb].
Qed.

(** X13.  A blank line between two words is a paragraph break: two or more
    newlines in a row become exactly two. *)
Theorem paragraph_break_kept (a b : str) (n : nat) :
  forallb word_char a = true -> forallb word_char b = true ->
  remove_comments (a ++ repeat nl (2 + n) ++ b) = a ++ [nl; nl] ++ b.
Proof.
  intros Ha Hb. unfold remove_comments.
  assert (Hgap : forallb gap_char (repeat nl (2 + n)) = true).
  { induction n as [|n IH]; [reflexivity | exact IH]. }
  rewrite (@plain_no_comment _ (@plain_text a _ b Ha Hgap Hb)).
  rewrite (@newlines_collapsed a b n Ha Hb).
  (* the pair of newlines becomes the sentinel *)
  assert (H4 : replace [nl; nl] PARA_BREAK (a ++ [nl; nl] ++ b)
               = a ++ PARA_BREAK ++ b).
  { unfold replace.
    rewrite (@sub_one_match (Lit [nl; nl]) _ a [nl; nl] b []).
    - reflexivity.
    - apply word_not_nl_head; [|exact Ha].
      intros c s' Hc. rewrite match_here_lit. cbn [eat].
      rewrite (@not_space_not_nl c Hc). reflexivity.
    - discriminate.
    - reflexivity.
    - apply word_no_match; [reflexivity | | exact Hb].
      intros c s' Hc. rewrite match_here_lit. cbn [eat].
      rewrite (@not_space_not_nl c Hc). reflexivity. }
  rewrite H4.
  assert (Hsolid : forallb solid (a ++ PARA_BREAK ++ b) = true).
  { rewrite !forallb_app, (@word_solid a Ha), (@word_solid b Hb). reflexivity. }
  assert (H5 : sub (Lit [nl]) (fun _ => [sp]) (a ++ PARA_BREAK ++ b)
               = a ++ PARA_BREAK ++ b).
  { rewrite sub_sub_from.
    apply sub_id_heads with (ok := solid); [reflexivity | | exact Hsolid].
    intros c s' Hc. rewrite match_here_lit. cbn [eat].
    rewrite (@solid_not c nl Hc eq_refl). reflexivity. }
  assert (H6 : sub (Plus isspace) (fun _ => [sp]) (a ++ PARA_BREAK ++ b)
               = a ++ PARA_BREAK ++ b).
  { rewrite sub_sub_from.
    apply sub_id_heads with (ok := solid); [reflexivity | | exact Hsolid].
    intros c s' Hc. apply cls_head_none.
    unfold solid in Hc. apply andb_prop in Hc. destruct Hc as [Hc _].
    apply negb_true_iff in Hc. exact Hc. }
  rewrite H5, H6, (@trimmed_strip _ (@solid_trimmed _ Hsolid)).
  (* the sentinel becomes the paragraph break *)
  unfold replace.
  rewrite (@sub_one_match (Lit PARA_BREAK) _ a PARA_BREAK b []).
  - reflexivity.
  - intros p1 p2 -> Hne. pose proof (@word_no_lt _ Ha) as Hlt.
    rewrite forallb_app in Hlt. apply andb_prop in Hlt.
    destruct Hlt as [_ Hlt]. destruct p2 as [|x p2]; [congruence|].
    cbn [forallb] in Hlt. apply andb_prop in Hlt. destruct Hlt as [Hx _].
    unfold not_c in Hx. apply negb_true_iff in Hx.
    rewrite match_here_lit.
    change PARA_BREAK with (ch "<" :: lit "<<PARA_BREAK>>>").
    cbn [app eat]. rewrite N.eqb_sym, Hx. reflexivity.
  - discriminate.
  - rewrite match_here_lit, eat_app. reflexivity.
  - intros p1 p2 E.
    pose proof (@word_no_lt _ Hb) as Hlt. rewrite E in Hlt.
    rewrite forallb_app in Hlt. apply andb_prop in Hlt.
    destruct Hlt as [_ Hlt]. rewrite match_here_lit.
    destruct p2 as [|x p2]; [reflexivity|].
    cbn [forallb] in Hlt. apply andb_prop in Hlt. destruct Hlt as [Hx _].
    unfold not_c in Hx. apply negb_true_iff in Hx.
    change PARA_BREAK with (ch "<" :: lit "<<PARA_BREAK>>>").
    cbn [eat]. rewrite N.eqb_sym, Hx. reflexivity.
Qed.

Lemma paragraph_break_kept_witness :
  remove_comments (lit "first." ++ repeat nl (2 + 3) ++ lit "Second") =
    lit "first." ++ [nl; nl] ++ lit "Second".
Proof. apply paragraph_break_kept; reflexivity. Defined.

(** ** Comments *)

Lemma prev_char_after (p : str) (x : char) (s : str) :
  prev_char ((p ++ [x]) ++ s) s = Some x.
Proof.
  unfold prev_char. rewrite !length_app. cbn [length].
  replace (length s <? length p + 1 + length s) with true
    by (symmetry; apply Nat.ltb_lt; lia).
  replace (length p + 1 + length s - length s - 1) with (length p) by lia.
  rewrite <- app_assoc. rewrite nth_error_app2 by lia.
  rewrite Nat.sub_diag. reflexivity.
Qed.

(** A comment after a word: from the percent sign to the end of the line. *)
Lemma comment_match (p : str) (x : char) (c rest : str) :
  N.eqb x backslash = false -> forallb dot c = true ->
  match_here ((p ++ [x]) ++ (lit "%" ++ c) ++ nl :: rest) comment_pattern
             ((lit "%" ++ c) ++ nl :: rest) = Some ([], nl :: rest).
Proof.
  intros Hx Hc. unfold match_here, comment_pattern, L. cbn [mt].
  rewrite prev_char_after.
  change (ch "\") with backslash. rewrite Hx.
  rewrite <- app_assoc, eat_app.
  rewrite star_greedy_total by discriminate.
  rewrite drop_while_app by exact Hc.
  rewrite drop_while_stop by reflexivity. reflexivity.
Qed.

Lemma not_percent_none (text : str) (c : char) (s : str) :
  N.eqb (ch "%") c = false -> match_here text comment_pattern (c :: s) = None.
Proof.
  intros H. apply comment_pattern_none. change (lit "%") with [ch "%"].
  cbn [eat]. rewrite H. reflexivity.
Qed.

Lemma word_not_percent (c : char) :
  word_char c = true -> N.eqb (ch "%") c = false.
Proof.
  unfold word_char, not_c. intros H. apply andb_prop in H. destruct H as [H _].
  apply andb_prop in H. destruct H as [_ H]. apply negb_true_iff in H.
  rewrite N.eqb_sym. exact H.
Qed.

Lemma words_no_comment (text a s : str) :
  forallb word_char a = true ->
  forall p1 p2, a = p1 ++ p2 -> p2 <> [] ->
                match_here text comment_pattern (p2 ++ s) = None.
Proof.
  intros Ha p1 p2 -> Hne. rewrite forallb_app in Ha. apply andb_prop in Ha.
  destruct Ha as [_ Ha]. destruct p2 as [|y p2]; [congruence|].
  cbn [forallb] in Ha. apply andb_prop in Ha. destruct Ha as [Hy _].
  cbn [app]. apply not_percent_none, word_not_percent, Hy.
Qed.

Lemma words_no_comment_end (text b : str) :
  forallb word_char b = true ->
  forall p1 p2, b = p1 ++ p2 -> match_here text comment_pattern p2 = None.
Proof.
  intros Hb p1 p2 E. destruct p2 as [|y p2].
  - apply comment_pattern_none. reflexivity.
  - rewrite <- (app_nil_r (y :: p2)).
    apply (@words_no_comment text b [] Hb p1 (y :: p2) E). discriminate.
Qed.

(** X14.  A comment at the end of a line is removed, from the percent sign to the
    end of the line, and the line break is folded into a space: the word
    before the comment and the first word of the next line are joined by
    one space. *)
Theorem comment_removed (a c b : str) :
  forallb word_char a = true -> a <> [] -> last a nl <> backslash ->
  forallb dot c = true ->
  forallb word_char b = true -> b <> [] ->
  remove_comments (a ++ lit "%" ++ c ++ [nl] ++ b) = a ++ [sp] ++ b.
Proof.
  intros Ha Hna Hlast Hc Hb Hnb.
  apply (@fold_after_comments _ a [nl] b); try assumption; try reflexivity;
    try discriminate.
  destruct a as [|x p _] using rev_ind; [congruence|].
  rewrite last_last in Hlast. apply N.eqb_neq in Hlast.
  replace ((p ++ [x]) ++ lit "%" ++ c ++ [nl] ++ b)
    with ((p ++ [x]) ++ (lit "%" ++ c) ++ nl :: b)
    by (rewrite <- !app_assoc; reflexivity).
  rewrite (@sub_one_match comment_pattern _ (p ++ [x]) (lit "%" ++ c)
             (nl :: b) []).
  - reflexivity.
  - apply words_no_comment. exact Ha.
  - discriminate.
  - apply comment_match; assumption.
  - intros p1 p2 E. destruct p1 as [|y p1]; cbn [app] in E.
    + subst p2. apply not_percent_none. reflexivity.
    + injection E as _ E. apply (@words_no_comment_end _ b Hb p1 p2 E).
Qed.

Lemma comment_removed_witness :
  remove_comments (lit "kept" ++ lit "%" ++ lit " a note \textbf{x}" ++ [nl] ++
                   lit "next") = lit "kept" ++ [sp] ++ lit "next".
Proof. apply comment_removed; try reflexivity; discriminate. Defined.

(** No whitespace and no [<]. *)
Definition dense (c : char) : bool := negb (isspace c) && not_c "<" c.

Lemma dense_not_space (c d : char) :
  dense c = true -> isspace d = true -> N.eqb d c = false.
Proof.
  unfold dense. intros H Hd. apply andb_prop in H. destruct H as [H _].
  apply negb_true_iff in H. destruct (N.eqb_spec d c); congruence.
Qed.

Lemma dense_trimmed (s : str) : forallb dense s = true -> trimmed s.
Proof.
  intros H. destruct s as [|c s]; [constructor|].
  cbn [forallb] in H. apply andb_prop in H. destruct H as [Hc Hs].
  unfold dense in Hc. apply andb_prop in Hc. destruct Hc as [Hc _].
  apply negb_true_iff in Hc.
  destruct s as [|d s _] using rev_ind; [constructor; exact Hc|].
  rewrite forallb_app in Hs. apply andb_prop in Hs. destruct Hs as [_ Hd].
  cbn [forallb] in Hd. apply andb_prop in Hd. destruct Hd as [Hd _].
  unfold dense in Hd. apply andb_prop in Hd. destruct Hd as [Hd _].
  apply negb_true_iff in Hd. constructor; assumption.
Qed.

(** Once the comments are gone, a text without whitespace and without [<]
    stays as it is. *)
Lemma dense_after_comments (text u : str) :
  forallb dense u = true ->
  sub comment_pattern (fun _ => []) text = u ->
  remove_comments text = u.
Proof.
  intros Hu Hcomments. unfold remove_comments. rewrite Hcomments.
  assert (H2 : sub (Lit [cr; nl]) (fun _ => [nl]) u = u).
  { rewrite sub_sub_from.
    apply sub_id_heads with (ok := dense); [reflexivity | | exact Hu].
    intros c s' Hc. rewrite match_here_lit. cbn [eat].
    rewrite (@dense_not_space c cr Hc eq_refl). reflexivity. }
  assert (H3 : sub (AtLeast 3 (N.eqb nl)) (fun _ => [nl; nl]) u = u).
  { rewrite sub_sub_from.
    apply sub_id_heads with (ok := dense); [reflexivity | | exact Hu].
    intros c s' Hc. apply cls_head_none.
    apply (@dense_not_space c nl Hc eq_refl). }
  assert (H4 : replace [nl; nl] PARA_BREAK u = u).
  { unfold replace. rewrite sub_sub_from.
    apply sub_id_heads with (ok := dense); [reflexivity | | exact Hu].
    intros c s' Hc. rewrite match_here_lit. cbn [eat].
    rewrite (@dense_not_space c nl Hc eq_refl). reflexivity. }
  assert (H5 : sub (Lit [nl]) (fun _ => [sp]) u = u).
  { rewrite sub_sub_from.
    apply sub_id_heads with (ok := dense); [reflexivity | | exact Hu].
    intros c s' Hc. rewrite match_here_lit. cbn [eat].
    rewrite (@dense_not_space c nl Hc eq_refl). reflexivity. }
  assert (H6 : sub (Plus isspace) (fun _ => [sp]) u = u).
  { rewrite sub_sub_from.
    apply sub_id_heads with (ok := dense); [reflexivity | | exact Hu].
    intros c s' Hc. apply cls_head_none.
    unfold dense in Hc. apply andb_prop in Hc. destruct Hc as [Hc _].
    apply negb_true_iff in Hc. exact Hc. }
  rewrite H2, H3, H4, H5, H6, (@trimmed_strip _ (@dense_trimmed _ Hu)).
  apply no_sentinel. revert Hu. apply forallb_impl.
  intros c Hc. unfold dense in Hc. apply andb_prop in Hc. tauto.
Qed.

Lemma word_dense (s : str) :
  forallb word_char s = true -> forallb dense s = true.
Proof.
  apply forallb_impl. intros c Hc. unfold word_char in Hc. unfold dense.
  apply andb_prop in Hc. destruct Hc as [Hc H3].
  apply andb_prop in Hc. destruct Hc as [H1 _]. rewrite H1, H3. reflexivity.
Qed.

(** X15.  A percent sign after a backslash begins no comment: the escaped
    percent sign and the text after it are kept. *)
Theorem escaped_percent_kept (a b : str) :
  forallb word_char a = true -> forallb word_char b = true ->
  remove_comments (a ++ lit "\%" ++ b) = a ++ lit "\%" ++ b.
Proof.
  intros Ha Hb. apply dense_after_comments.
  - rewrite !forallb_app, (@word_dense a Ha), (@word_dense b Hb). reflexivity.
  - apply no_match_sub. intros p1 p2 E.
    assert (Hsuffix :
      (exists q, q <> [] /\ p2 = q ++ lit "\%" ++ b /\ exists q0, a = q0 ++ q) \/
      p2 = lit "\%" ++ b \/ p2 = lit "%" ++ b \/ exists q0, b = q0 ++ p2).
    { clear - E. revert p1 E. induction a as [|x a IH]; intros p1 E.
      - cbn [app] in E. destruct p1 as [|y1 p1]; cbn [app] in E.
        + right. left. symmetry. exact E.
        + injection E as _ E. destruct p1 as [|y2 p1]; cbn [app] in E.
          * right. right. left. symmetry. exact E.
          * injection E as _ E. right. right. right. eauto.
      - destruct p1 as [|y p1]; cbn [app] in E.
        + left. exists (x :: a). repeat split; [discriminate | | exists []; reflexivity].
          symmetry. exact E.
        + injection E as _ E. destruct (IH p1 E) as [(q & Hq & Hp & q0 & Hq0)|H].
          * left. exists q. repeat split; auto. exists (x :: q0).
            rewrite Hq0. reflexivity.
          * right. exact H. }
    destruct Hsuffix as [(q & Hq & -> & q0 & Hq0) | [-> | [-> | (q0 & Hq0)]]].
    + apply (@words_no_comment _ a _ Ha q0 q Hq0 Hq).
    + apply not_percent_none. reflexivity.
    + unfold match_here, comment_pattern, L. cbn [mt].
      replace (a ++ lit "\%" ++ b) with ((a ++ [backslash]) ++ lit "%" ++ b)
        by (rewrite <- app_assoc; reflexivity).
      rewrite prev_char_after. reflexivity.
    + apply (@words_no_comment_end _ b Hb q0 p2 Hq0).
Qed.

Lemma escaped_percent_kept_witness :
  remove_comments (lit "50" ++ lit "\%" ++ lit "more") =
    lit "50" ++ lit "\%" ++ lit "more".
Proof. apply escaped_percent_kept; reflexivity. Defined.

(** ** Blocks of lines *)

Lemma join_cons (sep x : str) (l : list str) :
  l <> [] -> join sep (x :: l) = x ++ sep ++ join sep l.
Proof. destruct l; [congruence | reflexivity]. Qed.

Lemma join_app (sep : str) (a b : list str) :
  a <> [] -> b <> [] -> join sep (a ++ b) = join sep a ++ sep ++ join sep b.
Proof.
  induction a as [|x a IH]; intros Ha Hb; [congruence|].
  destruct a as [|y a].
  - cbn [app]. rewrite join_cons by exact Hb. reflexivity.
  - change ((x :: y :: a) ++ b) with (x :: ((y :: a) ++ b)).
    rewrite join_cons by discriminate.
    rewrite IH by (congruence || discriminate).
    rewrite (@join_cons sep x (y :: a)) by discriminate.
    rewrite <- !app_assoc. reflexivity.
Qed.

Lemma concat_nonempty (bl : list (list str)) :
  bl <> [] -> (forall b, In b bl -> b <> []) -> concat bl <> [].
Proof.
  destruct bl as [|b bl]; [congruence|]. intros _ H.
  cbn [concat]. pose proof (H b (or_introl eq_refl)) as Hb.
  destruct b; [congruence | discriminate].
Qed.

(** Joining joined blocks is joining all their lines. *)
Lemma join_concat (sep : str) (bl : list (list str)) :
  (forall b, In b bl -> b <> []) ->
  join sep (map (join sep) bl) = join sep (concat bl).
Proof.
  induction bl as [|b bl IH]; intros H; [reflexivity|].
  assert (Hb : b <> []) by (apply H; left; reflexivity).
  assert (H' : forall b', In b' bl -> b' <> [])
    by (intros b' Hin; apply H; right; exact Hin).
  destruct bl as [|b2 bl].
  - cbn [map join concat]. rewrite app_nil_r. reflexivity.
  - change (map (join sep) (b :: b2 :: bl))
      with (join sep b :: map (join sep) (b2 :: bl)).
    rewrite join_cons by discriminate.
    rewrite IH by exact H'.
    change (concat (b :: b2 :: bl)) with (b ++ concat (b2 :: bl)).
    rewrite join_app; [reflexivity | exact Hb |].
    apply concat_nonempty; [discriminate | exact H'].
Qed.

(** The loop of [split_content_into_blocks] with the blocks kept as lists of
    lines. *)
Definition block_step_lines (block_size : Z) (st : list (list str) * list str)
           (line : str) : list (list str) * list str :=
  let (blocks, current_block) := st in
  let current_block := current_block ++ [line] in
  let block_len := Z.of_nat (length current_block) in
  if ((block_size <=? block_len) && (block_len <? block_size * 3))%Z then
    if negb (nonempty (strip line))
    then (blocks ++ [current_block], [])
    else (blocks, current_block)
  else if (block_size * 3 <=? block_len)%Z
  then (blocks ++ [current_block], [])
  else (blocks, current_block).

Definition joined (st : list (list str) * list str) : list str * list str :=
  (map (join [nl]) (fst st), snd st).

Lemma block_step_joined (block_size : Z) (st : list (list str) * list str)
      (line : str) :
  block_step block_size (joined st) line =
    joined (block_step_lines block_size st line).
Proof.
  destruct st as [bl cur]. unfold joined, block_step, block_step_lines.
  cbn [fst snd].
  destruct ((block_size <=? _) && _)%Z.
  - destruct (negb (nonempty (strip line))); cbn [fst snd];
      rewrite ?map_app; reflexivity.
  - destruct (block_size * 3 <=? _)%Z; cbn [fst snd];
      rewrite ?map_app; reflexivity.
Qed.

Lemma fold_joined (block_size : Z) (lines : list str) :
  forall st,
    fold_left (block_step block_size) lines (joined st) =
      joined (fold_left (block_step_lines block_size) lines st).
Proof.
  induction lines as [|line lines IH]; intros st; [reflexivity|].
  cbn [fold_left]. rewrite block_step_joined. apply IH.
Qed.

(** A finished block and the block being filled. *)
Definition closed_block (block_size : Z) (b : list str) : Prop :=
  1 <= length b /\ (block_size <= Z.of_nat (length b))%Z /\
  (Z.of_nat (length b) <= Z.max 1 (3 * block_size))%Z.

Definition open_block (block_size : Z) (cur : list str) : Prop :=
  (Z.of_nat (length cur) < Z.max 1 (3 * block_size))%Z.

Lemma block_step_inv (block_size : Z) (bl : list (list str)) (cur : list str)
      (line : str) :
  (forall b, In b bl -> closed_block block_size b) ->
  open_block block_size cur ->
  let st := block_step_lines block_size (bl, cur) line in
  concat (fst st) ++ snd st = concat bl ++ cur ++ [line] /\
  (forall b, In b (fst st) -> closed_block block_size b) /\
  open_block block_size (snd st).
Proof.
  intros Hbl Hcur. unfold block_step_lines. cbv zeta.
  unfold open_block in Hcur.
  assert (Hlen : Z.of_nat (length (cur ++ [line])) = (Z.of_nat (length cur) + 1)%Z)
    by (rewrite length_app; cbn [length]; lia).
  assert (Hpos : 1 <= length (cur ++ [line]))
    by (rewrite length_app; cbn [length]; lia).
  assert (Hclose : (block_size <= Z.of_nat (length (cur ++ [line])))%Z ->
                   forall b, In b (bl ++ [cur ++ [line]]) ->
                             closed_block block_size b).
  { intros Hge b Hin. apply in_app_or in Hin. destruct Hin as [Hin|[<-|[]]].
    - apply Hbl, Hin.
    - unfold closed_block. repeat split; [exact Hpos | exact Hge | lia]. }
  assert (Hcat : concat (bl ++ [cur ++ [line]]) ++ [] =
                 concat bl ++ cur ++ [line]).
  { rewrite concat_app. cbn [concat]. rewrite !app_nil_r. reflexivity. }
  destruct ((block_size <=? _) && _)%Z eqn:E1.
  - apply andb_prop in E1. destruct E1 as [E1 E2].
    apply Z.leb_le in E1. apply Z.ltb_lt in E2.
    destruct (negb (nonempty (strip line))); cbn [fst snd].
    + split; [exact Hcat|]. split; [apply Hclose; exact E1|].
      unfold open_block. cbn [length]. lia.
    + split; [reflexivity|]. split; [exact Hbl|]. unfold open_block. lia.
  - destruct (block_size * 3 <=? _)%Z eqn:E3; cbn [fst snd].
    + apply Z.leb_le in E3.
      split; [exact Hcat|]. split; [apply Hclose; lia|].
      unfold open_block. cbn [length]. lia.
    + apply Z.leb_gt in E3. apply andb_false_iff in E1.
      split; [reflexivity|]. split; [exact Hbl|]. unfold open_block.
      destruct E1 as [E1|E1]; [apply Z.leb_gt in E1 | apply Z.ltb_ge in E1]; lia.
Qed.

Lemma fold_blocks_inv (block_size : Z) (lines : list str) :
  forall bl cur,
    (forall b, In b bl -> closed_block block_size b) ->
    open_block block_size cur ->
    let st := fold_left (block_step_lines block_size) lines (bl, cur) in
    concat (fst st) ++ snd st = concat bl ++ cur ++ lines /\
    (forall b, In b (fst st) -> closed_block block_size b) /\
    open_block block_size (snd st).
Proof.
  induction lines as [|line lines IH]; intros bl cur Hbl Hcur.
  - cbn [fold_left fst snd]. rewrite app_nil_r. auto.
  - cbn [fold_left].
    destruct (@block_step_inv block_size bl cur line Hbl Hcur)
      as (Hcat & Hbl' & Hcur').
    destruct (block_step_lines block_size (bl, cur) line) as [bl' cur'].
    cbn [fst snd] in *.
    destruct (IH bl' cur' Hbl' Hcur') as (Hcat2 & Hbl2 & Hcur2).
    split; [|split; [exact Hbl2 | exact Hcur2]].
    rewrite Hcat2, app_assoc, Hcat, <- !app_assoc. reflexivity.
Qed.

(** The blocks as lists of lines: they are the lines of the content in
    order, each block is finished or, for the last one, still open. *)
Lemma split_blocks_lines (content : str) (block_size : Z) :
  exists (bl : list (list str)) (cur : list str),
    split_content_into_blocks content block_size =
      map (join [nl]) (bl ++ match cur with [] => [] | _ => [cur] end) /\
    concat bl ++ cur = splitlines content /\
    (forall b, In b bl -> closed_block block_size b) /\
    open_block block_size cur.
Proof.
  unfold split_content_into_blocks.
  change (@nil str, @nil str) with (joined ([], [])).
  rewrite fold_joined.
  assert (Hopen : open_block block_size []) by (unfold open_block; cbn; lia).
  destruct (@fold_blocks_inv block_size (splitlines content) [] []
              (fun b (H : In b []) => match H with end) Hopen)
    as (Hcat & Hbl & Hcur).
  destruct (fold_left (block_step_lines block_size) (splitlines content)
                      ([], [])) as [bl cur].
  unfold joined. cbn [fst snd] in *. exists bl, cur.
  split; [|split; [exact Hcat | split; [exact Hbl | exact Hcur]]].
  destruct cur; [rewrite app_nil_r; reflexivity|].
  rewrite map_app. reflexivity.
Qed.

(** X29.  Nothing is lost and nothing is reordered: the blocks of
    [split_content_into_blocks], joined by newlines, are the lines of the
    content joined by newlines, for every block size. *)
Theorem blocks_preserve_content (content : str) (block_size : Z) :
  join [nl] (split_content_into_blocks content block_size) =
    join [nl] (splitlines content).
Proof.
  destruct (split_blocks_lines content block_size)
    as (bl & cur & -> & Hcat & Hbl & _).
  rewrite join_concat.
  - rewrite concat_app, <- Hcat. destruct cur; cbn [concat];
      rewrite ?app_nil_r; reflexivity.
  - intros b Hin. apply in_app_or in Hin. destruct Hin as [Hin|Hin].
    + destruct (Hbl b Hin) as [H1 _]. destruct b; [cbn in H1; lia | discriminate].
    + destruct cur; [contradiction|]. destruct Hin as [<-|[]]. discriminate.
Qed.

(** X30.  The sizes of the blocks.  The result is a list of blocks of lines, each
    joined by newlines; every block holds at least one line and at most
    [3 * block_size] lines (one line when [block_size] is not positive), and
    every block but the last holds at least [block_size] lines. *)
Theorem blocks_bounded (content : str) (block_size : Z) :
  exists bl : list (list str),
    split_content_into_blocks content block_size = map (join [nl]) bl /\
    concat bl = splitlines content /\
    (forall b, In b bl ->
       1 <= length b /\
       (Z.of_nat (length b) <= Z.max 1 (3 * block_size))%Z) /\
    (forall bl' b, bl = bl' ++ [b] ->
       forall b', In b' bl' -> (block_size <= Z.of_nat (length b'))%Z).
Proof.
  destruct (split_blocks_lines content block_size)
    as (bl & cur & Hres & Hcat & Hbl & Hcur).
  exists (bl ++ match cur with [] => [] | _ => [cur] end).
  split; [exact Hres|]. split; [|split].
  - rewrite concat_app, <- Hcat. destruct cur; cbn [concat];
      rewrite ?app_nil_r; reflexivity.
  - intros b H. apply in_app_or in H. destruct H as [H|H].
    + destruct (Hbl b H) as (H1 & _ & H3). split; assumption.
    + destruct cur; [contradiction|]. destruct H as [<-|[]].
      unfold open_block in Hcur. split; [cbn [length]; lia | lia].
  - intros bl' b E b' Hin.
    assert (Hin' : In b' bl).
    { destruct cur as [|l cur].
      - rewrite app_nil_r in E. subst bl. apply in_or_app. left. exact Hin.
      - apply app_inj_tail in E. destruct E as [-> _]. exact Hin. }
    destruct (Hbl b' Hin') as (_ & H2 & _). exact H2.
Qed.
